(** * Tensor-core rewrite pass of TVM's tensor-expression scheduler

    A shallow embedding of
    [src/te/schedule/schedule_postproc_rewrite_for_tensor_core.cc]:
    the pattern matcher [MMAMatcher], the role analysis [ScheduleAnalyser],
    the tile analysis [BufferAnalyser], the rewriter [TensorCoreIRMutator]
    and the driver [SchedulePostProcRewriteForTensorCore].

    Conventions of the embedding.
    - IR nodes are values of [PrimExpr] and [Stmt].  The C++ code keys
      several tables by the address of a node; the nodes that are used as
      keys carry that address in a field of type [addr].
    - A C++ [int] is a [Z].  A conversion to [int] narrows with [to_int]
      (two's complement wrap-around), one to [unsigned] with [to_unsigned];
      the arithmetic on [int] is [int_mul], [int_div] and [int_rem].
    - A function that may stop on a failed [ICHECK] or run into undefined
      behaviour (a null pointer or an end iterator dereferenced, a division
      by zero, a signed overflow) returns in [Res]: [Err CheckFailed] or
      [Err Undefined].
    - [std::unordered_map] is a [gmap], except for the two tables the code
      iterates over ([args_] and [mma_sync_]), which are association lists
      in insertion order.  [insert] keeps the first entry of a key,
      [operator[]] overwrites. *)

From Stdlib Require Import ZArith String Ascii List Bool Lia.
From stdpp Require Import base option list gmap strings fin_maps.

Import ListNotations.
#[local] Set Warnings "-register-all".
Local Open Scope string_scope.
Local Open Scope list_scope.
Local Open Scope Z_scope.

(** ** Outcomes *)

Inductive Fault := CheckFailed | Undefined.

Inductive Res (A : Type) : Type :=
| Ok (a : A)
| Err (f : Fault).

Arguments Ok {A} a.
Arguments Err {A} f.

Definition bind {A B : Type} (m : Res A) (k : A -> Res B) : Res B :=
  match m with
  | Ok a => k a
  | Err f => Err f
  end.

Notation "x <- m ; k" := (bind m (fun x => k))
  (at level 20, m at level 100, k at level 200, only parsing).
Notation "' p <- m ; k" := (bind m (fun x => match x with p => k end))
  (at level 20, p pattern, m at level 100, k at level 200, only parsing).

Section Folds.
Context {A S : Type} (f : A -> S -> Res S).

(** Visit the elements of an array from left to right, threading the
    state. *)
Fixpoint foldM (l : list A) (s : S) : Res S :=
  match l with
  | [] => Ok s
  | x :: l' => s' <- f x s ; foldM l' s'
  end.
End Folds.

(** [Array::operator[]] checks its index. *)
Definition at_index {A : Type} (l : list A) (i : nat) : Res A :=
  match nth_error l i with
  | Some x => Ok x
  | None => Err CheckFailed
  end.

(** A null pointer dereferenced is undefined behaviour. *)
Definition deref {A} (p : option A) : Res A :=
  match p with
  | Some x => Ok x
  | None => Err Undefined
  end.

(** [std::unordered_map::insert]: no effect when the key is present. *)
Definition insert_new {K V} `{Countable K} (k : K) (v : V) (m : gmap K V)
  : gmap K V :=
  match m !! k with
  | Some _ => m
  | None => <[k := v]> m
  end.

(** ** Machine integers *)

Definition to_int (z : Z) : Z := (z + 2 ^ 31) mod 2 ^ 32 - 2 ^ 31.
Definition to_unsigned (z : Z) : Z := z mod 2 ^ 32.

(** The values of an [int]. *)
Definition in_int (z : Z) : bool := (- 2 ^ 31 <=? z) && (z <? 2 ^ 31).

(** C++ [*] on [int]: undefined when the product overflows. *)
Definition int_mul (a b : Z) : Res Z :=
  if in_int (a * b) then Ok (a * b) else Err Undefined.

(** C++ [/] and [%] on [int]: truncation towards zero, undefined for a zero
    divisor and for the one quotient that overflows. *)
Definition int_div (a b : Z) : Res Z :=
  if (b =? 0)%Z || ((a =? - 2 ^ 31)%Z && (b =? -1)%Z) then Err Undefined
  else Ok (Z.quot a b).
Definition int_rem (a b : Z) : Res Z :=
  if (b =? 0)%Z || ((a =? - 2 ^ 31)%Z && (b =? -1)%Z) then Err Undefined
  else Ok (Z.rem a b).

(** ** Data types *)

Inductive TypeCode := kInt | kUInt | kFloat | kHandle.

Record DataType := mkDataType { code : TypeCode; bits : Z; lanes : Z }.

Global Instance TypeCode_eq_dec : EqDecision TypeCode.
Proof. solve_decision. Defined.
Global Instance DataType_eq_dec : EqDecision DataType.
Proof. solve_decision. Defined.

Module DT.
Definition Int (b : Z) : DataType := mkDataType kInt b 1.
Definition UInt (b : Z) : DataType := mkDataType kUInt b 1.
Definition Float (b : Z) : DataType := mkDataType kFloat b 1.
Definition Handle : DataType := mkDataType kHandle 64 1.
Definition eqb (a b : DataType) : bool := bool_decide (a = b).
End DT.

(** ** The IR *)

Definition addr := N.

(** Address of the nodes the pass allocates itself.  The pass never looks
    one of them up in a table. *)
Definition fresh_addr : addr := 0%N.

Record VarT := mkVar { v_addr : addr; name_hint : string; v_dtype : DataType }.

(** A [te::Tensor]: its identity, [GetNameHint()], [op->name] and [dtype]. *)
Record Tensor := mkTensor {
  t_addr : addr;
  t_name_hint : string;
  t_op_name : string;
  t_dtype : DataType
}.

Inductive PrimExpr :=
| Var (v : VarT)
| IntImm (dt : DataType) (value : Z)
| FloatImm (dt : DataType) (value : Z)
| StringImm (value : string)
| Cast (dt : DataType) (value : PrimExpr)
| Add (a b : PrimExpr)
| Sub (a b : PrimExpr)
| Mul (a b : PrimExpr)
| Div (a b : PrimExpr)
| ProducerLoad (a : addr) (producer : Tensor) (indices : list PrimExpr)
| Call (a : addr) (dt : DataType) (op : string) (args : list PrimExpr)
| Reduce (dt : DataType) (result : list PrimExpr) (source : list PrimExpr)
         (axis : list (VarT * (PrimExpr * PrimExpr))) (condition : PrimExpr).

Record Range := mkRange { r_min : PrimExpr; r_extent : PrimExpr }.

Definition Region := list Range.

Record IterVar := mkIterVar { iv_addr : addr; iv_var : VarT; thread_tag : string }.

Record Buffer := mkBuffer {
  b_data : VarT;
  b_name : string;
  b_scope : string;
  b_dtype : DataType;
  b_strides : list PrimExpr;
  b_shape : list PrimExpr;
  b_data_alignment : Z;
  b_elem_offset : PrimExpr;
  b_offset_factor : Z
}.

(** What the [node] field of an attribute statement can refer to. *)
Inductive ObjectRef :=
| RefTensor (t : Tensor)
| RefIterVar (iv : IterVar)
| RefOperation (a : addr) (name : string)
| RefBind (a : addr) (b : Buffer) (t : Tensor)
| RefOther (a : addr).

Definition ref_addr (r : ObjectRef) : addr :=
  match r with
  | RefTensor t => t_addr t
  | RefIterVar iv => iv_addr iv
  | RefOperation a _ => a
  | RefBind a _ _ => a
  | RefOther a => a
  end.

Inductive ForKind := kSerial | kParallel | kVectorized | kUnrolled | kThreadBinding.

Inductive Stmt :=
| AttrStmt (node : ObjectRef) (attr_key : string) (value : PrimExpr) (body : Stmt)
| ProducerStore (a : addr) (producer : Tensor) (value : PrimExpr)
                (indices : list PrimExpr)
| ProducerRealize (producer : Tensor) (bounds : Region) (condition : PrimExpr)
                  (body : Stmt)
| For (loop_var : VarT) (min extent : PrimExpr) (kind : ForKind) (body : Stmt)
      (thread_binding : option IterVar) (annotations : list (string * string))
| SeqStmt (seq : list Stmt)
| IfThenElse (condition : PrimExpr) (then_case : Stmt) (else_case : option Stmt)
| Evaluate (value : PrimExpr).

(** Attribute keys of [tir::attr]. *)
Module attr.
Definition pragma_tensor_core := "pragma_tensor_core".
Definition realize_scope := "realize_scope".
Definition thread_extent := "thread_extent".
Definition buffer_dim_align := "buffer_dim_align".
End attr.

(** [e.as<T>()]: the node when it has kind [T], a null pointer otherwise. *)
Definition as_StringImm (e : PrimExpr) : option string :=
  match e with StringImm s => Some s | _ => None end.
Definition as_IntImm (e : PrimExpr) : option Z :=
  match e with IntImm _ v => Some v | _ => None end.
Definition as_Var (e : PrimExpr) : option VarT :=
  match e with Var v => Some v | _ => None end.
Definition as_Add (e : PrimExpr) : option (PrimExpr * PrimExpr) :=
  match e with Add a b => Some (a, b) | _ => None end.
Definition as_Mul (e : PrimExpr) : option (PrimExpr * PrimExpr) :=
  match e with Mul a b => Some (a, b) | _ => None end.
Definition as_ProducerLoad (e : PrimExpr) : option (addr * Tensor * list PrimExpr) :=
  match e with ProducerLoad a p i => Some (a, p, i) | _ => None end.
Definition as_Call (e : PrimExpr) : option addr :=
  match e with Call a _ _ _ => Some a | _ => None end.

(** [std::string::find(".")] and [substr]. *)
Fixpoint simplify_name (input : string) : string :=
  match input with
  | EmptyString => EmptyString
  | String c rest =>
      if Ascii.eqb c "." then EmptyString else String c (simplify_name rest)
  end.

(** [unpack_type_cast]; [None] is the undefined [PrimExpr()]. *)
Definition unpack_type_cast (input : PrimExpr) (target_type : DataType)
  : option PrimExpr :=
  match input with
  | Cast dt value => if DT.eqb dt target_type then Some value else None
  | _ => Some input
  end.

(** ** MMAMatcher *)

Module MMAMatcher.

Record BufferInfo := mkBufferInfo {
  name : string;
  dtype : DataType;
  external : bool;
  released : bool
}.

Definition same_as (this bi : BufferInfo) : bool :=
  DT.eqb (dtype this) (dtype bi) && String.eqb (name this) (name bi)
  && Bool.eqb (external this) (external bi)
  && Bool.eqb (released this) (released bi).

Record State := mkState {
  buf_map_ : gmap addr BufferInfo;
  storage_scope_ : gmap addr string;
  mma_sync_ : list (addr * list PrimExpr);
  buf_name_ : gmap addr string;
  frag_reg_ : gset string;
  matched_ : bool;
  tensor_core_on_ : bool
}.

Definition set_buf_map (st : State) (m : gmap addr BufferInfo) : State :=
  mkState m (storage_scope_ st) (mma_sync_ st) (buf_name_ st) (frag_reg_ st)
          (matched_ st) (tensor_core_on_ st).
Definition set_storage_scope (st : State) (m : gmap addr string) : State :=
  mkState (buf_map_ st) m (mma_sync_ st) (buf_name_ st) (frag_reg_ st)
          (matched_ st) (tensor_core_on_ st).
Definition set_matched (st : State) (b : bool) : State :=
  mkState (buf_map_ st) (storage_scope_ st) (mma_sync_ st) (buf_name_ st)
          (frag_reg_ st) b (tensor_core_on_ st).
Definition set_tensor_core_on (st : State) (b : bool) : State :=
  mkState (buf_map_ st) (storage_scope_ st) (mma_sync_ st) (buf_name_ st)
          (frag_reg_ st) (matched_ st) b.

Fixpoint alist_find {V} (k : addr) (l : list (addr * V)) : option V :=
  match l with
  | [] => None
  | (k', v) :: l' => if N.eqb k k' then Some v else alist_find k l'
  end.

Definition alist_insert_new {V} (k : addr) (v : V) (l : list (addr * V))
  : list (addr * V) :=
  match alist_find k l with
  | Some _ => l
  | None => l ++ [(k, v)]
  end.

(** The constructor: one entry per external buffer. *)
Definition init (extern_buffer : list (Tensor * Buffer)) : State :=
  mkState
    (fold_left (fun m kv =>
                  <[t_addr (fst kv) :=
                      mkBufferInfo (b_name (snd kv)) (b_dtype (snd kv)) true false]> m)
               extern_buffer ∅)
    ∅ [] ∅ ∅ false false.

(** [check_local_buffer_] for a non-null [op].  The out-parameter is
    returned when the result is [true]; the callers read it in that case
    only. *)
Definition check_local_buffer_ (op : addr * Tensor * list PrimExpr)
    (st : State) : option BufferInfo :=
  let '(_, tensor, _) := op in
  match storage_scope_ st !! t_addr tensor with
  | None => None
  | Some strkey =>
      if negb (String.eqb strkey "local") then None
      else match buf_map_ st !! t_addr tensor with
           | None => None
           | Some bi => if released bi then None else Some bi
           end
  end.

Definition dtype_in (d : DataType) (l : list DataType) : bool :=
  existsb (DT.eqb d) l.

(** The dtype test of the first factor (lines 199-201). *)
Definition dtype_ok_a (buffer_a : BufferInfo) : bool :=
  dtype_in (dtype buffer_a)
    [DT.Float 16; DT.Int 8; DT.UInt 8; DT.Int 4; DT.UInt 4; DT.Int 1].

(** The dtype test of the second factor (lines 209-211): its last two
    disjuncts read [buffer_a]. *)
Definition dtype_ok_b (buffer_a buffer_b : BufferInfo) : bool :=
  dtype_in (dtype buffer_b) [DT.Float 16; DT.Int 8; DT.UInt 8; DT.Int 4]
  || DT.eqb (dtype buffer_a) (DT.UInt 4)
  || DT.eqb (dtype buffer_a) (DT.Int 1).

Definition record_match (op_addr : addr) (load_a_expr load_b_expr add_a : PrimExpr)
    (load_a load_b : addr) (buffer_a buffer_b buffer_c : BufferInfo)
    (st : State) : State :=
  mkState
    (buf_map_ st) (storage_scope_ st)
    (alist_insert_new op_addr [load_a_expr; load_b_expr; add_a] (mma_sync_ st))
    (insert_new load_b (name buffer_b)
       (insert_new load_a (name buffer_a) (buf_name_ st)))
    ({[name buffer_b]} ∪ ({[name buffer_a]} ∪ ({[name buffer_c]} ∪ frag_reg_ st)))
    (matched_ st) (tensor_core_on_ st).

(** [mma_sync_match_] after the second factor has been unpacked. *)
Definition match_factors (op_addr : addr) (add_a mul_a mul_b : PrimExpr)
    (buffer_c : BufferInfo) (st : State) : Res (bool * State) :=
  load_a_expr <- deref (unpack_type_cast mul_a (dtype buffer_c)) ;
  load_a <- deref (as_ProducerLoad load_a_expr) ;
  match check_local_buffer_ load_a st with
  | None => Ok (false, st)
  | Some buffer_a =>
      if negb (dtype_ok_a buffer_a) then Ok (false, st)
      else
        load_b_expr <- deref (unpack_type_cast mul_b (dtype buffer_c)) ;
        load_b <- deref (as_ProducerLoad load_b_expr) ;
        match check_local_buffer_ load_b st with
        | None => Ok (false, st)
        | Some buffer_b =>
            if negb (dtype_ok_b buffer_a buffer_b) then Ok (false, st)
            else Ok (true,
                     record_match op_addr load_a_expr load_b_expr add_a
                       (fst (fst load_a)) (fst (fst load_b))
                       buffer_a buffer_b buffer_c st)
        end
  end.

(** [mma_sync_match_]: the result and the updated tables.  An undefined
    expression or an expression of another kind gives a null [load_c],
    [load_a] or [load_b], which [check_local_buffer_] dereferences. *)
Definition mma_sync_match_ (op_addr : addr) (op_value : PrimExpr)
    (store_buffer : BufferInfo) (st : State) : Res (bool * State) :=
  match as_Add op_value with
  | None => Ok (false, st)
  | Some (add_a, add_b) =>
      load_c <- deref (as_ProducerLoad add_a) ;
      match check_local_buffer_ load_c st with
      | None => Ok (false, st)
      | Some buffer_c =>
          if negb (same_as buffer_c store_buffer)
             || negb (DT.eqb (dtype buffer_c) (DT.Float 32)
                      || DT.eqb (dtype buffer_c) (DT.Int 32))
          then Ok (false, st)
          else
            match unpack_type_cast add_b (dtype buffer_c) ≫= as_Mul with
            | None => Ok (false, st)
            | Some (mul_a, mul_b) =>
                match_factors op_addr add_a mul_a mul_b buffer_c st
            end
      end
  end.

(** The traversal.  [MMAMatcher] derives from [StmtVisitor], whose
    [VisitExpr] does nothing, so expressions are not entered. *)
Fixpoint VisitStmt (s : Stmt) (st : State) : Res State :=
  match s with
  | AttrStmt node attr_key value body =>
      if String.eqb attr_key attr.pragma_tensor_core then
        VisitStmt body (set_tensor_core_on st true)
      else if String.eqb attr_key attr.realize_scope then
        match as_StringImm value with
        | None => Err Undefined
        | Some scope =>
            VisitStmt body
              (set_storage_scope st (<[ref_addr node := scope]> (storage_scope_ st)))
        end
      else VisitStmt body st
  | ProducerStore a producer value indices =>
      match buf_map_ st !! t_addr producer with
      | None => Ok st
      | Some bi =>
          if released bi then Ok st
          else if tensor_core_on_ st then
            '(r, st') <- mma_sync_match_ a value bi st ;
            Ok (if r then set_matched st' true else st')
          else Ok st
      end
  | ProducerRealize key bounds condition body =>
      match buf_map_ st !! t_addr key with
      | Some bi =>
          if negb (external bi) then Ok st else VisitStmt body st
      | None =>
          let bi := mkBufferInfo (t_name_hint key) (t_dtype key) false false in
          st' <- VisitStmt body (set_buf_map st (<[t_addr key := bi]> (buf_map_ st))) ;
          match buf_map_ st' !! t_addr key with
          | Some bi' =>
              Ok (set_buf_map st'
                    (<[t_addr key :=
                         mkBufferInfo (name bi') (dtype bi') (external bi') true]>
                       (buf_map_ st')))
          | None =>
              Ok (set_buf_map st'
                    (<[t_addr key :=
                         mkBufferInfo "" (mkDataType kHandle 0 0) false true]>
                       (buf_map_ st')))
          end
      end
  | For _ _ _ _ body _ _ => VisitStmt body st
  | SeqStmt seq => foldM VisitStmt seq st
  | IfThenElse _ then_case else_case =>
      st' <- VisitStmt then_case st ;
      match else_case with
      | Some e => VisitStmt e st'
      | None => Ok st'
      end
  | Evaluate _ => Ok st
  end.

Definition run (extern_buffer : list (Tensor * Buffer)) (s : Stmt) : Res State :=
  VisitStmt s (init extern_buffer).

Definition Matched (st : State) : bool := matched_ st.

End MMAMatcher.

(** ** The schedule *)

Inductive Operation :=
| ComputeOp (name : string) (axis : list IterVar) (reduce_axis : list IterVar)
            (body : list PrimExpr)
| OtherOp (name : string).

Record Schedule := mkSchedule { outputs : list Operation }.

(** ** BodyVisitor *)

Module BodyVisitor.

Record State := mkState {
  args_ : list (string * list PrimExpr);
  tensorcore_candidate_ : bool
}.

Definition init : State := mkState [] false.

Fixpoint args_find (k : string) (l : list (string * list PrimExpr))
  : option (list PrimExpr) :=
  match l with
  | [] => None
  | (k', v) :: l' => if String.eqb k k' then Some v else args_find k l'
  end.

(** [args_.insert]: the first indices recorded for a name stay. *)
Definition args_insert (k : string) (v : list PrimExpr) (st : State) : State :=
  match args_find k (args_ st) with
  | Some _ => st
  | None => mkState (args_ st ++ [(k, v)]) (tensorcore_candidate_ st)
  end.

Definition is_mul (e : option PrimExpr) : bool :=
  match e ≫= as_Mul with Some _ => true | None => false end.

(** The traversal: the two overridden cases, and for the other kinds the
    children in the order of their fields.  A reduction's axes and condition
    are not entered by the override. *)
Fixpoint VisitExpr (e : PrimExpr) (st : State) : Res State :=
  match e with
  | Var _ | IntImm _ _ | FloatImm _ _ | StringImm _ => Ok st
  | Cast _ value => VisitExpr value st
  | Add a b | Sub a b | Mul a b | Div a b =>
      st' <- VisitExpr a st ; VisitExpr b st'
  | ProducerLoad _ producer indices =>
      st' <- foldM VisitExpr indices st ;
      Ok (args_insert (t_name_hint producer) indices st')
  | Call _ _ _ args => foldM VisitExpr args st
  | Reduce _ result source _ _ =>
      r0 <- at_index result 0 ;
      match as_Add r0 with
      | None => Ok st
      | Some _ =>
          if (1 <? length result)%nat then Ok st
          else
            foldM (fun src st1 =>
                     if negb (is_mul (unpack_type_cast src (DT.Float 32)))
                        && negb (is_mul (unpack_type_cast src (DT.Int 32)))
                     then Ok st1
                     else VisitExpr src (mkState (args_ st1) true))
                  source st
      end
  end.

End BodyVisitor.

(** ** ScheduleAnalyser *)

Module ScheduleAnalyser.

Record State := mkState {
  matrix_abc_ : gmap string string;
  matrix_major_ : gmap string string;
  mma_sync_ : list (addr * list PrimExpr);
  buf_name_ : gmap addr string
}.

Definition init (mma_matcher : MMAMatcher.State) : State :=
  mkState ∅ ∅ (MMAMatcher.mma_sync_ mma_matcher) (MMAMatcher.buf_name_ mma_matcher).

(** [axis[axis.size() - 1 - back]]. *)
Definition from_end {A} (l : list A) (back : nat) : Res A :=
  at_index l (length l - 1 - back).

(** The chain of comparisons of lines 313-326 on the addresses of the
    variable nodes; no branch taken leaves both strings empty. *)
Definition classify (var0 var1 reduce_axis_var axis_var0 axis_var1 : addr)
  : string * string :=
  if N.eqb var0 reduce_axis_var && N.eqb var1 axis_var1 then ("matrix_a", "col_major")
  else if N.eqb var0 reduce_axis_var && N.eqb var1 axis_var0 then ("matrix_b", "row_major")
  else if N.eqb var0 axis_var1 && N.eqb var1 reduce_axis_var then ("matrix_a", "row_major")
  else if N.eqb var0 axis_var0 && N.eqb var1 reduce_axis_var then ("matrix_b", "col_major")
  else ("", "").

Definition set_roles (st : State) (abc major : gmap string string) : State :=
  mkState abc major (mma_sync_ st) (buf_name_ st).

(** The body of the loop over [body_visitor.args_] (lines 303-328). *)
Definition identify_arg (reduce_axis_var axis_var0 axis_var1 : addr)
    (iter : string * list PrimExpr) (st : State) : Res State :=
  let '(name, args) := iter in
  if (length args <? 2)%nat then Ok st
  else
    a0 <- from_end args 1 ;
    a1 <- from_end args 0 ;
    match as_Var a0, as_Var a1 with
    | Some var0, Some var1 =>
        let '(matrix_abc, major) :=
          classify (v_addr var0) (v_addr var1) reduce_axis_var axis_var0 axis_var1 in
        Ok (set_roles st (insert_new name matrix_abc (matrix_abc_ st))
                         (insert_new name major (matrix_major_ st)))
    | _, _ => Ok st
    end.

(** The body of the loop over [schedule->outputs] (lines 279-331). *)
Definition identify_output (output : Operation) (st : State) : Res State :=
  match output with
  | OtherOp _ => Ok st
  | ComputeOp name axis reduce_axis body =>
      if (length axis <? 2)%nat || negb (length reduce_axis =? 1)%nat then Ok st
      else
        x <- from_end axis 1 ;
        y <- from_end axis 0 ;
        r <- at_index reduce_axis 0 ;
        body_visitor <- foldM BodyVisitor.VisitExpr body BodyVisitor.init ;
        if negb (BodyVisitor.tensorcore_candidate_ body_visitor) then Ok st
        else
          st' <- foldM (identify_arg (v_addr (iv_var r)) (v_addr (iv_var x))
                                     (v_addr (iv_var y)))
                       (BodyVisitor.args_ body_visitor) st ;
          Ok (set_roles st'
                (insert_new name "accumulator" (matrix_abc_ st'))
                (insert_new name "col_major" (matrix_major_ st')))
  end.

(** [buf_name_.find(p)->second]: a null pointer is the key of no entry, and
    the end iterator is dereferenced when nothing is found. *)
Definition find_second (m : gmap addr string) (p : option addr) : Res string :=
  deref (p ≫= (fun a => m !! a)).

(** The loop over [mma_sync_] (lines 334-354): the records still to visit,
    the records already visited, and the result of [MatrixIdentify].  The
    order in which [std::unordered_map] hands out its entries is not
    specified; the model takes the order of insertion. *)
Fixpoint check_records (todo done : list (addr * list PrimExpr)) (st : State)
  : Res (bool * State) :=
  match todo with
  | [] => Ok (true, mkState (matrix_abc_ st) (matrix_major_ st) done (buf_name_ st))
  | (key, operands) :: todo' =>
      let stop (b : bool) :=
        Ok (b, mkState (matrix_abc_ st) (matrix_major_ st)
                       (done ++ (key, operands) :: todo') (buf_name_ st)) in
      o0 <- at_index operands 0 ;
      o1 <- at_index operands 1 ;
      let load_a := as_Call o0 in
      let load_b := as_Call o1 in
      n0 <- find_second (buf_name_ st) load_a ;
      n1 <- find_second (buf_name_ st) load_b ;
      let input0 := simplify_name n0 in
      let input1 := simplify_name n1 in
      match matrix_abc_ st !! input0, matrix_abc_ st !! input1 with
      | Some r0, Some r1 =>
          if String.eqb r0 "matrix_a" && String.eqb r1 "matrix_b" then stop true
          else if String.eqb r0 "matrix_b" && String.eqb r1 "matrix_a" then
            o2 <- at_index operands 2 ;
            check_records todo' (done ++ [(key, [o1; o0; o2])]) st
          else stop false
      | _, _ => stop false
      end
  end.

Definition MatrixIdentify (schedule : Schedule) (st : State) : Res (bool * State) :=
  st' <- foldM identify_output (outputs schedule) st ;
  check_records (mma_sync_ st') [] st'.

End ScheduleAnalyser.

(** ** Helpers shared by the analyser and the rewriter *)

Record Tile := mkTile { m : Z; n : Z; k : Z }.

(** The default member initialisers of [Tile]. *)
Definition Tile_init : Tile := mkTile (-1) (-1) (-1).

(** [e.dtype()]: a binary node has the type of its first operand, a
    producer load the type of its tensor. *)
Fixpoint dtype_of (e : PrimExpr) : DataType :=
  match e with
  | Var v => v_dtype v
  | IntImm dt _ | FloatImm dt _ | Cast dt _ | Call _ dt _ _ | Reduce dt _ _ _ _ => dt
  | StringImm _ => DT.Handle
  | Add a _ | Sub a _ | Mul a _ | Div a _ => dtype_of a
  | ProducerLoad _ p _ => t_dtype p
  end.

(** Names of the intrinsics of [tir::builtin]. *)
Module builtin.
Definition tvm_tuple := "tir.tvm_tuple".
Definition tvm_mma_sync := "tir.tvm_mma_sync".
Definition tvm_bmma_sync := "tir.tvm_bmma_sync".
Definition tvm_fill_fragment := "tir.tvm_fill_fragment".
Definition tvm_load_matrix_sync := "tir.tvm_load_matrix_sync".
Definition tvm_store_matrix_sync := "tir.tvm_store_matrix_sync".
Definition call_extern := "tir.call_extern".
End builtin.

(** Modelled from the spec: the default cases of the visitor and mutator
    base classes ([StmtVisitor], [StmtExprVisitor], [StmtExprMutator], which
    this file includes from [tvm/tir/stmt_functor.h]).  The spec has each
    stage walk the tree depth-first; here a node's children are taken in the
    order of its fields, and a reduction's children are the ranges of its
    axes, its sources and its condition.  [expr_vars] lists the variables
    such a walk reaches in an expression. *)
Fixpoint expr_vars (e : PrimExpr) : list VarT :=
  match e with
  | Var v => [v]
  | IntImm _ _ | FloatImm _ _ | StringImm _ => []
  | Cast _ value => expr_vars value
  | Add a b | Sub a b | Mul a b | Div a b => expr_vars a ++ expr_vars b
  | ProducerLoad _ _ indices => concat (map expr_vars indices)
  | Call _ _ _ args => concat (map expr_vars args)
  | Reduce _ _ source axis condition =>
      concat (map (fun ax => let '(_, (mn, ex)) := ax in expr_vars mn ++ expr_vars ex)
                  axis)
      ++ concat (map expr_vars source) ++ expr_vars condition
  end.

(** The strides of a compact buffer (lines 458-465, 560-567, 1031-1038):
    entry [i - 1] is [((1 * shape[n-1]) * ...) * shape[i]], the last entry
    is the constant one. *)
Definition compact_strides (one : PrimExpr) (shape : list PrimExpr) : list PrimExpr :=
  map (fun i => fold_left Mul (rev (drop i shape)) (IntImm (DT.Int 32) 1))
      (seq 1 (length shape - 1))
  ++ [one].

(** ** BufferAnalyser *)

Module BufferAnalyser.

Record DimAlignInfo := mkDimAlignInfo { align_factor : Z; align_offset : Z }.

Record BufferInfo := mkBufferInfo {
  name : string;
  dtype : DataType;
  strides : list PrimExpr;
  shape : list PrimExpr;
  bounds : Region;
  external : bool;
  released : bool
}.

Record State := mkState {
  buf_map_ : gmap addr BufferInfo;
  dim_align_ : gmap addr (list DimAlignInfo);
  storage_scope_ : gmap addr string;
  matrix_abc_ : gmap string string;
  matrix_major_ : gmap string string;
  frag_reg_ : gset string;
  strides_ : gmap string (list PrimExpr);
  frag_load_ : gmap addr PrimExpr;
  frag_store_ : gmap addr PrimExpr;
  thread_extent_ : gmap string Z;
  loop_scaling_ : gmap addr Z;
  warp_tile_ : Tile;
  thread_tile_ : Tile;
  warp_threads_y_ : Z;
  invalid_ : bool
}.

Definition with_buf_map_ (st : State) (x : gmap addr BufferInfo) : State :=
  mkState x (dim_align_ st) (storage_scope_ st) (matrix_abc_ st)
    (matrix_major_ st) (frag_reg_ st) (strides_ st) (frag_load_ st)
    (frag_store_ st) (thread_extent_ st) (loop_scaling_ st) (warp_tile_ st)
    (thread_tile_ st) (warp_threads_y_ st) (invalid_ st).
Definition with_dim_align_ (st : State) (x : gmap addr (list DimAlignInfo)) : State :=
  mkState (buf_map_ st) x (storage_scope_ st) (matrix_abc_ st)
    (matrix_major_ st) (frag_reg_ st) (strides_ st) (frag_load_ st)
    (frag_store_ st) (thread_extent_ st) (loop_scaling_ st) (warp_tile_ st)
    (thread_tile_ st) (warp_threads_y_ st) (invalid_ st).
Definition with_storage_scope_ (st : State) (x : gmap addr string) : State :=
  mkState (buf_map_ st) (dim_align_ st) x (matrix_abc_ st) (matrix_major_ st)
    (frag_reg_ st) (strides_ st) (frag_load_ st) (frag_store_ st)
    (thread_extent_ st) (loop_scaling_ st) (warp_tile_ st) (thread_tile_ st)
    (warp_threads_y_ st) (invalid_ st).
Definition with_strides_ (st : State) (x : gmap string (list PrimExpr)) : State :=
  mkState (buf_map_ st) (dim_align_ st) (storage_scope_ st) (matrix_abc_ st)
    (matrix_major_ st) (frag_reg_ st) x (frag_load_ st) (frag_store_ st)
    (thread_extent_ st) (loop_scaling_ st) (warp_tile_ st) (thread_tile_ st)
    (warp_threads_y_ st) (invalid_ st).
Definition with_frag_load_ (st : State) (x : gmap addr PrimExpr) : State :=
  mkState (buf_map_ st) (dim_align_ st) (storage_scope_ st) (matrix_abc_ st)
    (matrix_major_ st) (frag_reg_ st) (strides_ st) x (frag_store_ st)
    (thread_extent_ st) (loop_scaling_ st) (warp_tile_ st) (thread_tile_ st)
    (warp_threads_y_ st) (invalid_ st).
Definition with_frag_store_ (st : State) (x : gmap addr PrimExpr) : State :=
  mkState (buf_map_ st) (dim_align_ st) (storage_scope_ st) (matrix_abc_ st)
    (matrix_major_ st) (frag_reg_ st) (strides_ st) (frag_load_ st) x
    (thread_extent_ st) (loop_scaling_ st) (warp_tile_ st) (thread_tile_ st)
    (warp_threads_y_ st) (invalid_ st).
Definition with_thread_extent_ (st : State) (x : gmap string Z) : State :=
  mkState (buf_map_ st) (dim_align_ st) (storage_scope_ st) (matrix_abc_ st)
    (matrix_major_ st) (frag_reg_ st) (strides_ st) (frag_load_ st)
    (frag_store_ st) x (loop_scaling_ st) (warp_tile_ st) (thread_tile_ st)
    (warp_threads_y_ st) (invalid_ st).
Definition with_loop_scaling_ (st : State) (x : gmap addr Z) : State :=
  mkState (buf_map_ st) (dim_align_ st) (storage_scope_ st) (matrix_abc_ st)
    (matrix_major_ st) (frag_reg_ st) (strides_ st) (frag_load_ st)
    (frag_store_ st) (thread_extent_ st) x (warp_tile_ st) (thread_tile_ st)
    (warp_threads_y_ st) (invalid_ st).
Definition with_warp_tile_ (st : State) (x : Tile) : State :=
  mkState (buf_map_ st) (dim_align_ st) (storage_scope_ st) (matrix_abc_ st)
    (matrix_major_ st) (frag_reg_ st) (strides_ st) (frag_load_ st)
    (frag_store_ st) (thread_extent_ st) (loop_scaling_ st) x
    (thread_tile_ st) (warp_threads_y_ st) (invalid_ st).
Definition with_thread_tile_ (st : State) (x : Tile) : State :=
  mkState (buf_map_ st) (dim_align_ st) (storage_scope_ st) (matrix_abc_ st)
    (matrix_major_ st) (frag_reg_ st) (strides_ st) (frag_load_ st)
    (frag_store_ st) (thread_extent_ st) (loop_scaling_ st) (warp_tile_ st) x
    (warp_threads_y_ st) (invalid_ st).
Definition with_warp_threads_y_ (st : State) (x : Z) : State :=
  mkState (buf_map_ st) (dim_align_ st) (storage_scope_ st) (matrix_abc_ st)
    (matrix_major_ st) (frag_reg_ st) (strides_ st) (frag_load_ st)
    (frag_store_ st) (thread_extent_ st) (loop_scaling_ st) (warp_tile_ st)
    (thread_tile_ st) x (invalid_ st).
Definition with_invalid_ (st : State) (x : bool) : State :=
  mkState (buf_map_ st) (dim_align_ st) (storage_scope_ st) (matrix_abc_ st)
    (matrix_major_ st) (frag_reg_ st) (strides_ st) (frag_load_ st)
    (frag_store_ st) (thread_extent_ st) (loop_scaling_ st) (warp_tile_ st)
    (thread_tile_ st) (warp_threads_y_ st) x.

(** The constructor (lines 389-403). *)
Definition init (extern_buffer : list (Tensor * Buffer))
    (schedule_analyser : ScheduleAnalyser.State) (mma_matcher : MMAMatcher.State)
  : State :=
  mkState
    (fold_left (fun mp kv =>
                  <[t_addr (fst kv) :=
                      mkBufferInfo (b_name (snd kv)) (b_dtype (snd kv))
                                   (b_strides (snd kv)) (b_shape (snd kv)) [] true false]> mp)
               extern_buffer ∅)
    ∅ ∅
    (ScheduleAnalyser.matrix_abc_ schedule_analyser)
    (ScheduleAnalyser.matrix_major_ schedule_analyser)
    (MMAMatcher.frag_reg_ mma_matcher)
    ∅ ∅ ∅ ∅ ∅ Tile_init Tile_init (-1) false.

(** [assign_or_check_]: the result and the new value of [*dst]. *)
Definition assign_or_check_ (dst src : Z) : bool * Z :=
  if dst <=? 0 then (true, src)
  else if dst =? src then (true, dst)
  else (false, dst).

(** [supported_warp_tile_]. *)
Definition supported_warp_tile_ (warp_tile : Tile) : bool :=
  ((m warp_tile =? 16) && (n warp_tile =? 16) && (k warp_tile =? 16))
  || ((m warp_tile =? 8) && (n warp_tile =? 32) && (k warp_tile =? 16))
  || ((m warp_tile =? 32) && (n warp_tile =? 8) && (k warp_tile =? 16))
  || ((m warp_tile =? 8) && (n warp_tile =? 8) && (k warp_tile =? 32))
  || ((m warp_tile =? 8) && (n warp_tile =? 8) && (k warp_tile =? 128)).

(** [QualifiedForTensorCore]: the result and the analyser afterwards
    ([warp_tile_] and [warp_threads_y_] are written on the way). *)
Definition QualifiedForTensorCore (st : State) : Res (bool * State) :=
  if invalid_ st then Ok (false, st)
  else
    match thread_extent_ st !! "threadIdx.x" with
    | None => Ok (false, st)
    | Some warp_threads_x =>
        wm <- int_mul warp_threads_x (m (thread_tile_ st)) ;
        let st1 :=
          with_warp_tile_ st (mkTile wm (n (warp_tile_ st)) (k (warp_tile_ st))) in
        wy <- int_div 32 warp_threads_x ;
        let st2 := with_warp_threads_y_ st1 wy in
        match thread_extent_ st2 !! "threadIdx.y" with
        | None => Ok (false, st2)
        | Some ty =>
            if ty <? wy then Ok (false, st2)
            else
              r <- int_rem ty wy ;
              if negb (r =? 0) then Ok (false, st2)
              else
                wn <- int_mul wy (n (thread_tile_ st2)) ;
                let st3 :=
                  with_warp_tile_ st2
                    (mkTile (m (warp_tile_ st2)) wn (k (thread_tile_ st2))) in
                Ok (supported_warp_tile_ (warp_tile_ st3), st3)
        end
    end.

(** The test of lines 440-452 and 542-554 on the last two dimensions. *)
Definition last_two_div16 (shape : list PrimExpr) : bool :=
  if (length shape <? 2)%nat then false
  else forallb (fun e => match as_IntImm e with
                         | Some v => Z.rem v 16 =? 0
                         | None => false
                         end)
               (drop (length shape - 2) shape).

(** [IndexVisitor]: every variable of the expression is recorded with the
    current scaling factor, unless it is recorded already. *)
Definition index_visitor (scaling_factor : Z) (e : PrimExpr) (st : State) : State :=
  with_loop_scaling_ st
    (fold_left (fun t v => insert_new (v_addr v) scaling_factor t)
               (expr_vars e) (loop_scaling_ st)).

Section WithArith.

(** The arithmetic of [tvm::arith] and [tvm/tir/op.h] the analyser calls:
    the simplifier, constant construction, and the folding operators
    [+], [-], [*] and [indexmod]. *)
Variable Simplify : PrimExpr -> PrimExpr.
Variable make_const : DataType -> Z -> PrimExpr.
Variables op_add op_sub op_mul indexmod : PrimExpr -> PrimExpr -> PrimExpr.

(** [BufferInfo::RelIndex]. *)
Definition RelIndex (bi : BufferInfo) (args : list PrimExpr) : Res (list PrimExpr) :=
  if (length (bounds bi) =? 0)%nat then Ok args
  else if negb (length (bounds bi) =? length args)%nat then Err CheckFailed
  else Ok (zip_with (fun a b => op_sub a (r_min b)) args (bounds bi)).

Definition strides_of (bi : BufferInfo) : list PrimExpr :=
  if (0 <? length (strides bi))%nat then strides bi
  else compact_strides (make_const (DT.Int 32) 1) (shape bi).

(** The lookup both accessors start with (lines 434-438, 536-540). *)
Definition find_buffer (tensor : Tensor) (st : State) : Res BufferInfo :=
  match buf_map_ st !! t_addr tensor with
  | None => Err CheckFailed
  | Some bi => if released bi then Err CheckFailed else Ok bi
  end.

(** One round of the loop of lines 580-588. *)
Definition scale_load_index (bi : BufferInfo) (rel_index : list PrimExpr) (i : nat)
    (st : State) : Res State :=
  sh <- at_index (shape bi) i ;
  let scaling_factor :=
    match as_IntImm sh with
    | Some v => to_unsigned v
    | None => 16
    end in
  index <- at_index rel_index i ;
  Ok (index_visitor scaling_factor (Simplify index) st).

(** The [ProducerLoadNode] case of [VisitExpr_] after the indices have been
    visited. *)
Definition visit_load (tensor : Tensor) (indices : list PrimExpr) (st : State)
  : Res State :=
  bi <- find_buffer tensor st ;
  if bool_decide (is_Some (matrix_abc_ st !! t_op_name tensor))
     && negb (last_two_div16 (shape bi))
  then Ok (with_invalid_ st true)
  else
    let st1 := with_strides_ st (insert_new (t_name_hint tensor) (strides_of bi)
                                            (strides_ st)) in
    if negb (bool_decide (name bi ∈ frag_reg_ st1)) then Ok st1
    else
      rel_index <- RelIndex bi indices ;
      if (length indices <? 2)%nat then Ok (with_invalid_ st1 true)
      else
        st2 <- scale_load_index bi rel_index (length indices - 1) st1 ;
        scale_load_index bi rel_index (length indices - 2) st2.

(** One round of the loop of lines 479-491: [None] when the dimension is
    not constant, otherwise the tile size pushed and the analyser. *)
Definition scale_store_index (bi : BufferInfo) (rel_index : list PrimExpr) (i : nat)
    (st : State) : Res (option (Z * State)) :=
  sh <- at_index (shape bi) i ;
  match as_IntImm sh with
  | None => Ok None
  | Some v =>
      index <- at_index rel_index i ;
      Ok (Some (to_int v, index_visitor (to_unsigned v) (Simplify index) st))
  end.

(** [ret &= assign_or_check_(&thread_tile_.m, src)] and the same for [n]
    and [k]: the call is made whatever [ret] is. *)
Definition assign_m (src : Z) (acc : bool * Tile) : bool * Tile :=
  let '(ret, t) := acc in
  let '(r, v) := assign_or_check_ (m t) src in (ret && r, mkTile v (n t) (k t)).
Definition assign_n (src : Z) (acc : bool * Tile) : bool * Tile :=
  let '(ret, t) := acc in
  let '(r, v) := assign_or_check_ (n t) src in (ret && r, mkTile (m t) v (k t)).
Definition assign_k (src : Z) (acc : bool * Tile) : bool * Tile :=
  let '(ret, t) := acc in
  let '(r, v) := assign_or_check_ (k t) src in (ret && r, mkTile (m t) (n t) v).

(** Lines 496-517: the five tests in their order; [tile_size0] is the extent
    of the last dimension, [tile_size1] of the one before. *)
Definition assign_tile (role major : string) (tile_size0 tile_size1 : Z)
    (t : Tile) : bool * Tile :=
  let a := String.eqb role "matrix_a" in
  let b := String.eqb role "matrix_b" in
  let col := String.eqb major "col_major" in
  let row := String.eqb major "row_major" in
  let acc0 := (true, t) in
  let acc1 := if a && col then assign_k tile_size1 (assign_m tile_size0 acc0) else acc0 in
  let acc2 := if a && row then assign_m tile_size1 (assign_k tile_size0 acc1) else acc1 in
  let acc3 := if b && col then assign_n tile_size1 (assign_k tile_size0 acc2) else acc2 in
  let acc4 := if b && row then assign_k tile_size1 (assign_n tile_size0 acc3) else acc3 in
  if String.eqb role "accumulator"
  then assign_n tile_size1 (assign_m tile_size0 acc4)
  else acc4.

(** Lines 469-523: the store writes a fragment. *)
Definition visit_fragment_store (a : addr) (producer : Tensor)
    (indices : list PrimExpr) (bi : BufferInfo) (st : State)
  : Res (bool * State) :=
  let dst := ProducerLoad fresh_addr producer indices in
  let st1 := with_frag_load_ st (insert_new a dst (frag_load_ st)) in
  rel_index <- RelIndex bi indices ;
  if (length indices <? 2)%nat then Ok (false, with_invalid_ st1 true)
  else
    r1 <- scale_store_index bi rel_index (length indices - 1) st1 ;
    match r1 with
    | None => Ok (false, with_invalid_ st1 true)
    | Some (tile_size0, st2) =>
        r2 <- scale_store_index bi rel_index (length indices - 2) st2 ;
        match r2 with
        | None => Ok (false, with_invalid_ st2 true)
        | Some (tile_size1, st3) =>
            let input_name := simplify_name (name bi) in
            match matrix_abc_ st3 !! input_name, matrix_major_ st3 !! input_name with
            | Some role, Some major =>
                let '(ret, tile) :=
                  assign_tile role major tile_size0 tile_size1 (thread_tile_ st3) in
                let st4 := with_thread_tile_ st3 tile in
                if negb ret then Ok (false, with_invalid_ st4 true) else Ok (true, st4)
            | _, _ => Ok (true, st3)
            end
        end
    end.

(** The [ProducerStoreNode] case of [VisitStmt_] after the indices and the value
    have been visited.  The boolean of [visit_fragment_store] is [false]
    when the method returned early. *)
Definition visit_store (a : addr) (producer : Tensor) (value : PrimExpr)
    (indices : list PrimExpr) (st : State) : Res State :=
  bi <- find_buffer producer st ;
  if bool_decide (is_Some (matrix_abc_ st !! t_name_hint producer))
     && negb (last_two_div16 (shape bi))
  then Ok (with_invalid_ st true)
  else
    let st1 := with_strides_ st (insert_new (t_name_hint producer) (strides_of bi)
                                            (strides_ st)) in
    '(go_on, st2) <-
      (if bool_decide (name bi ∈ frag_reg_ st1)
       then visit_fragment_store a producer indices bi st1
       else Ok (true, st1)) ;
    if negb go_on then Ok st2
    else
      match as_ProducerLoad value with
      | Some (_, value_producer, _) =>
          if bool_decide (t_name_hint value_producer ∈ frag_reg_ st2)
          then Ok (with_frag_store_ st2
                     (insert_new a (ProducerLoad fresh_addr producer indices)
                                 (frag_store_ st2)))
          else Ok st2
      | None => Ok st2
      end.

(** The loop of lines 612-622, from the last dimension to the first. *)
Fixpoint aligned_rstrides (avec : list DimAlignInfo) (rshape : list (nat * PrimExpr))
    (stride : PrimExpr) : list PrimExpr :=
  match rshape with
  | [] => []
  | (dim, extent) :: rest =>
      let stride1 :=
        match nth_error avec dim with
        | Some info =>
            if negb (align_factor info =? 0) then
              let factor := make_const (dtype_of stride) (align_factor info) in
              let offset := make_const (dtype_of stride) (align_offset info) in
              Simplify
                (op_add stride
                   (indexmod (op_sub (op_add factor offset) (indexmod stride factor))
                             factor))
            else stride
        | None => stride
        end in
      stride1 :: aligned_rstrides avec rest (op_mul stride1 extent)
  end.

(** The buffer entry a realize creates (lines 598-629). *)
Definition realize_info (key : Tensor) (op_bounds : Region) (st : State) : BufferInfo :=
  let shape := map r_extent op_bounds in
  let strides :=
    match dim_align_ st !! t_addr key, shape with
    | Some avec, first :: _ =>
        rev (aligned_rstrides avec (rev (imap (fun i e => (i, e)) shape))
                              (make_const (dtype_of first) 1))
    | _, _ => []
    end in
  mkBufferInfo (t_name_hint key) (t_dtype key) strides shape op_bounds false false.

Definition release (key : Tensor) (st : State) : State :=
  let bi :=
    match buf_map_ st !! t_addr key with
    | Some bi => bi
    | None => mkBufferInfo "" (mkDataType kHandle 0 0) [] [] [] false false
    end in
  with_buf_map_ st
    (<[t_addr key := mkBufferInfo (name bi) (dtype bi) (strides bi) (shape bi)
                                  (bounds bi) (external bi) true]> (buf_map_ st)).

(** The [buffer_dim_align] case of lines 415-425. *)
Definition record_dim_align (node : ObjectRef) (value : PrimExpr) (st : State)
  : Res State :=
  match node, value with
  | RefTensor tensor, Call _ _ op args =>
      if negb (String.eqb op builtin.tvm_tuple) then Err CheckFailed
      else
        let vinfo := default [] (dim_align_ st !! t_addr tensor) in
        a0 <- at_index args 0 ;
        dim <- deref (as_IntImm a0) ;
        if dim <? 0 then Err Undefined
        else
          let d := Z.to_nat dim in
          let vinfo1 :=
            if (length vinfo <=? d)%nat
            then vinfo ++ repeat (mkDimAlignInfo 0 0) (d + 1 - length vinfo)
            else vinfo in
          a1 <- at_index args 1 ;
          factor <- deref (as_IntImm a1) ;
          a2 <- at_index args 2 ;
          offset <- deref (as_IntImm a2) ;
          Ok (with_dim_align_ st
                (<[t_addr tensor :=
                     <[d := mkDimAlignInfo (to_int factor) (to_int offset)]> vinfo1]>
                   (dim_align_ st)))
  | _, _ => Err CheckFailed
  end.

(** The [thread_extent] case of lines 406-410. *)
Definition record_thread_extent (node : ObjectRef) (value : PrimExpr) (st : State)
  : Res State :=
  match as_IntImm value with
  | None => Ok st
  | Some v =>
      match node with
      | RefIterVar iv =>
          Ok (with_thread_extent_ st
                (insert_new (name_hint (iv_var iv)) (to_int v) (thread_extent_ st)))
      | _ => Err Undefined
      end
  end.

(** The traversal of expressions: [BufferAnalyser] derives from
    [StmtExprVisitor] and overrides the producer load. *)
Fixpoint VisitExpr (e : PrimExpr) (st : State) : Res State :=
  match e with
  | Var _ | IntImm _ _ | FloatImm _ _ | StringImm _ => Ok st
  | Cast _ value => VisitExpr value st
  | Add a b | Sub a b | Mul a b | Div a b =>
      st' <- VisitExpr a st ; VisitExpr b st'
  | ProducerLoad _ producer indices =>
      st' <- foldM VisitExpr indices st ;
      visit_load producer indices st'
  | Call _ _ _ args => foldM VisitExpr args st
  | Reduce _ _ source axis condition =>
      st1 <- foldM (fun ax s =>
                      let '(_, (mn, ex)) := ax in
                      s' <- VisitExpr mn s ; VisitExpr ex s')
                   axis st ;
      st2 <- foldM VisitExpr source st1 ;
      VisitExpr condition st2
  end.

(** The traversal of statements. *)
Fixpoint VisitStmt (s : Stmt) (st : State) : Res State :=
  match s with
  | AttrStmt node attr_key value body =>
      if String.eqb attr_key attr.thread_extent then
        st1 <- record_thread_extent node value st ;
        st2 <- VisitExpr value st1 ;
        VisitStmt body st2
      else if String.eqb attr_key attr.realize_scope then
        scope <- deref (as_StringImm value) ;
        VisitStmt body (with_storage_scope_ st (<[ref_addr node := scope]> (storage_scope_ st)))
      else if String.eqb attr_key attr.buffer_dim_align then
        st1 <- record_dim_align node value st ;
        VisitStmt body st1
      else
        st1 <- VisitExpr value st ;
        VisitStmt body st1
  | ProducerStore a producer value indices =>
      st1 <- foldM VisitExpr indices st ;
      st2 <- VisitExpr value st1 ;
      visit_store a producer value indices st2
  | ProducerRealize key op_bounds _ body =>
      match buf_map_ st !! t_addr key with
      | Some bi =>
          if negb (external bi) then Err CheckFailed else VisitStmt body st
      | None =>
          st1 <- VisitStmt body
                   (with_buf_map_ st (<[t_addr key := realize_info key op_bounds st]>
                                        (buf_map_ st))) ;
          Ok (release key st1)
      end
  | For _ min extent _ body _ _ =>
      st1 <- VisitExpr min st ;
      st2 <- VisitExpr extent st1 ;
      VisitStmt body st2
  | SeqStmt seq => foldM VisitStmt seq st
  | IfThenElse condition then_case else_case =>
      st1 <- VisitExpr condition st ;
      st2 <- VisitStmt then_case st1 ;
      match else_case with
      | Some e => VisitStmt e st2
      | None => Ok st2
      end
  | Evaluate value => VisitExpr value st
  end.

Definition run (extern_buffer : list (Tensor * Buffer))
    (schedule_analyser : ScheduleAnalyser.State) (mma_matcher : MMAMatcher.State)
    (s : Stmt) : Res State :=
  VisitStmt s (init extern_buffer schedule_analyser mma_matcher).

End WithArith.

End BufferAnalyser.

(** ** ThreadIdxMutator *)

(** The default expression mutator rebuilds a node from its mutated
    children (a reduction: the axes' ranges, the sources and the condition);
    the override replaces the two thread variables. *)
Fixpoint ThreadIdxMutator (warp_y : PrimExpr) (e : PrimExpr) : PrimExpr :=
  match e with
  | Var v =>
      if String.eqb (name_hint v) "threadIdx.x" then IntImm (DT.Int 32) 0
      else if String.eqb (name_hint v) "threadIdx.y" then Mul (Div (Var v) warp_y) warp_y
      else Var v
  | IntImm _ _ | FloatImm _ _ | StringImm _ => e
  | Cast dt value => Cast dt (ThreadIdxMutator warp_y value)
  | Add a b => Add (ThreadIdxMutator warp_y a) (ThreadIdxMutator warp_y b)
  | Sub a b => Sub (ThreadIdxMutator warp_y a) (ThreadIdxMutator warp_y b)
  | Mul a b => Mul (ThreadIdxMutator warp_y a) (ThreadIdxMutator warp_y b)
  | Div a b => Div (ThreadIdxMutator warp_y a) (ThreadIdxMutator warp_y b)
  | ProducerLoad a producer indices =>
      ProducerLoad a producer (map (ThreadIdxMutator warp_y) indices)
  | Call a dt op args => Call a dt op (map (ThreadIdxMutator warp_y) args)
  | Reduce dt result source axis condition =>
      Reduce dt result (map (ThreadIdxMutator warp_y) source)
             (map (fun ax => let '(v, (mn, ex)) := ax in
                             (v, (ThreadIdxMutator warp_y mn, ThreadIdxMutator warp_y ex)))
                  axis)
             (ThreadIdxMutator warp_y condition)
  end.

(** ** TensorCoreIRMutator *)

Module TensorCoreIRMutator.

(** The tables copied by the constructor; they are not written afterwards. *)
Record Tables := mkTables {
  matrix_abc_ : gmap string string;
  matrix_major_ : gmap string string;
  mma_sync_ : list (addr * list PrimExpr);
  strides_ : gmap string (list PrimExpr);
  frag_reg_ : gset string;
  loop_scaling_ : gmap addr Z;
  frag_load_ : gmap addr PrimExpr;
  frag_store_ : gmap addr PrimExpr;
  warp_tile_ : Tile;
  warp_threads_y_ : Z
}.

Definition init (schedule_analyser : ScheduleAnalyser.State)
    (buffer_analyser : BufferAnalyser.State) : Tables :=
  mkTables
    (ScheduleAnalyser.matrix_abc_ schedule_analyser)
    (ScheduleAnalyser.matrix_major_ schedule_analyser)
    (ScheduleAnalyser.mma_sync_ schedule_analyser)
    (BufferAnalyser.strides_ buffer_analyser)
    (BufferAnalyser.frag_reg_ buffer_analyser)
    (BufferAnalyser.loop_scaling_ buffer_analyser)
    (BufferAnalyser.frag_load_ buffer_analyser)
    (BufferAnalyser.frag_store_ buffer_analyser)
    (BufferAnalyser.warp_tile_ buffer_analyser)
    (BufferAnalyser.warp_threads_y_ buffer_analyser).

(** The conversion of an [int] to a [PrimExpr]. *)
Definition of_int (v : Z) : PrimExpr := IntImm (DT.Int 32) v.

Section WithArith.

Variable Simplify : PrimExpr -> PrimExpr.
Variable make_const : DataType -> Z -> PrimExpr.
Variable tbl : Tables.

(** [get_tile_size_]: five tests in sequence on the role and the layout of
    [name], each overwriting the two sizes. *)
Definition get_tile_size_ (name : string) : Res (PrimExpr * PrimExpr) :=
  match matrix_abc_ tbl !! name, matrix_major_ tbl !! name with
  | Some role, Some major =>
      let c := make_const (DT.Int 32) in
      let w := warp_tile_ tbl in
      let s0 := (c 16, c 16) in
      let s1 := if String.eqb role "matrix_a" && String.eqb major "col_major"
                then (c (k w), c (m w)) else s0 in
      let s2 := if String.eqb role "matrix_a" && String.eqb major "row_major"
                then (c (m w), c (k w)) else s1 in
      let s3 := if String.eqb role "matrix_b" && String.eqb major "row_major"
                then (c (k w), c (n w)) else s2 in
      let s4 := if String.eqb role "matrix_b" && String.eqb major "col_major"
                then (c (n w), c (k w)) else s3 in
      let s5 := if String.eqb role "matrix_c"
                then (c (n w), c (m w)) else s4 in
      Ok s5
  | _, _ => Err CheckFailed
  end.

(** [elem_offset] of lines 1040-1044. *)
Definition elem_offset_of (strides indices min_bound : list PrimExpr) : PrimExpr :=
  fold_left (fun acc x => let '(s, (i, mn)) := x in Add acc (Mul s (Sub i mn)))
            (zip strides (zip indices min_bound))
            (IntImm (DT.Int 32) 0).

(** [add_buffer_bind_scope_]: [pload] may be null, [call_back] builds the
    statement under the attribute from the buffer descriptor. *)
Definition add_buffer_bind_scope_ (bounds_ : gmap addr Region)
    (pload : option (addr * Tensor * list PrimExpr))
    (call_back : Buffer -> Res Stmt) : Res Stmt :=
  '(_, tensor, indices) <- deref pload ;
  match bounds_ !! t_addr tensor with
  | None => Err CheckFailed
  | Some region =>
      let min_bound := map r_min region in
      if (length region <? 2)%nat then Err CheckFailed
      else
        tile_size <- get_tile_size_ (simplify_name (t_op_name tensor)) ;
        let shape :=
          map r_extent (take (length region - 2) region)
          ++ [fst tile_size; snd tile_size] in
        let strides := compact_strides (make_const (DT.Int 32) 1) shape in
        if negb (length indices =? length min_bound)%nat then Err CheckFailed
        else
          match matrix_abc_ tbl !! simplify_name (t_op_name tensor) with
          | None => Err CheckFailed
          | Some role =>
              let buffer :=
                mkBuffer (mkVar fresh_addr (t_op_name tensor) DT.Handle)
                         (t_op_name tensor) (String.append "wmma." role)
                         (t_dtype tensor) strides shape 1
                         (Simplify (elem_offset_of strides indices min_bound)) 1 in
              let args := concat (zip_with (fun i sh => [i; sh]) indices shape) in
              body <- call_back buffer ;
              Ok (AttrStmt (RefBind fresh_addr buffer tensor) "buffer_bind_scope"
                           (Call fresh_addr DT.Handle builtin.tvm_tuple args) body)
          end
  end.

Definition load_dtype (pload : option (addr * Tensor * list PrimExpr)) : Res DataType :=
  '(_, tensor, _) <- deref pload ; Ok (t_dtype tensor).

Definition intrinsic (op : string) (args : list PrimExpr) : Stmt :=
  Evaluate (Call fresh_addr DT.Handle op args).

(** The rewrite of a store recorded in [mma_sync_] (lines 833-871). *)
Definition rewrite_mma (bounds_ : gmap addr Region) (operands : list PrimExpr)
  : Res Stmt :=
  a <- at_index operands 0 ;
  b <- at_index operands 1 ;
  c <- at_index operands 2 ;
  let ca := as_ProducerLoad a in
  let cb := as_ProducerLoad b in
  let cc := as_ProducerLoad c in
  add_buffer_bind_scope_ bounds_ ca (fun buffer_a =>
    add_buffer_bind_scope_ bounds_ cb (fun buffer_b =>
      add_buffer_bind_scope_ bounds_ cc (fun buffer =>
        da <- load_dtype ca ;
        db <- load_dtype cb ;
        let args :=
          [Var (b_data buffer); b_elem_offset buffer;
           Var (b_data buffer_a); b_elem_offset buffer_a;
           Var (b_data buffer_b); b_elem_offset buffer_b;
           Var (b_data buffer); b_elem_offset buffer] in
        if DT.eqb da (DT.Int 1) && DT.eqb db (DT.Int 1)
        then Ok (intrinsic builtin.tvm_bmma_sync args)
        else Ok (intrinsic builtin.tvm_mma_sync args)))).

Definition tile_args (buffer : Buffer) : list PrimExpr :=
  [Var (b_data buffer); of_int (m (warp_tile_ tbl)); of_int (n (warp_tile_ tbl));
   of_int (k (warp_tile_ tbl)); b_elem_offset buffer].

(** [strides[strides.size() - 2]] of the table entry of [name]. *)
Definition row_stride (name : string) : Res PrimExpr :=
  match strides_ tbl !! name with
  | None => Err CheckFailed
  | Some strides =>
      if (length strides <? 2)%nat then Err CheckFailed
      else at_index strides (length strides - 2)
  end.

Definition warp_y : PrimExpr := IntImm (DT.Int 32) (warp_threads_y_ tbl).

(** The pointer argument: [call_extern("&", e)] of the unified address. *)
Definition address_of (dt : DataType) (e : PrimExpr) : PrimExpr :=
  Call fresh_addr dt builtin.call_extern [StringImm "&"; ThreadIdxMutator warp_y e].

(** The rewrite of a store recorded in [frag_load_] (lines 874-926). *)
Definition rewrite_frag_load (bounds_ : gmap addr Region) (op_value dst : PrimExpr)
  : Res Stmt :=
  let pload := as_ProducerLoad dst in
  match op_value with
  | FloatImm _ _ | IntImm _ _ =>
      add_buffer_bind_scope_ bounds_ pload (fun buffer =>
        Ok (intrinsic builtin.tvm_fill_fragment (tile_args buffer ++ [op_value])))
  | ProducerLoad _ value_producer _ =>
      stride <- row_stride (t_name_hint value_producer) ;
      let src := address_of (t_dtype value_producer) op_value in
      '(_, tensor, _) <- deref pload ;
      match matrix_major_ tbl !! simplify_name (t_name_hint tensor) with
      | None => Err CheckFailed
      | Some major =>
          if String.eqb major "col_major" || String.eqb major "row_major" then
            add_buffer_bind_scope_ bounds_ pload (fun buffer =>
              Ok (intrinsic builtin.tvm_load_matrix_sync
                            (tile_args buffer ++ [src; stride; StringImm major])))
          else Err CheckFailed
      end
  | _ => Err CheckFailed
  end.

(** The rewrite of a store recorded in [frag_store_] (lines 929-953). *)
Definition rewrite_frag_store (bounds_ : gmap addr Region) (producer : Tensor)
    (op_value dst : PrimExpr) : Res Stmt :=
  stride <- row_stride (t_name_hint producer) ;
  let dst' := address_of DT.Handle dst in
  add_buffer_bind_scope_ bounds_ (as_ProducerLoad op_value) (fun buffer =>
    Ok (intrinsic builtin.tvm_store_matrix_sync
                  (tile_args buffer ++ [dst'; stride; StringImm "col_major"]))).

(** The [ProducerStoreNode] case. *)
Definition rewrite_store (bounds_ : gmap addr Region) (a : addr) (producer : Tensor)
    (value : PrimExpr) (indices : list PrimExpr) : Res Stmt :=
  match MMAMatcher.alist_find a (mma_sync_ tbl) with
  | Some operands => rewrite_mma bounds_ operands
  | None =>
      match frag_load_ tbl !! a with
      | Some dst => rewrite_frag_load bounds_ value dst
      | None =>
          match frag_store_ tbl !! a with
          | Some dst => rewrite_frag_store bounds_ producer value dst
          | None => Ok (ProducerStore a producer value indices)
          end
      end
  end.

(** The new extent of a loop whose variable is in [loop_scaling_]
    (lines 964-970). *)
Definition scaled_extent (scale : Z) (extent : PrimExpr) : Res PrimExpr :=
  let scale_factor := to_int scale in
  scaled_extent_value <-
    match as_IntImm extent with
    | Some ori_extent => int_div (to_int ori_extent) scale_factor
    | None => Ok 1
    end ;
  Ok (make_const (dtype_of extent) scaled_extent_value).

(** The new bounds of a fragment's realize (lines 794-804). *)
Definition shrink_bounds (name_hint : string) (bounds : Region) : Res Region :=
  new_extents <- get_tile_size_ (simplify_name name_hint) ;
  if (length bounds <? 2)%nat then Err CheckFailed
  else
    r0 <- at_index bounds (length bounds - 2) ;
    r1 <- at_index bounds (length bounds - 1) ;
    Ok (take (length bounds - 2) bounds
        ++ [mkRange (r_min r0) (fst new_extents);
            mkRange (r_min r1) (snd new_extents)]).

(** The traversal.  The class overrides no expression case, so the default
    expression mutator hands every expression back as it is; the only state
    the traversal writes is [bounds_]. *)
Fixpoint VisitStmt (s : Stmt) (bounds_ : gmap addr Region)
  : Res (Stmt * gmap addr Region) :=
  match s with
  | ProducerRealize key bounds condition body =>
      '(body1, b1) <- VisitStmt body (<[t_addr key := bounds]> bounds_) ;
      if negb (bool_decide (t_name_hint key ∈ frag_reg_ tbl))
      then Ok (ProducerRealize key bounds condition body1, b1)
      else
        new_bounds <- shrink_bounds (t_name_hint key) bounds ;
        Ok (ProducerRealize key new_bounds condition body1, b1)
  | AttrStmt node attr_key value body =>
      '(body1, b1) <- VisitStmt body bounds_ ;
      let stmt := AttrStmt node attr_key value body1 in
      if String.eqb attr_key attr.realize_scope then
        match node with
        | RefOperation _ name =>
            if negb (bool_decide (name ∈ frag_reg_ tbl)) then Ok (stmt, b1)
            else
              match matrix_abc_ tbl !! simplify_name name with
              | None => Err CheckFailed
              | Some role =>
                  '(body2, b2) <- VisitStmt body b1 ;
                  Ok (AttrStmt node attr_key (StringImm (String.append "wmma." role)) body2,
                      b2)
              end
        | _ => Ok (stmt, b1)
        end
      else Ok (stmt, b1)
  | ProducerStore a producer value indices =>
      stmt <- rewrite_store bounds_ a producer value indices ;
      Ok (stmt, bounds_)
  | For loop_var min extent kind body thread_binding annotations =>
      '(body1, b1) <- VisitStmt body bounds_ ;
      match loop_scaling_ tbl !! v_addr loop_var with
      | Some scale =>
          new_extent <- scaled_extent scale extent ;
          Ok (For loop_var min new_extent kind body1 thread_binding annotations, b1)
      | None => Ok (For loop_var min extent kind body1 thread_binding annotations, b1)
      end
  | SeqStmt seq =>
      '(seq1, b1) <-
        (fix go (l : list Stmt) (b : gmap addr Region)
           : Res (list Stmt * gmap addr Region) :=
           match l with
           | [] => Ok ([], b)
           | x :: l' =>
               '(x1, b1) <- VisitStmt x b ;
               '(l1, b2) <- go l' b1 ;
               Ok (x1 :: l1, b2)
           end) seq bounds_ ;
      Ok (SeqStmt seq1, b1)
  | IfThenElse condition then_case else_case =>
      '(then1, b1) <- VisitStmt then_case bounds_ ;
      match else_case with
      | Some e => '(e1, b2) <- VisitStmt e b1 ; Ok (IfThenElse condition then1 (Some e1), b2)
      | None => Ok (IfThenElse condition then1 None, b1)
      end
  | Evaluate value => Ok (Evaluate value, bounds_)
  end.

Definition run (s : Stmt) : Res Stmt :=
  '(s', _) <- VisitStmt s ∅ ; Ok s'.

End WithArith.

End TensorCoreIRMutator.

(** ** The driver *)

(** What the driver reads from its environment: the kind name of the current
    target when one is defined, and whether a CUDA device API is
    registered. *)
Record Env := mkEnv { target_kind : option string; cuda_api : bool }.

Section Driver.

Variable Simplify : PrimExpr -> PrimExpr.
Variable make_const : DataType -> Z -> PrimExpr.
Variables op_add op_sub op_mul indexmod : PrimExpr -> PrimExpr -> PrimExpr.

(** Lines 1109-1115: the tile analysis, the qualification and the rewrite. *)
Definition rewrite_qualified (stmt : Stmt) (extern_buffer : list (Tensor * Buffer))
    (schedule_analyser : ScheduleAnalyser.State) (mma_matcher : MMAMatcher.State)
  : Res Stmt :=
  buffer_analyser <-
    BufferAnalyser.run Simplify make_const op_add op_sub op_mul indexmod
                       extern_buffer schedule_analyser mma_matcher stmt ;
  '(qualified, buffer_analyser') <- BufferAnalyser.QualifiedForTensorCore buffer_analyser ;
  if negb qualified then Ok stmt
  else
    TensorCoreIRMutator.run Simplify make_const
      (TensorCoreIRMutator.init schedule_analyser buffer_analyser') stmt.

(** Lines 1098-1107: the matcher and the role analysis. *)
Definition rewrite_matched (stmt : Stmt) (schedule : Schedule)
    (extern_buffer : list (Tensor * Buffer)) : Res Stmt :=
  mma_matcher <- MMAMatcher.run extern_buffer stmt ;
  if negb (MMAMatcher.Matched mma_matcher) then Ok stmt
  else
    '(identified, schedule_analyser) <-
      ScheduleAnalyser.MatrixIdentify schedule (ScheduleAnalyser.init mma_matcher) ;
    if negb identified then Ok stmt
    else rewrite_qualified stmt extern_buffer schedule_analyser mma_matcher.

Definition SchedulePostProcRewriteForTensorCore (env : Env) (stmt : Stmt)
    (schedule : Schedule) (extern_buffer : list (Tensor * Buffer)) : Res Stmt :=
  match target_kind env with
  | Some kind_name =>
      if negb (String.eqb kind_name "cuda") then Ok stmt
      else if negb (cuda_api env) then Ok stmt
      else rewrite_matched stmt schedule extern_buffer
  | None =>
      if negb (cuda_api env) then Ok stmt
      else rewrite_matched stmt schedule extern_buffer
  end.

End Driver.

(** * Properties *)

(** ** Induction over the IR *)

Section StmtInduction.

Variable P : Stmt -> Prop.
Hypothesis HAttr : forall node attr_key value body,
  P body -> P (AttrStmt node attr_key value body).
Hypothesis HStore : forall a producer value indices,
  P (ProducerStore a producer value indices).
Hypothesis HRealize : forall producer bounds condition body,
  P body -> P (ProducerRealize producer bounds condition body).
Hypothesis HFor : forall loop_var min extent kind body thread_binding annotations,
  P body -> P (For loop_var min extent kind body thread_binding annotations).
Hypothesis HSeq : forall seq, Forall P seq -> P (SeqStmt seq).
Hypothesis HIf : forall condition then_case else_case,
  P then_case -> match else_case with Some e => P e | None => True end ->
  P (IfThenElse condition then_case else_case).
Hypothesis HEvaluate : forall value, P (Evaluate value).

Fixpoint Stmt_nested_ind (s : Stmt) : P s :=
  match s with
  | AttrStmt node attr_key value body =>
      HAttr node attr_key value body (Stmt_nested_ind body)
  | ProducerStore a producer value indices => HStore a producer value indices
  | ProducerRealize producer bounds condition body =>
      HRealize producer bounds condition body (Stmt_nested_ind body)
  | For loop_var min extent kind body thread_binding annotations =>
      HFor loop_var min extent kind body thread_binding annotations
           (Stmt_nested_ind body)
  | SeqStmt seq =>
      HSeq seq ((fix all (l : list Stmt) : Forall P l :=
                   match l with
                   | [] => @List.Forall_nil _ P
                   | x :: l' => @List.Forall_cons _ P x l' (Stmt_nested_ind x) (all l')
                   end) seq)
  | IfThenElse condition then_case else_case =>
      HIf condition then_case else_case (Stmt_nested_ind then_case)
          (match else_case as o return match o with Some e => P e | None => True end with
           | Some e => Stmt_nested_ind e
           | None => I
           end)
  | Evaluate value => HEvaluate value
  end.

End StmtInduction.

Section ExprInduction.

Variable P : PrimExpr -> Prop.
Hypothesis HVar : forall v, P (Var v).
Hypothesis HIntImm : forall dt value, P (IntImm dt value).
Hypothesis HFloatImm : forall dt value, P (FloatImm dt value).
Hypothesis HStringImm : forall value, P (StringImm value).
Hypothesis HCast : forall dt value, P value -> P (Cast dt value).
Hypothesis HAdd : forall a b, P a -> P b -> P (Add a b).
Hypothesis HSub : forall a b, P a -> P b -> P (Sub a b).
Hypothesis HMul : forall a b, P a -> P b -> P (Mul a b).
Hypothesis HDiv : forall a b, P a -> P b -> P (Div a b).
Hypothesis HLoad : forall a producer indices,
  Forall P indices -> P (ProducerLoad a producer indices).
Hypothesis HCall : forall a dt op args, Forall P args -> P (Call a dt op args).
Hypothesis HReduce : forall dt result source axis condition,
  Forall P source -> Forall (fun ax => P (fst (snd ax)) /\ P (snd (snd ax))) axis ->
  P condition -> P (Reduce dt result source axis condition).

Fixpoint PrimExpr_nested_ind (e : PrimExpr) : P e :=
  let all := fix all (l : list PrimExpr) : Forall P l :=
    match l with
    | [] => @List.Forall_nil _ P
    | x :: l' => @List.Forall_cons _ P x l' (PrimExpr_nested_ind x) (all l')
    end in
  match e with
  | Var v => HVar v
  | IntImm dt value => HIntImm dt value
  | FloatImm dt value => HFloatImm dt value
  | StringImm value => HStringImm value
  | Cast dt value => HCast dt value (PrimExpr_nested_ind value)
  | Add a b => HAdd a b (PrimExpr_nested_ind a) (PrimExpr_nested_ind b)
  | Sub a b => HSub a b (PrimExpr_nested_ind a) (PrimExpr_nested_ind b)
  | Mul a b => HMul a b (PrimExpr_nested_ind a) (PrimExpr_nested_ind b)
  | Div a b => HDiv a b (PrimExpr_nested_ind a) (PrimExpr_nested_ind b)
  | ProducerLoad a producer indices => HLoad a producer indices (all indices)
  | Call a dt op args => HCall a dt op args (all args)
  | Reduce dt result source axis condition =>
      HReduce dt result source axis condition (all source)
        ((fix axes (l : list (VarT * (PrimExpr * PrimExpr)))
            : Forall (fun ax => P (fst (snd ax)) /\ P (snd (snd ax))) l :=
            match l with
            | [] => @List.Forall_nil _ _
            | (v, (mn, ex)) :: l' =>
                @List.Forall_cons _ _ (v, (mn, ex)) l'
                  (conj (PrimExpr_nested_ind mn) (PrimExpr_nested_ind ex)) (axes l')
            end) axis)
        (PrimExpr_nested_ind condition)
  end.

End ExprInduction.

(** ** The outcome monad *)

Lemma bind_Ok {A B} (m : Res A) (k : A -> Res B) (b : B) :
  bind m k = Ok b -> exists a, m = Ok a /\ k a = Ok b.
Proof. destruct m as [a|f]; simpl; intros H; [eauto | discriminate]. Qed.

Lemma foldM_invariant {A S} (f : A -> S -> Res S) (Inv : S -> Prop) (l : list A) :
  Forall (fun x => forall s s', Inv s -> f x s = Ok s' -> Inv s') l ->
  forall s s', Inv s -> foldM f l s = Ok s' -> Inv s'.
Proof.
  induction 1 as [|x l Hx _ IH]; simpl; intros s s' Hs Hf.
  - injection Hf as <-. exact Hs.
  - apply bind_Ok in Hf as (s1 & H1 & H2). eauto.
Qed.

Ltac inv_bind :=
  repeat match goal with
  | H : bind _ _ = Ok _ |- _ =>
      let a := fresh "a" in
      let Ha := fresh "Ha" in
      apply bind_Ok in H as (a & Ha & H)
  | H : deref _ = Ok _ |- _ => unfold deref in H
  end.

(** ** MMAMatcher: what a match records *)

(** Every record of [mma_sync_] starts with an expression that is no call
    node, and a matcher that has matched holds a record. *)
Definition records_loads (l : list (addr * list PrimExpr)) : Prop :=
  Forall (fun r => forall o, nth_error (snd r) 0 = Some o -> as_Call o = None) l.

Definition matcher_inv (st : MMAMatcher.State) : Prop :=
  (MMAMatcher.matched_ st = true -> MMAMatcher.mma_sync_ st <> [])
  /\ records_loads (MMAMatcher.mma_sync_ st).

Lemma alist_insert_new_nonempty {V} (key : addr) (v : V) l :
  MMAMatcher.alist_insert_new key v l <> [].
Proof.
  unfold MMAMatcher.alist_insert_new.
  destruct (MMAMatcher.alist_find key l) eqn:E.
  - destruct l; [discriminate | discriminate].
  - destruct l; discriminate.
Qed.

Lemma alist_insert_new_Forall {V} (Q : addr * V -> Prop) key v l :
  Q (key, v) -> Forall Q l -> Forall Q (MMAMatcher.alist_insert_new key v l).
Proof.
  intros Hq Hl. unfold MMAMatcher.alist_insert_new.
  destruct (MMAMatcher.alist_find key l); [exact Hl |].
  apply Forall_app. split; [exact Hl | constructor; [exact Hq | constructor]].
Qed.

Lemma match_factors_effect op_addr add_a mul_a mul_b buffer_c st r st' :
  MMAMatcher.match_factors op_addr add_a mul_a mul_b buffer_c st = Ok (r, st') ->
  MMAMatcher.matched_ st' = MMAMatcher.matched_ st
  /\ MMAMatcher.tensor_core_on_ st' = MMAMatcher.tensor_core_on_ st
  /\ MMAMatcher.buf_map_ st' = MMAMatcher.buf_map_ st
  /\ (r = false -> st' = st)
  /\ (r = true -> MMAMatcher.mma_sync_ st' <> [])
  /\ (records_loads (MMAMatcher.mma_sync_ st) ->
      records_loads (MMAMatcher.mma_sync_ st')).
Proof.
  unfold MMAMatcher.match_factors. intros H. inv_bind.
  repeat (case_match; simplify_eq; inv_bind);
    try (repeat split; (done || congruence)).
  repeat split; try done; simpl.
  - intros _. apply alist_insert_new_nonempty.
  - apply alist_insert_new_Forall. simpl. intros o Ho. simplify_eq.
    destruct o; simpl in *; try done.
Qed.

Lemma mma_sync_match_effect op_addr value bi st r st' :
  MMAMatcher.mma_sync_match_ op_addr value bi st = Ok (r, st') ->
  MMAMatcher.matched_ st' = MMAMatcher.matched_ st
  /\ MMAMatcher.tensor_core_on_ st' = MMAMatcher.tensor_core_on_ st
  /\ MMAMatcher.buf_map_ st' = MMAMatcher.buf_map_ st
  /\ (r = false -> st' = st)
  /\ (r = true -> MMAMatcher.mma_sync_ st' <> [])
  /\ (records_loads (MMAMatcher.mma_sync_ st) ->
      records_loads (MMAMatcher.mma_sync_ st')).
Proof.
  unfold MMAMatcher.mma_sync_match_. intros H.
  repeat (case_match; simplify_eq; inv_bind);
    try (repeat split; (done || congruence)).
  all: eapply match_factors_effect; eassumption.
Qed.

Lemma matcher_inv_VisitStmt s :
  forall st st', matcher_inv st -> MMAMatcher.VisitStmt s st = Ok st' -> matcher_inv st'.
Proof.
  induction s using Stmt_nested_ind; simpl; intros st st' Hinv Hv.
  - repeat case_match; simplify_eq; inv_bind;
      (eapply IHs; [| eassumption]; exact Hinv).
  - repeat (case_match; simplify_eq; inv_bind); try exact Hinv.
    + apply mma_sync_match_effect in Ha as (Hm & _ & _ & _ & Hne & Hl).
      destruct Hinv as [_ Hrec]. split; simpl; eauto.
    + apply mma_sync_match_effect in Ha as (Hm & _ & _ & Hsame & _ & _).
      rewrite (Hsame eq_refl). exact Hinv.
  - repeat (case_match; simplify_eq; inv_bind);
      try exact Hinv; try (eapply IHs; [| eassumption]; exact Hinv).
    + eapply IHs in Ha; [exact Ha | exact Hinv].
    + eapply IHs in Ha; [exact Ha | exact Hinv].
  - eapply IHs; eassumption.
  - revert st st' Hinv Hv. apply foldM_invariant. exact H.
  - inv_bind. destruct else_case; simplify_eq; eauto.
  - simplify_eq. exact Hinv.
Qed.

Lemma matcher_inv_init extern_buffer : matcher_inv (MMAMatcher.init extern_buffer).
Proof. split; [discriminate | constructor]. Qed.

Lemma matcher_inv_run extern_buffer s st :
  MMAMatcher.run extern_buffer s = Ok st -> matcher_inv st.
Proof. apply matcher_inv_VisitStmt, matcher_inv_init. Qed.






(** ** ScheduleAnalyser: the consistency loop *)

Arguments at_index : simpl never.

Lemma identify_arg_keeps r x y iter st st' :
  ScheduleAnalyser.identify_arg r x y iter st = Ok st' ->
  ScheduleAnalyser.mma_sync_ st' = ScheduleAnalyser.mma_sync_ st
  /\ ScheduleAnalyser.buf_name_ st' = ScheduleAnalyser.buf_name_ st.
Proof.
  unfold ScheduleAnalyser.identify_arg. destruct iter as [name args]. intros H.
  repeat (case_match; simplify_eq; inv_bind); simplify_eq; done.
Qed.

Lemma identify_output_keeps output st st' :
  ScheduleAnalyser.identify_output output st = Ok st' ->
  ScheduleAnalyser.mma_sync_ st' = ScheduleAnalyser.mma_sync_ st
  /\ ScheduleAnalyser.buf_name_ st' = ScheduleAnalyser.buf_name_ st.
Proof.
  unfold ScheduleAnalyser.identify_output. intros H.
  repeat (case_match; simplify_eq; inv_bind); simplify_eq; try done.
  simpl. revert Ha3.
  apply (foldM_invariant _ (fun s =>
    ScheduleAnalyser.mma_sync_ s = ScheduleAnalyser.mma_sync_ st
    /\ ScheduleAnalyser.buf_name_ s = ScheduleAnalyser.buf_name_ st)); [| done].
  apply Forall_forall. intros iter _ s s' [E1 E2] Hs.
  apply identify_arg_keeps in Hs as [-> ->]. done.
Qed.

Lemma identify_outputs_keep outs st st' :
  foldM ScheduleAnalyser.identify_output outs st = Ok st' ->
  ScheduleAnalyser.mma_sync_ st' = ScheduleAnalyser.mma_sync_ st
  /\ ScheduleAnalyser.buf_name_ st' = ScheduleAnalyser.buf_name_ st.
Proof.
  apply (foldM_invariant _ (fun s =>
    ScheduleAnalyser.mma_sync_ s = ScheduleAnalyser.mma_sync_ st
    /\ ScheduleAnalyser.buf_name_ s = ScheduleAnalyser.buf_name_ st)); [| done].
  apply Forall_forall. intros o _ s s' [E1 E2] Hs.
  apply identify_output_keeps in Hs as [-> ->]. done.
Qed.

(** The first record stops the loop: its first operand is no call node, so
    the lookup in [buf_name_] is made with a null pointer. *)
Lemma check_records_stops r todo done st :
  records_loads (r :: todo) ->
  exists f, ScheduleAnalyser.check_records (r :: todo) done st = Err f.
Proof.
  intros Hl. apply Forall_cons in Hl as [Hr _]. destruct r as [key operands].
  cbn [snd] in Hr. simpl.
  destruct (at_index operands 0) as [o0|f0] eqn:E0; simpl; [| eauto].
  destruct (at_index operands 1) as [o1|f1] eqn:E1; simpl; [| eauto].
  assert (as_Call o0 = None) as ->.
  { apply Hr. unfold at_index in E0. destruct (nth_error operands 0); congruence. }
  unfold ScheduleAnalyser.find_second. simpl. eauto.
Qed.

Lemma MatrixIdentify_after_match schedule mma_matcher :
  matcher_inv mma_matcher ->
  MMAMatcher.Matched mma_matcher = true ->
  exists f,
    ScheduleAnalyser.MatrixIdentify schedule (ScheduleAnalyser.init mma_matcher) = Err f.
Proof.
  intros [Hne Hl] Hm. unfold ScheduleAnalyser.MatrixIdentify.
  destruct (foldM _ _ _) as [st'|f] eqn:E; simpl; [| eauto].
  apply identify_outputs_keep in E as [E _]. simpl in E. rewrite E.
  specialize (Hne Hm).
  destruct (MMAMatcher.mma_sync_ mma_matcher) as [|r todo]; [done |].
  apply check_records_stops. exact Hl.
Qed.

(** ** The driver *)

Section DriverProperties.

Variable Simplify : PrimExpr -> PrimExpr.
Variable make_const : DataType -> Z -> PrimExpr.
Variables op_add op_sub op_mul indexmod : PrimExpr -> PrimExpr -> PrimExpr.

Abbreviation pass :=
  (SchedulePostProcRewriteForTensorCore Simplify make_const op_add op_sub op_mul indexmod).

(** After a match the role analysis does not return, so a statement that
    comes back from the stages is the one that went in. *)
Lemma rewrite_matched_returns_input stmt schedule extern_buffer out :
  rewrite_matched Simplify make_const op_add op_sub op_mul indexmod
                  stmt schedule extern_buffer = Ok out ->
  out = stmt.
Proof.
  unfold rewrite_matched. intros H. inv_bind.
  destruct (negb (MMAMatcher.Matched a)) eqn:Hm; [congruence |].
  apply negb_false_iff in Hm.
  destruct (MatrixIdentify_after_match schedule a (matcher_inv_run _ _ _ Ha) Hm)
    as [f Hf].
  rewrite Hf in H. discriminate.
Qed.

Lemma pass_returns_input env stmt schedule extern_buffer out :
  pass env stmt schedule extern_buffer = Ok out -> out = stmt.
Proof.
  unfold SchedulePostProcRewriteForTensorCore. intros H.
  repeat case_match; simplify_eq; try done;
    eapply rewrite_matched_returns_input; eassumption.
Qed.

(** C9: when the pass returns a statement, running it again on that
    statement (same schedule, external buffers, target and device
    environment) returns the same statement. *)
Theorem pass_idempotent env stmt schedule extern_buffer out :
  pass env stmt schedule extern_buffer = Ok out ->
  pass env out schedule extern_buffer = Ok out.
Proof.
  intros H. pose proof (pass_returns_input _ _ _ _ _ H) as ->. exact H.
Qed.

End DriverProperties.




(** ** A kernel to evaluate the stages on *)

Module Ex.

Definition i32 : DataType := DT.Int 32.
Definition f16 : DataType := DT.Float 16.
Definition f32 : DataType := DT.Float 32.

Definition i : VarT := mkVar 101%N "i" i32.
Definition j : VarT := mkVar 102%N "j" i32.
Definition kk : VarT := mkVar 103%N "k" i32.

Definition tensor (a : addr) (name : string) (dt : DataType) : Tensor :=
  mkTensor a name name dt.

Definition load (a : addr) (t : Tensor) (x y : VarT) : PrimExpr :=
  ProducerLoad a t [Var x; Var y].

(** [C[i, j] = C[i, j] + cast(A[i, k]) * cast(B[j, k])], the casts to the
    type of [C]. *)
Definition mma_store (tc ta tb : Tensor) : Stmt :=
  ProducerStore 10%N tc
    (Add (load 11%N tc i j)
         (Mul (Cast (t_dtype tc) (load 12%N ta i kk))
              (Cast (t_dtype tc) (load 13%N tb j kk))))
    [Var i; Var j].

Definition tile : Region :=
  [mkRange (IntImm i32 0) (IntImm i32 16); mkRange (IntImm i32 0) (IntImm i32 16)].

(** A realize of [t] in local scope around [body]. *)
Definition local_realize (t : Tensor) (body : Stmt) : Stmt :=
  AttrStmt (RefTensor t) attr.realize_scope (StringImm "local")
           (ProducerRealize t tile (IntImm (DT.UInt 1) 1) body).

Definition kernel (tc ta tb : Tensor) (body : Stmt) : Stmt :=
  local_realize tc (local_realize ta (local_realize tb body)).

Definition pragma (body : Stmt) : Stmt :=
  AttrStmt (RefOther 50%N) attr.pragma_tensor_core (IntImm i32 1) body.

Definition C := tensor 1%N "C" f32.
Definition A := tensor 2%N "A" f16.
Definition B := tensor 3%N "B" f16.

(** The store under the pragma. *)
Definition nested : Stmt := pragma (kernel C A B (mma_store C A B)).

(** The store after the pragma, which encloses an empty statement. *)
Definition sibling : Stmt :=
  kernel C A B (SeqStmt [pragma (Evaluate (IntImm i32 0)); mma_store C A B]).

(** No pragma at all. *)
Definition plain : Stmt := kernel C A B (mma_store C A B).

(** Integer accumulator, one-bit [A], and a [B] of 32-bit floats. *)
Definition Ci := tensor 1%N "C" i32.
Definition A1 := tensor 2%N "A" (DT.Int 1).
Definition Bf := tensor 3%N "B" f32.
Definition float_B : Stmt := pragma (kernel Ci A1 Bf (mma_store Ci A1 Bf)).

End Ex.

(** ** MMAMatcher: the operand types *)

Definition low_precision : list DataType :=
  [DT.Float 16; DT.Int 8; DT.UInt 8; DT.Int 4; DT.UInt 4; DT.Int 1].

(** C1, at a failing input: the store
    [C[i,j] = C[i,j] + cast(A[i,k]) * cast(B[j,k])] with [C] of type int32 and
    [A] of type int1 is matched although the local buffer [B] has type
    float32, which is none of the six low-precision types. *)
Theorem mma_match_accepts_float32_B :
  exists st,
    MMAMatcher.run [] Ex.float_B = Ok st
    /\ MMAMatcher.Matched st = true
    /\ MMAMatcher.alist_find 10%N (MMAMatcher.mma_sync_ st)
       = Some [Ex.load 12%N Ex.A1 Ex.i Ex.kk; Ex.load 13%N Ex.Bf Ex.j Ex.kk;
               Ex.load 11%N Ex.Ci Ex.i Ex.j]
    /\ MMAMatcher.buf_name_ st !! 13%N = Some "B"
    /\ t_dtype Ex.Bf = DT.Float 32
    /\ MMAMatcher.dtype_in (t_dtype Ex.Bf) low_precision = false.
Proof.
  eexists. split; [vm_compute; reflexivity |].
  repeat split; vm_compute; reflexivity.
Qed.

(** ** MMAMatcher: where matching is active *)

Fixpoint has_pragma (s : Stmt) : bool :=
  match s with
  | AttrStmt _ attr_key _ body =>
      String.eqb attr_key attr.pragma_tensor_core || has_pragma body
  | ProducerStore _ _ _ _ | Evaluate _ => false
  | ProducerRealize _ _ _ body | For _ _ _ _ body _ _ => has_pragma body
  | SeqStmt seq => existsb has_pragma seq
  | IfThenElse _ then_case else_case =>
      has_pragma then_case
      || match else_case with Some e => has_pragma e | None => false end
  end.

(** The store at address [a] stands in the body of an attribute with key
    [pragma_tensor_core]; [inside] tells whether [s] itself does. *)
Fixpoint store_under_pragma (a : addr) (inside : bool) (s : Stmt) : bool :=
  match s with
  | AttrStmt _ attr_key _ body =>
      store_under_pragma a (inside || String.eqb attr_key attr.pragma_tensor_core) body
  | ProducerStore a' _ _ _ => inside && N.eqb a a'
  | Evaluate _ => false
  | ProducerRealize _ _ _ body | For _ _ _ _ body _ _ => store_under_pragma a inside body
  | SeqStmt seq => existsb (store_under_pragma a inside) seq
  | IfThenElse _ then_case else_case =>
      store_under_pragma a inside then_case
      || match else_case with
         | Some e => store_under_pragma a inside e
         | None => false
         end
  end.

(** C8 as stated fails: in [Ex.sibling] the store follows the pragma
    attribute in a sequence and is not nested under it, yet it is matched
    and fills the three tables. *)
Lemma store_after_pragma_is_matched :
  exists st,
    MMAMatcher.run [] Ex.sibling = Ok st
    /\ store_under_pragma 10%N false Ex.sibling = false
    /\ MMAMatcher.Matched st = true
    /\ is_Some (MMAMatcher.alist_find 10%N (MMAMatcher.mma_sync_ st))
    /\ MMAMatcher.buf_name_ st !! 12%N = Some "A"
    /\ bool_decide ("C" ∈ MMAMatcher.frag_reg_ st) = true.
Proof.
  eexists. split; [vm_compute; reflexivity |].
  repeat split; try (vm_compute; reflexivity).
  vm_compute. eauto.
Qed.

Definition matcher_untouched (st st' : MMAMatcher.State) : Prop :=
  MMAMatcher.tensor_core_on_ st' = false
  /\ MMAMatcher.matched_ st' = MMAMatcher.matched_ st
  /\ MMAMatcher.frag_reg_ st' = MMAMatcher.frag_reg_ st
  /\ MMAMatcher.buf_name_ st' = MMAMatcher.buf_name_ st
  /\ MMAMatcher.mma_sync_ st' = MMAMatcher.mma_sync_ st.

(** C8, amended: matching is switched on when the walk enters an attribute
    with key [pragma_tensor_core].  A statement that holds no such attribute
    and is visited while matching is off leaves it off, and none of its
    stores is matched or added to the fragment set, the buffer-name map or
    the record table. *)
Theorem no_match_before_pragma s :
  forall st st',
    has_pragma s = false ->
    MMAMatcher.tensor_core_on_ st = false ->
    MMAMatcher.VisitStmt s st = Ok st' ->
    matcher_untouched st st'.
Proof.
  induction s using Stmt_nested_ind; simpl; intros st st' Hp Hoff Hv.
  - apply orb_false_iff in Hp as [Hk Hp]. rewrite Hk in Hv.
    repeat (case_match; simplify_eq; inv_bind);
      apply (IHs _ _ Hp) in Hv; try exact Hv; exact Hoff.
  - rewrite Hoff in Hv. repeat (case_match; simplify_eq); done.
  - repeat (case_match; simplify_eq; inv_bind); simplify_eq; try done.
    + eapply IHs; eassumption.
    + apply (IHs _ _ Hp) in Ha; [exact Ha | exact Hoff].
    + apply (IHs _ _ Hp) in Ha; [exact Ha | exact Hoff].
  - eapply IHs; eassumption.
  - revert st' Hv.
    assert (Hgen : forall s0 st', matcher_untouched st s0 ->
              foldM MMAMatcher.VisitStmt seq s0 = Ok st' -> matcher_untouched st st').
    { induction H as [|x l Hx _ IH]; simpl in *; intros s0 st' Hs0 Hf.
      - by simplify_eq.
      - apply orb_false_iff in Hp as [Hpx Hpl]. inv_bind.
        destruct Hs0 as (Hon & E1 & E2 & E3 & E4).
        destruct (Hx s0 a Hpx Hon Ha) as (Hon' & F1 & F2 & F3 & F4).
        apply (IH Hpl a st'); [| exact Hf].
        repeat split; congruence. }
    intros st' Hv. apply (Hgen st st'); [| exact Hv]. by repeat split.
  - apply orb_false_iff in Hp as [Hpt Hpe]. inv_bind.
    destruct (IHs _ _ Hpt Hoff Ha) as (Hon & E1 & E2 & E3 & E4).
    destruct else_case as [e|]; simplify_eq; [| by repeat split].
    destruct (H a st' Hpe Hon Hv) as (Hon' & F1 & F2 & F3 & F4).
    repeat split; congruence.
  - simplify_eq. by repeat split.
Qed.

Lemma no_match_before_pragma_witness :
  exists st',
    MMAMatcher.VisitStmt Ex.plain (MMAMatcher.init []) = Ok st'
    /\ matcher_untouched (MMAMatcher.init []) st'.
Proof.
  eexists. split; [vm_compute; reflexivity |].
  apply (no_match_before_pragma Ex.plain); vm_compute; reflexivity.
Defined.

(** X1: Once on, matching stays on: no statement switches it off. *)
Lemma tensor_core_on_stays s :
  forall st st',
    MMAMatcher.tensor_core_on_ st = true ->
    MMAMatcher.VisitStmt s st = Ok st' ->
    MMAMatcher.tensor_core_on_ st' = true.
Proof.
  induction s using Stmt_nested_ind; simpl; intros st st' Hon Hv.
  - repeat (case_match; simplify_eq; inv_bind); (eapply IHs; [| eassumption]; done).
  - repeat (case_match; simplify_eq; inv_bind); simplify_eq; try done.
    + apply mma_sync_match_effect in Ha as (_ & E & _). simpl. congruence.
    + apply mma_sync_match_effect in Ha as (_ & E & _). congruence.
  - repeat (case_match; simplify_eq; inv_bind); simplify_eq; try done.
    + eapply IHs; eassumption.
    + simpl. eapply IHs; [| eassumption]; done.
    + simpl. eapply IHs; [| eassumption]; done.
  - eapply IHs; eassumption.
  - revert st st' Hon Hv. apply foldM_invariant. exact H.
  - inv_bind. destruct else_case; simplify_eq; eauto.
  - by simplify_eq.
Qed.

(** ** Evaluating the later stages *)

Module Ex2.

(** An arithmetic that folds nothing. *)
Definition Simplify (e : PrimExpr) : PrimExpr := e.
Definition make_const (dt : DataType) (v : Z) : PrimExpr := IntImm dt v.
Definition indexmod (a b : PrimExpr) : PrimExpr :=
  Call fresh_addr (dtype_of a) "tir.indexmod" [a; b].

Definition axis (v : VarT) (a : addr) : IterVar := mkIterVar a v "".

(** [C[i, j] = sum_k cast(A[i, k]) * cast(B[j, k])] as the output stage. *)
Definition matmul : Operation :=
  ComputeOp "C" [axis Ex.i 201%N; axis Ex.j 202%N] [axis Ex.kk 203%N]
    [Reduce Ex.f32 [Add (Var (mkVar 301%N "x" Ex.f32)) (Var (mkVar 302%N "y" Ex.f32))]
            [Mul (Cast Ex.f32 (Ex.load 21%N Ex.A Ex.i Ex.kk))
                 (Cast Ex.f32 (Ex.load 22%N Ex.B Ex.j Ex.kk))]
            [(Ex.kk, (IntImm Ex.i32 0, IntImm Ex.i32 16))]
            (IntImm (DT.UInt 1) 1)].

Definition schedule : Schedule := mkSchedule [matmul].

Definition cuda : Env := mkEnv (Some "cuda") true.

Definition thread_axis (name : string) (a : addr) : ObjectRef :=
  RefIterVar (mkIterVar a (mkVar a name Ex.i32) name).

Definition threads (tx ty : Z) (body : Stmt) : Stmt :=
  AttrStmt (thread_axis "threadIdx.x" 401%N) attr.thread_extent (IntImm Ex.i32 tx)
    (AttrStmt (thread_axis "threadIdx.y" 402%N) attr.thread_extent (IntImm Ex.i32 ty)
       body).

(** A block of 64 by 4 threads. *)
Definition wide : Stmt := threads 64 4 (Evaluate (IntImm Ex.i32 0)).

Definition no_match : MMAMatcher.State := MMAMatcher.init [].
Definition no_roles : ScheduleAnalyser.State := ScheduleAnalyser.init no_match.

End Ex2.

Lemma pass_idempotent_witness :
  SchedulePostProcRewriteForTensorCore Ex2.Simplify Ex2.make_const Add Sub Mul
    Ex2.indexmod Ex2.cuda Ex.plain Ex2.schedule [] = Ok Ex.plain
  /\ SchedulePostProcRewriteForTensorCore Ex2.Simplify Ex2.make_const Add Sub Mul
       Ex2.indexmod Ex2.cuda Ex.plain Ex2.schedule [] = Ok Ex.plain.
Proof.
  split; [vm_compute; reflexivity |].
  apply (pass_idempotent Ex2.Simplify Ex2.make_const Add Sub Mul Ex2.indexmod
           Ex2.cuda Ex.plain Ex2.schedule [] Ex.plain).
  vm_compute; reflexivity.
Defined.

(** C4, at a failing input: for the kernel [Ex.nested], whose store the
    matcher records, [MatrixIdentify] neither keeps nor swaps the operands
    nor returns [false]: the operands are cast to call nodes, the casts give
    null pointers, and the result of the failed lookup in [buf_name_] is
    dereferenced. *)
Theorem MatrixIdentify_dereferences_end :
  exists mm,
    MMAMatcher.run [] Ex.nested = Ok mm
    /\ MMAMatcher.Matched mm = true
    /\ MMAMatcher.mma_sync_ mm
       = [(10%N, [Ex.load 12%N Ex.A Ex.i Ex.kk; Ex.load 13%N Ex.B Ex.j Ex.kk;
                  Ex.load 11%N Ex.C Ex.i Ex.j])]
    /\ ScheduleAnalyser.MatrixIdentify Ex2.schedule (ScheduleAnalyser.init mm)
       = Err Undefined
    /\ SchedulePostProcRewriteForTensorCore Ex2.Simplify Ex2.make_const Add Sub Mul
         Ex2.indexmod Ex2.cuda Ex.nested Ex2.schedule [] = Err Undefined.
Proof.
  eexists. split; [vm_compute; reflexivity |].
  repeat split; vm_compute; reflexivity.
Qed.

(** ** BufferAnalyser: the qualification *)

(** C2, at a failing input: with [threadIdx.x] of extent 64 and
    [threadIdx.y] of extent 4, [warp_threads_y_] is [32 / 64 = 0] and the
    test [4 % 0] divides by zero; the qualification does not return [false]
    and the driver's last stage does not return its input. *)
Theorem qualification_divides_by_zero :
  exists ba,
    BufferAnalyser.run Ex2.Simplify Ex2.make_const Add Sub Mul Ex2.indexmod
                       [] Ex2.no_roles Ex2.no_match Ex2.wide = Ok ba
    /\ BufferAnalyser.invalid_ ba = false
    /\ BufferAnalyser.thread_extent_ ba !! "threadIdx.x" = Some 64
    /\ BufferAnalyser.thread_extent_ ba !! "threadIdx.y" = Some 4
    /\ BufferAnalyser.QualifiedForTensorCore ba = Err Undefined
    /\ rewrite_qualified Ex2.Simplify Ex2.make_const Add Sub Mul Ex2.indexmod
         Ex2.wide [] Ex2.no_roles Ex2.no_match = Err Undefined.
Proof.
  eexists. split; [vm_compute; reflexivity |].
  repeat split; vm_compute; reflexivity.
Qed.



(** In the range where the divisions are defined and the products fit an
    [int], the qualification is the test of the warp tile against the five
    supported shapes. *)
Definition supported_tiles : list (Z * Z * Z) :=
  [(16, 16, 16); (8, 32, 16); (32, 8, 16); (8, 8, 32); (8, 8, 128)].

Definition in_int_range (z : Z) : Prop := - 2 ^ 31 <= z < 2 ^ 31.

Lemma to_int_id z : in_int_range z -> to_int z = z.
Proof.
  unfold in_int_range, to_int. intros H.
  rewrite Z.mod_small by lia. lia.
Qed.

Lemma in_int_iff z : in_int z = true <-> in_int_range z.
Proof.
  unfold in_int, in_int_range. rewrite andb_true_iff, Z.leb_le, Z.ltb_lt. reflexivity.
Qed.

Lemma int_mul_in_range a b : in_int_range (a * b) -> int_mul a b = Ok (a * b).
Proof. intros H. unfold int_mul. apply in_int_iff in H. rewrite H. reflexivity. Qed.

Lemma supported_warp_tile_iff t :
  BufferAnalyser.supported_warp_tile_ t = true <-> In (m t, n t, k t) supported_tiles.
Proof.
  unfold BufferAnalyser.supported_warp_tile_, supported_tiles. simpl.
  rewrite !orb_true_iff, !andb_true_iff, !Z.eqb_eq.
  split.
  - intros [[[[H|H]|H]|H]|H]; destruct H as [[-> ->] ->]; tauto.
  - intros [H|[H|[H|[H|[H|[]]]]]]; injection H as <- <- <-; tauto.
Qed.

(** X2: With [threadIdx.x] of an extent between 1 and 32 and products that fit
    an [int], the qualification returns; it sets [warp_threads_y_] to
    [32 / t_x] and answers [true] exactly when [threadIdx.y] is a multiple of
    it, not below it, and the warp tile is one of the five supported. *)
Lemma QualifiedForTensorCore_in_range st t_x t_y :
  BufferAnalyser.invalid_ st = false ->
  BufferAnalyser.thread_extent_ st !! "threadIdx.x" = Some t_x ->
  BufferAnalyser.thread_extent_ st !! "threadIdx.y" = Some t_y ->
  1 <= t_x <= 32 ->
  in_int_range (t_x * m (BufferAnalyser.thread_tile_ st)) ->
  in_int_range (Z.quot 32 t_x * n (BufferAnalyser.thread_tile_ st)) ->
  let warp_threads_y := Z.quot 32 t_x in
  let M := t_x * m (BufferAnalyser.thread_tile_ st) in
  let N := warp_threads_y * n (BufferAnalyser.thread_tile_ st) in
  let K := k (BufferAnalyser.thread_tile_ st) in
  exists b st',
    BufferAnalyser.QualifiedForTensorCore st = Ok (b, st')
    /\ BufferAnalyser.warp_threads_y_ st' = warp_threads_y
    /\ (b = true <->
        warp_threads_y <= t_y /\ Z.rem t_y warp_threads_y = 0
        /\ In (M, N, K) supported_tiles)
    /\ (b = true -> BufferAnalyser.warp_tile_ st' = mkTile M N K).
Proof.
  intros Hv Hx Hy Hr HM HN wy M N K.
  assert (Hwy : 1 <= wy <= 32).
  { subst wy. split.
    - apply Z.quot_le_lower_bound; lia.
    - apply Z.quot_le_upper_bound; lia. }
  unfold BufferAnalyser.QualifiedForTensorCore. rewrite Hv, Hx.
  rewrite (int_mul_in_range _ _ HM). cbn [bind].
  unfold int_div.
  replace ((t_x =? 0) || ((32 =? - 2 ^ 31) && (t_x =? -1))) with false
    by (symmetry; apply orb_false_iff; split; [apply Z.eqb_neq; lia | reflexivity]).
  cbn [bind]. fold wy. cbn [BufferAnalyser.thread_extent_
    BufferAnalyser.with_warp_threads_y_ BufferAnalyser.with_warp_tile_].
  rewrite Hy.
  destruct (t_y <? wy) eqn:Hlt.
  { do 2 eexists. split; [reflexivity |]. split; [reflexivity |].
    apply Z.ltb_lt in Hlt. split; [split; [discriminate | lia] | discriminate]. }
  apply Z.ltb_ge in Hlt.
  unfold int_rem.
  replace ((wy =? 0) || ((t_y =? - 2 ^ 31) && (wy =? -1))) with false
    by (symmetry; apply orb_false_iff; split; [apply Z.eqb_neq; lia |];
        apply andb_false_iff; right; apply Z.eqb_neq; lia).
  cbn [bind].
  destruct (Z.rem t_y wy =? 0) eqn:Hrem; cbn [negb].
  2:{ do 2 eexists. split; [reflexivity |]. split; [reflexivity |].
      apply Z.eqb_neq in Hrem. split; [split; [discriminate | tauto] | discriminate]. }
  apply Z.eqb_eq in Hrem.
  cbn [BufferAnalyser.thread_tile_ BufferAnalyser.with_warp_tile_
       BufferAnalyser.with_warp_threads_y_].
  pose proof (int_mul_in_range _ _ HN) as HNm. fold wy in HNm.
  rewrite HNm. cbn [bind].
  do 2 eexists. split; [reflexivity |]. split; [reflexivity |].
  cbn [BufferAnalyser.warp_tile_ BufferAnalyser.with_warp_tile_
       BufferAnalyser.with_warp_threads_y_ BufferAnalyser.thread_tile_ m n k].
  split; [| reflexivity].
  rewrite supported_warp_tile_iff. cbn [m n k]. tauto.
Qed.

(** A block of 8 by 3 threads. *)
Definition unqualified_analyser : BufferAnalyser.State :=
  BufferAnalyser.with_thread_extent_
    (BufferAnalyser.init [] Ex2.no_roles Ex2.no_match)
    (<["threadIdx.y" := 3]> (<["threadIdx.x" := 8]> ∅)).

Lemma QualifiedForTensorCore_in_range_witness :
  exists b st',
    BufferAnalyser.QualifiedForTensorCore unqualified_analyser = Ok (b, st')
    /\ BufferAnalyser.warp_threads_y_ st' = 4
    /\ b = false.
Proof.
  assert (Hx : BufferAnalyser.thread_extent_ unqualified_analyser !! "threadIdx.x"
               = Some 8) by reflexivity.
  assert (Hy : BufferAnalyser.thread_extent_ unqualified_analyser !! "threadIdx.y"
               = Some 3) by reflexivity.
  destruct (QualifiedForTensorCore_in_range unqualified_analyser 8 3
              eq_refl Hx Hy) as (b & st' & Hq & Hw & Hb & _).
  - lia.
  - vm_compute. split; [discriminate | reflexivity].
  - vm_compute. split; [discriminate | reflexivity].
  - exists b, st'. split; [exact Hq |]. split; [exact Hw |].
    destruct b; [| reflexivity].
    destruct Hb as [Hb _]. destruct (Hb eq_refl) as (Hle & _).
    change (Z.quot 32 8) with 4 in Hle. lia.
Defined.


(** ** TensorCoreIRMutator: tile sizes and the realize rewrite *)

Section MutatorProperties.

Variable Simplify : PrimExpr -> PrimExpr.
Variable make_const : DataType -> Z -> PrimExpr.
Variable tbl : TensorCoreIRMutator.Tables.

Abbreviation get_tile_size_ := (TensorCoreIRMutator.get_tile_size_ make_const tbl).
Abbreviation VisitStmt := (TensorCoreIRMutator.VisitStmt Simplify make_const tbl).
Abbreviation tile_const v := (make_const (DT.Int 32) v).

(** The rows of the two input roles. *)
Lemma get_tile_size_inputs name role major :
  TensorCoreIRMutator.matrix_abc_ tbl !! name = Some role ->
  TensorCoreIRMutator.matrix_major_ tbl !! name = Some major ->
  let w := TensorCoreIRMutator.warp_tile_ tbl in
  (role = "matrix_a" -> major = "col_major" ->
   get_tile_size_ name = Ok (tile_const (k w), tile_const (m w)))
  /\ (role = "matrix_a" -> major = "row_major" ->
      get_tile_size_ name = Ok (tile_const (m w), tile_const (k w)))
  /\ (role = "matrix_b" -> major = "col_major" ->
      get_tile_size_ name = Ok (tile_const (n w), tile_const (k w)))
  /\ (role = "matrix_b" -> major = "row_major" ->
      get_tile_size_ name = Ok (tile_const (k w), tile_const (n w))).
Proof.
  intros Hr Hm w. unfold TensorCoreIRMutator.get_tile_size_. rewrite Hr, Hm.
  repeat split; intros -> ->; reflexivity.
Qed.

(** The role the schedule analysis registers for the output is
    [accumulator]; the fifth test asks for [matrix_c], so the sizes stay at
    their initial value. *)
Lemma get_tile_size_accumulator name major :
  TensorCoreIRMutator.matrix_abc_ tbl !! name = Some "accumulator" ->
  TensorCoreIRMutator.matrix_major_ tbl !! name = Some major ->
  get_tile_size_ name = Ok (tile_const 16, tile_const 16).
Proof.
  intros Hr Hm. unfold TensorCoreIRMutator.get_tile_size_. rewrite Hr, Hm.
  reflexivity.
Qed.

(** X3: The realize of a fragment keeps its tensor, its condition, its leading
    bounds and the minima of its last two bounds; the last two extents are
    the pair [get_tile_size_] returns. *)
Lemma realize_rewrite key pre r0 r1 condition body e0 e1 bounds_ :
  t_name_hint key ∈ TensorCoreIRMutator.frag_reg_ tbl ->
  get_tile_size_ (simplify_name (t_name_hint key)) = Ok (e0, e1) ->
  VisitStmt (ProducerRealize key (pre ++ [r0; r1]) condition body) bounds_
  = ('(body1, b1) <- VisitStmt body (<[t_addr key := pre ++ [r0; r1]]> bounds_) ;
     Ok (ProducerRealize key (pre ++ [mkRange (r_min r0) e0; mkRange (r_min r1) e1])
                         condition body1, b1)).
Proof.
  intros Hf Ht. cbn [TensorCoreIRMutator.VisitStmt].
  destruct (TensorCoreIRMutator.VisitStmt _ _ _ body _) as [[body1 b1]|f]; [| reflexivity].
  cbn [bind]. rewrite bool_decide_eq_true_2 by exact Hf. cbn [negb].
  unfold TensorCoreIRMutator.shrink_bounds. rewrite Ht. cbn [bind].
  rewrite length_app. cbn [length].
  replace (length pre + 2 <? 2)%nat with false by (symmetry; apply Nat.ltb_ge; lia).
  unfold at_index.
  replace (length pre + 2 - 2)%nat with (length pre) by lia.
  replace (length pre + 2 - 1)%nat with (S (length pre)) by lia.
  assert (E0 : nth_error (pre ++ [r0; r1]) (length pre) = Some r0).
  { clear. induction pre; simpl; auto. }
  assert (E1 : nth_error (pre ++ [r0; r1]) (S (length pre)) = Some r1).
  { clear. induction pre; simpl; auto. }
  rewrite E0, E1. cbn [bind fst snd].
  rewrite take_app_length. reflexivity.
Qed.

(** ** TensorCoreIRMutator: the loops *)

(** C7, amended: for a loop whose variable is in the loop-scaling table
    with a factor [f] between 1 and [2^31 - 1] and whose extent is a constant
    [E] that fits a 32-bit [int], the rewritten extent is the constant
    [E / f] (C++ division, which truncates) of the extent's type; the loop
    variable, the minimum, the kind, the thread binding and the annotations
    are kept and the body is the rewritten body. *)
Theorem for_extent_scaled loop_var min dt E kind body thread_binding annotations
    f bounds_ :
  TensorCoreIRMutator.loop_scaling_ tbl !! v_addr loop_var = Some f ->
  0 < f < 2 ^ 31 ->
  - 2 ^ 31 <= E < 2 ^ 31 ->
  VisitStmt (For loop_var min (IntImm dt E) kind body thread_binding annotations) bounds_
  = ('(body1, b1) <- VisitStmt body bounds_ ;
     Ok (For loop_var min (make_const dt (Z.quot E f)) kind body1 thread_binding
             annotations, b1)).
Proof.
  intros Hf Hfr HE. cbn [TensorCoreIRMutator.VisitStmt].
  destruct (TensorCoreIRMutator.VisitStmt _ _ _ body _) as [[body1 b1]|e]; [| reflexivity].
  cbn [bind]. rewrite Hf.
  unfold TensorCoreIRMutator.scaled_extent. cbn [as_IntImm dtype_of].
  rewrite !to_int_id by (unfold in_int_range; lia).
  unfold int_div.
  replace ((f =? 0) || ((E =? - 2 ^ 31) && (f =? -1))) with false; [reflexivity |].
  symmetry. apply orb_false_iff. split; [apply Z.eqb_neq; lia |].
  apply andb_false_iff. right. apply Z.eqb_neq. lia.
Qed.

(** C10: for a loop whose variable is in the loop-scaling table and whose
    extent is no integer constant, the rewritten extent is the constant 1 of
    the extent's type, whatever the extent was; the rest of the loop is
    kept and the body is the rewritten body. *)
Theorem for_symbolic_extent_becomes_one loop_var min extent kind body
    thread_binding annotations f bounds_ :
  TensorCoreIRMutator.loop_scaling_ tbl !! v_addr loop_var = Some f ->
  as_IntImm extent = None ->
  VisitStmt (For loop_var min extent kind body thread_binding annotations) bounds_
  = ('(body1, b1) <- VisitStmt body bounds_ ;
     Ok (For loop_var min (make_const (dtype_of extent) 1) kind body1 thread_binding
             annotations, b1)).
Proof.
  intros Hf Hx. cbn [TensorCoreIRMutator.VisitStmt].
  destruct (TensorCoreIRMutator.VisitStmt _ _ _ body _) as [[body1 b1]|e]; [| reflexivity].
  cbn [bind]. rewrite Hf.
  unfold TensorCoreIRMutator.scaled_extent. rewrite Hx. reflexivity.
Qed.

(** A loop whose variable is not in the table keeps its extent. *)
Lemma for_unscaled loop_var min extent kind body thread_binding annotations bounds_ :
  TensorCoreIRMutator.loop_scaling_ tbl !! v_addr loop_var = None ->
  VisitStmt (For loop_var min extent kind body thread_binding annotations) bounds_
  = ('(body1, b1) <- VisitStmt body bounds_ ;
     Ok (For loop_var min extent kind body1 thread_binding annotations, b1)).
Proof.
  intros Hf. cbn [TensorCoreIRMutator.VisitStmt].
  destruct (TensorCoreIRMutator.VisitStmt _ _ _ body _) as [[body1 b1]|e]; [| reflexivity].
  cbn [bind]. rewrite Hf. reflexivity.
Qed.

End MutatorProperties.


(** Tables for a warp tile of 8 by 32 by 16 in which the loop variable [i]
    scales by 16. *)
Definition example_tables : TensorCoreIRMutator.Tables :=
  TensorCoreIRMutator.mkTables
    (<["C" := "accumulator"]> (<["B" := "matrix_b"]> (<["A" := "matrix_a"]> ∅)))
    (<["C" := "col_major"]> (<["B" := "col_major"]> (<["A" := "row_major"]> ∅)))
    [] ∅ ({["C"]} ∪ ({["B"]} ∪ {["A"]}))
    (<[v_addr Ex.i := 16]> ∅) ∅ ∅ (mkTile 8 32 16) 4.

Definition example_realize : Stmt :=
  ProducerRealize Ex.C
    [mkRange (IntImm Ex.i32 0) (IntImm Ex.i32 64);
     mkRange (IntImm Ex.i32 0) (IntImm Ex.i32 64)]
    (IntImm (DT.UInt 1) 1) (Evaluate (IntImm Ex.i32 0)).

(** C5, at a failing input: with the warp tile (M, N, K) = (8, 32, 16) the
    tensor [C], whose role is [accumulator], gets the sizes (16, 16) and not
    (N, M) = (32, 8), and its realize is cut to 16 by 16. *)
Theorem accumulator_tile_is_16_by_16 :
  TensorCoreIRMutator.matrix_abc_ example_tables !! "C" = Some "accumulator"
  /\ TensorCoreIRMutator.warp_tile_ example_tables = mkTile 8 32 16
  /\ TensorCoreIRMutator.get_tile_size_ Ex2.make_const example_tables "C"
     = Ok (IntImm Ex.i32 16, IntImm Ex.i32 16)
  /\ TensorCoreIRMutator.run Ex2.Simplify Ex2.make_const example_tables example_realize
     = Ok (ProducerRealize Ex.C
             [mkRange (IntImm Ex.i32 0) (IntImm Ex.i32 16);
              mkRange (IntImm Ex.i32 0) (IntImm Ex.i32 16)]
             (IntImm (DT.UInt 1) 1) (Evaluate (IntImm Ex.i32 0))).
Proof. repeat split; vm_compute; reflexivity. Qed.

Definition example_loop (extent : PrimExpr) : Stmt :=
  For Ex.i (IntImm (DT.Int 64) 0) extent kSerial (Evaluate (IntImm Ex.i32 0)) None [].

(** C7 as stated fails: the extent [2^32 + 16] of a loop that scales by 16
    is first narrowed to the [int] 16, so the new extent is 1 and not
    [(2^32 + 16) / 16 = 268435457]. *)
Lemma for_extent_narrowed_to_int :
  TensorCoreIRMutator.loop_scaling_ example_tables !! v_addr Ex.i = Some 16
  /\ TensorCoreIRMutator.VisitStmt Ex2.Simplify Ex2.make_const example_tables
       (example_loop (IntImm (DT.Int 64) (2 ^ 32 + 16))) ∅
     = Ok (example_loop (IntImm (DT.Int 64) 1), ∅)
  /\ Z.quot (2 ^ 32 + 16) 16 = 268435457.
Proof. repeat split; vm_compute; reflexivity. Qed.

Lemma for_extent_scaled_witness :
  TensorCoreIRMutator.loop_scaling_ example_tables !! v_addr Ex.i = Some 16
  /\ TensorCoreIRMutator.VisitStmt Ex2.Simplify Ex2.make_const example_tables
       (example_loop (IntImm (DT.Int 64) 64)) ∅
     = Ok (example_loop (IntImm (DT.Int 64) 4), ∅).
Proof.
  split; [vm_compute; reflexivity |].
  apply (for_extent_scaled Ex2.Simplify Ex2.make_const example_tables
           Ex.i (IntImm (DT.Int 64) 0) (DT.Int 64) 64 kSerial
           (Evaluate (IntImm Ex.i32 0)) None [] 16 ∅); [reflexivity | lia | lia].
Defined.

Lemma for_symbolic_extent_becomes_one_witness :
  TensorCoreIRMutator.loop_scaling_ example_tables !! v_addr Ex.i = Some 16
  /\ TensorCoreIRMutator.VisitStmt Ex2.Simplify Ex2.make_const example_tables
       (example_loop (Var Ex.j)) ∅
     = Ok (example_loop (IntImm Ex.i32 1), ∅).
Proof.
  split; [vm_compute; reflexivity |].
  exact (for_symbolic_extent_becomes_one Ex2.Simplify Ex2.make_const example_tables
           Ex.i (IntImm (DT.Int 64) 0) (Var Ex.j) kSerial
           (Evaluate (IntImm Ex.i32 0)) None [] 16 ∅ eq_refl eq_refl).
Defined.



(** ** Thread collapse *)

(** [e] is [(threadIdx.y / w) * w] with the 32-bit constant [w]. *)
Definition is_unified_y (w : Z) (e : PrimExpr) : bool :=
  match e with
  | Mul (Div (Var v) (IntImm d1 w1)) (IntImm d2 w2) =>
      String.eqb (name_hint v) "threadIdx.y"
      && DT.eqb d1 (DT.Int 32) && (w1 =? w) && DT.eqb d2 (DT.Int 32) && (w2 =? w)
  | _ => false
  end.

(** No variable the expression traversal reaches in [e] is named
    [threadIdx.x], and one named [threadIdx.y] stands in
    [(threadIdx.y / w) * w]. *)
Fixpoint thread_collapsed (w : Z) (e : PrimExpr) : bool :=
  is_unified_y w e
  || match e with
     | Var v =>
         negb (String.eqb (name_hint v) "threadIdx.x")
         && negb (String.eqb (name_hint v) "threadIdx.y")
     | IntImm _ _ | FloatImm _ _ | StringImm _ => true
     | Cast _ value => thread_collapsed w value
     | Add a b | Sub a b | Mul a b | Div a b =>
         thread_collapsed w a && thread_collapsed w b
     | ProducerLoad _ _ indices => forallb (thread_collapsed w) indices
     | Call _ _ _ args => forallb (thread_collapsed w) args
     | Reduce _ _ source axis condition =>
         forallb (thread_collapsed w) source
         && forallb (fun ax => let '(_, (mn, ex)) := ax in
                               thread_collapsed w mn && thread_collapsed w ex) axis
         && thread_collapsed w condition
     end.

Lemma forallb_map_Forall {A} (f : A -> A) (p : A -> bool) (l : list A) :
  Forall (fun x => p (f x) = true) l -> forallb p (map f l) = true.
Proof.
  induction 1 as [|x l Hx _ IH]; simpl; [reflexivity |].
  rewrite Hx, IH. reflexivity.
Qed.

Lemma ThreadIdxMutator_collapsed w e :
  thread_collapsed w (ThreadIdxMutator (IntImm (DT.Int 32) w) e) = true.
Proof.
  induction e using PrimExpr_nested_ind;
    cbn [ThreadIdxMutator thread_collapsed is_unified_y];
    try reflexivity;
    try (apply orb_true_iff; right; rewrite ?IHe, ?IHe1, ?IHe2; reflexivity).
  - destruct (String.eqb (name_hint v) "threadIdx.x") eqn:Hx; [reflexivity |].
    destruct (String.eqb (name_hint v) "threadIdx.y") eqn:Hy.
    + cbn [thread_collapsed is_unified_y]. rewrite Hy, Z.eqb_refl. reflexivity.
    + cbn [thread_collapsed is_unified_y]. rewrite Hx, Hy. reflexivity.
  - apply forallb_map_Forall. exact H.
  - apply forallb_map_Forall. exact H.
  - rewrite IHe, andb_true_r. apply andb_true_iff. split.
    + apply forallb_map_Forall. exact H.
    + clear -H0. induction H0 as [|[v [mn ex]] l [Hmn Hex] _ IH]; simpl in *;
        [reflexivity |]. rewrite Hmn, Hex, IH. reflexivity.
Qed.

(** The pointer argument is the sixth argument of the two intrinsics that
    move a fragment. *)
Lemma add_buffer_bind_scope_shape Simplify make_const tbl bounds_ pload call_back s :
  TensorCoreIRMutator.add_buffer_bind_scope_ Simplify make_const tbl bounds_ pload
    call_back = Ok s ->
  exists node tuple buffer body,
    s = AttrStmt node "buffer_bind_scope" tuple body /\ call_back buffer = Ok body.
Proof.
  unfold TensorCoreIRMutator.add_buffer_bind_scope_. intros H.
  apply bind_Ok in H as ([[a0 tensor] indices] & Hd & H).
  destruct (bounds_ !! t_addr tensor) as [region|]; [| discriminate].
  destruct (length region <? 2)%nat; [discriminate |].
  apply bind_Ok in H as (tile_size & Ht & H).
  destruct (negb _); [discriminate |].
  destruct (TensorCoreIRMutator.matrix_abc_ tbl !! _) as [role|]; [| discriminate].
  apply bind_Ok in H as (body & Hb & H). injection H as <-.
  do 4 eexists. split; [reflexivity | exact Hb].
Qed.

Lemma rewrite_frag_store_shape Simplify make_const tbl bounds_ producer value dst s :
  TensorCoreIRMutator.rewrite_frag_store Simplify make_const tbl bounds_ producer
    value dst = Ok s ->
  exists node tuple buffer stride,
    s = AttrStmt node "buffer_bind_scope" tuple
          (TensorCoreIRMutator.intrinsic builtin.tvm_store_matrix_sync
             (TensorCoreIRMutator.tile_args tbl buffer
              ++ [TensorCoreIRMutator.address_of tbl DT.Handle dst; stride;
                  StringImm "col_major"])).
Proof.
  unfold TensorCoreIRMutator.rewrite_frag_store. intros H. inv_bind.
  apply add_buffer_bind_scope_shape in H as (node & tuple & buffer & body & -> & Hb).
  simplify_eq. eauto.
Qed.

Lemma rewrite_frag_load_shape Simplify make_const tbl bounds_ a producer indices dst s :
  TensorCoreIRMutator.rewrite_frag_load Simplify make_const tbl bounds_
    (ProducerLoad a producer indices) dst = Ok s ->
  exists node tuple buffer stride major,
    s = AttrStmt node "buffer_bind_scope" tuple
          (TensorCoreIRMutator.intrinsic builtin.tvm_load_matrix_sync
             (TensorCoreIRMutator.tile_args tbl buffer
              ++ [TensorCoreIRMutator.address_of tbl (t_dtype producer)
                    (ProducerLoad a producer indices);
                  stride; StringImm major])).
Proof.
  unfold TensorCoreIRMutator.rewrite_frag_load. intros H.
  apply bind_Ok in H as (stride & Hs & H).
  apply bind_Ok in H as ([[a0 tensor] idx] & Hd & H).
  destruct (TensorCoreIRMutator.matrix_major_ tbl !! _) as [major|]; [| discriminate].
  destruct (_ || _); [| discriminate].
  apply add_buffer_bind_scope_shape in H as (node & tuple & buffer & body & -> & Hb).
  injection Hb as <-. eauto 10.
Qed.

Lemma QualifiedForTensorCore_warp_threads_y st t_x b st' :
  BufferAnalyser.thread_extent_ st !! "threadIdx.x" = Some t_x ->
  BufferAnalyser.QualifiedForTensorCore st = Ok (b, st') ->
  b = true ->
  BufferAnalyser.warp_threads_y_ st' = Z.quot 32 t_x.
Proof.
  unfold BufferAnalyser.QualifiedForTensorCore, int_div. intros Hx H ->.
  rewrite Hx in H.
  repeat (case_match; simplify_eq; inv_bind); simplify_eq.
  reflexivity.
Qed.

(** The values of the [Evaluate] statements of [s], from left to right. *)
Fixpoint evaluated (s : Stmt) : list PrimExpr :=
  match s with
  | AttrStmt _ _ _ body => evaluated body
  | ProducerStore _ _ _ _ => []
  | ProducerRealize _ _ _ body => evaluated body
  | For _ _ _ _ body _ _ => evaluated body
  | SeqStmt seq => flat_map evaluated seq
  | IfThenElse _ then_case else_case =>
      evaluated then_case
      ++ match else_case with Some e => evaluated e | None => [] end
  | Evaluate value => [value]
  end.

(** [v] is a call of one of the two intrinsics that move a fragment from or
    to global memory. *)
Definition moves_fragment (v : PrimExpr) : bool :=
  match v with
  | Call _ _ op _ =>
      String.eqb op builtin.tvm_load_matrix_sync
      || String.eqb op builtin.tvm_store_matrix_sync
  | _ => false
  end.

(** The pointer argument of the call [v], its sixth, is
    [call_extern("&", e)] with the thread indices of [e] unified. *)
Definition pointer_unified (w : Z) (v : PrimExpr) : bool :=
  match v with
  | Call _ _ _ args =>
      match nth_error args 5 with
      | Some (Call _ _ op [StringImm amp; e]) =>
          String.eqb op builtin.call_extern && String.eqb amp "&"
          && thread_collapsed w e
      | _ => false
      end
  | _ => false
  end.

Lemma add_buffer_bind_scope_evaluated Simplify make_const tbl bounds_ pload call_back s :
  TensorCoreIRMutator.add_buffer_bind_scope_ Simplify make_const tbl bounds_ pload
    call_back = Ok s ->
  exists buffer body, call_back buffer = Ok body /\ evaluated s = evaluated body.
Proof.
  intros H.
  apply add_buffer_bind_scope_shape in H as (node & tuple & buffer & body & -> & Hb).
  exists buffer, body. split; [exact Hb | reflexivity].
Qed.

Lemma address_of_unified tbl e :
  thread_collapsed (TensorCoreIRMutator.warp_threads_y_ tbl)
    (ThreadIdxMutator (TensorCoreIRMutator.warp_y tbl) e) = true.
Proof. apply ThreadIdxMutator_collapsed. Qed.

(** The calls a rewritten store holds: a call that moves a fragment has its
    pointer argument unified. *)
Lemma rewrite_store_evaluated Simplify make_const tbl bounds_ a producer value indices s :
  TensorCoreIRMutator.rewrite_store Simplify make_const tbl bounds_ a producer value
    indices = Ok s ->
  forall v, In v (evaluated s) -> moves_fragment v = true ->
            pointer_unified (TensorCoreIRMutator.warp_threads_y_ tbl) v = true.
Proof.
  unfold TensorCoreIRMutator.rewrite_store. intros H v Hin Hmv.
  destruct (MMAMatcher.alist_find a _) as [operands|].
  { unfold TensorCoreIRMutator.rewrite_mma in H.
    apply bind_Ok in H as (ea & _ & H). apply bind_Ok in H as (eb & _ & H).
    apply bind_Ok in H as (ec & _ & H).
    apply add_buffer_bind_scope_evaluated in H as (buffer_a & s1 & H & E1).
    apply add_buffer_bind_scope_evaluated in H as (buffer_b & s2 & H & E2).
    apply add_buffer_bind_scope_evaluated in H as (buffer_c & s3 & H & E3).
    apply bind_Ok in H as (da & _ & H). apply bind_Ok in H as (db & _ & H).
    rewrite E1, E2, E3 in Hin.
    destruct (_ && _); injection H as <-; destruct Hin as [<-|[]]; discriminate. }
  destruct (TensorCoreIRMutator.frag_load_ tbl !! a) as [dst|].
  { destruct value; try discriminate.
    - unfold TensorCoreIRMutator.rewrite_frag_load in H.
      apply add_buffer_bind_scope_evaluated in H as (buffer & body & H & E).
      injection H as <-. rewrite E in Hin. destruct Hin as [<-|[]]. discriminate.
    - unfold TensorCoreIRMutator.rewrite_frag_load in H.
      apply add_buffer_bind_scope_evaluated in H as (buffer & body & H & E).
      injection H as <-. rewrite E in Hin. destruct Hin as [<-|[]]. discriminate.
    - apply rewrite_frag_load_shape in H
        as (node & tuple & buffer & stride & major & ->).
      destruct Hin as [<-|[]].
      cbn [pointer_unified TensorCoreIRMutator.tile_args app nth_error
           TensorCoreIRMutator.address_of].
      rewrite address_of_unified. reflexivity. }
  destruct (TensorCoreIRMutator.frag_store_ tbl !! a) as [dst|].
  { apply rewrite_frag_store_shape in H as (node & tuple & buffer & stride & ->).
    destruct Hin as [<-|[]].
    cbn [pointer_unified TensorCoreIRMutator.tile_args app nth_error
         TensorCoreIRMutator.address_of].
    rewrite address_of_unified. reflexivity. }
  injection H as <-. destruct Hin.
Qed.

(** Across the rewriter, an [Evaluate] statement of the output is one of the
    input or stands in a rewritten store. *)
Lemma VisitStmt_evaluated Simplify make_const tbl s :
  forall bounds_ s' bounds_',
    TensorCoreIRMutator.VisitStmt Simplify make_const tbl s bounds_ = Ok (s', bounds_') ->
    forall v, In v (evaluated s') -> moves_fragment v = true ->
              In v (evaluated s)
              \/ pointer_unified (TensorCoreIRMutator.warp_threads_y_ tbl) v = true.
Proof.
  induction s using Stmt_nested_ind; cbn [TensorCoreIRMutator.VisitStmt];
    intros bounds_ s' bounds_' Hv v Hin Hmv.
  - apply bind_Ok in Hv as ([body1 b1] & H1 & Hv).
    destruct (String.eqb attr_key attr.realize_scope).
    2:{ injection Hv as <- <-. exact (IHs _ _ _ H1 v Hin Hmv). }
    destruct node; try (injection Hv as <- <-; exact (IHs _ _ _ H1 v Hin Hmv)).
    destruct (negb _); [injection Hv as <- <-; exact (IHs _ _ _ H1 v Hin Hmv) |].
    destruct (TensorCoreIRMutator.matrix_abc_ tbl !! _) as [role|]; [| discriminate].
    apply bind_Ok in Hv as ([body2 b2] & H2 & Hv). injection Hv as <- <-.
    exact (IHs _ _ _ H2 v Hin Hmv).
  - apply bind_Ok in Hv as (stmt & Hs & Hv). injection Hv as <- <-.
    right. exact (rewrite_store_evaluated _ _ _ _ _ _ _ _ _ Hs v Hin Hmv).
  - apply bind_Ok in Hv as ([body1 b1] & H1 & Hv).
    destruct (negb _).
    + injection Hv as <- <-. exact (IHs _ _ _ H1 v Hin Hmv).
    + apply bind_Ok in Hv as (new_bounds & _ & Hv). injection Hv as <- <-.
      exact (IHs _ _ _ H1 v Hin Hmv).
  - apply bind_Ok in Hv as ([body1 b1] & H1 & Hv).
    destruct (TensorCoreIRMutator.loop_scaling_ tbl !! _).
    + apply bind_Ok in Hv as (new_extent & _ & Hv). injection Hv as <- <-.
      exact (IHs _ _ _ H1 v Hin Hmv).
    + injection Hv as <- <-. exact (IHs _ _ _ H1 v Hin Hmv).
  - apply bind_Ok in Hv as ([seq1 b1] & Hgo & Hv). injection Hv as <- <-.
    cbn [evaluated] in Hin |- *.
    revert bounds_ seq1 b1 Hgo Hin.
    induction H as [|x l Hx _ IH]; intros b seq1 b1 Hgo Hin.
    + injection Hgo as <- <-. destruct Hin.
    + apply bind_Ok in Hgo as ([x1 b2] & Hx1 & Hgo).
      apply bind_Ok in Hgo as ([l1 b3] & Hl1 & Hgo). injection Hgo as <- <-.
      cbn [flat_map] in Hin |- *. apply in_app_or in Hin as [Hin|Hin].
      * destruct (Hx _ _ _ Hx1 v Hin Hmv) as [Hk|Hu]; [left | right; exact Hu].
        apply in_or_app. left. exact Hk.
      * destruct (IH _ _ _ Hl1 Hin) as [Hk|Hu]; [left | right; exact Hu].
        apply in_or_app. right. exact Hk.
  - apply bind_Ok in Hv as ([then1 b1] & H1 & Hv).
    destruct else_case as [e|].
    + apply bind_Ok in Hv as ([e1 b2] & H2 & Hv). injection Hv as <- <-.
      cbn [evaluated] in Hin |- *. apply in_app_or in Hin as [Hin|Hin].
      * destruct (IHs _ _ _ H1 v Hin Hmv) as [Hk|Hu]; [left | right; exact Hu].
        apply in_or_app. left. exact Hk.
      * destruct (H _ _ _ H2 v Hin Hmv) as [Hk|Hu]; [left | right; exact Hu].
        apply in_or_app. right. exact Hk.
    + injection Hv as <- <-.
      cbn [evaluated] in Hin |- *. rewrite app_nil_r in Hin |- *.
      exact (IHs _ _ _ H1 v Hin Hmv).
  - injection Hv as <- <-. left. exact Hin.
Qed.

(** C6, amended: the thread indices are unified in the pointer argument of
    the [tvm_load_matrix_sync] and [tvm_store_matrix_sync] calls the rewriter
    emits, and nowhere else.  After a successful qualification with
    [threadIdx.x] of extent [t_x], every statement of the rewritten tree that
    evaluates one of these two calls is a statement of the input, or the
    sixth argument of its call is [call_extern("&", e)] where [e] holds no
    variable named [threadIdx.x], and a variable named [threadIdx.y] only in
    [(threadIdx.y / w) * w] with [w = 32 / t_x]. *)
Theorem pointer_argument_collapsed Simplify make_const schedule_analyser ba ba' t_x
    s s' :
  BufferAnalyser.thread_extent_ ba !! "threadIdx.x" = Some t_x ->
  BufferAnalyser.QualifiedForTensorCore ba = Ok (true, ba') ->
  TensorCoreIRMutator.run Simplify make_const
    (TensorCoreIRMutator.init schedule_analyser ba') s = Ok s' ->
  forall v, In v (evaluated s') -> moves_fragment v = true ->
            In v (evaluated s) \/ pointer_unified (Z.quot 32 t_x) v = true.
Proof.
  intros Hx Hq Hrun v Hin Hmv.
  unfold TensorCoreIRMutator.run in Hrun.
  apply bind_Ok in Hrun as ([s1 b1] & Hv & Hrun). injection Hrun as <-.
  rewrite <- (QualifiedForTensorCore_warp_threads_y _ _ _ _ Hx Hq eq_refl).
  exact (VisitStmt_evaluated _ _ _ _ _ _ _ Hv v Hin Hmv).
Qed.

Definition unified_analyser : BufferAnalyser.State :=
  BufferAnalyser.with_thread_tile_
    (BufferAnalyser.with_thread_extent_
       (BufferAnalyser.init [] Ex2.no_roles Ex2.no_match)
       (<["threadIdx.y" := 2]> (<["threadIdx.x" := 16]> ∅)))
    (mkTile 1 8 16).

Definition thread_x : VarT := mkVar 401%N "threadIdx.x" Ex.i32.
Definition thread_y : VarT := mkVar 402%N "threadIdx.y" Ex.i32.

(** [A[threadIdx.y, threadIdx.x]] in global memory. *)
Definition global_load : PrimExpr :=
  ProducerLoad 31%N (Ex.tensor 5%N "A.global" Ex.f16) [Var thread_y; Var thread_x].

(** The fragment [A.local] of the tensor [A], loaded by the store at address
    10 from [A.global], whose rows are 16 elements apart. *)
Definition A_local : Tensor := mkTensor 6%N "A.local" "A.local" Ex.f16.

Definition load_analyser : BufferAnalyser.State :=
  BufferAnalyser.with_frag_load_
    (BufferAnalyser.with_strides_ unified_analyser
       (<["A.global" := [IntImm Ex.i32 16; IntImm Ex.i32 1]]> ∅))
    (<[10%N := ProducerLoad fresh_addr A_local [IntImm Ex.i32 0; IntImm Ex.i32 0]]> ∅).

Definition load_roles : ScheduleAnalyser.State :=
  ScheduleAnalyser.mkState (<["A" := "matrix_a"]> ∅) (<["A" := "row_major"]> ∅) [] ∅.

(** [A.local[0, 0] = A.global[threadIdx.y, threadIdx.x]] under the realize of
    the fragment. *)
Definition load_kernel : Stmt :=
  ProducerRealize A_local Ex.tile (IntImm (DT.UInt 1) 1)
    (ProducerStore 10%N A_local global_load [IntImm Ex.i32 0; IntImm Ex.i32 0]).

Lemma pointer_argument_collapsed_witness :
  exists ba' s' args,
    BufferAnalyser.QualifiedForTensorCore load_analyser = Ok (true, ba')
    /\ TensorCoreIRMutator.run Ex2.Simplify Ex2.make_const
         (TensorCoreIRMutator.init load_roles ba') load_kernel = Ok s'
    /\ evaluated s' = [Call fresh_addr DT.Handle builtin.tvm_load_matrix_sync args]
    /\ nth_error args 5
       = Some (Call fresh_addr Ex.f16 builtin.call_extern
                 [StringImm "&";
                  ProducerLoad 31%N (Ex.tensor 5%N "A.global" Ex.f16)
                    [Mul (Div (Var thread_y) (IntImm Ex.i32 2)) (IntImm Ex.i32 2);
                     IntImm Ex.i32 0]])
    /\ pointer_unified (Z.quot 32 16)
         (Call fresh_addr DT.Handle builtin.tvm_load_matrix_sync args) = true.
Proof.
  assert (Hx : BufferAnalyser.thread_extent_ load_analyser !! "threadIdx.x" = Some 16)
    by (vm_compute; reflexivity).
  destruct (BufferAnalyser.QualifiedForTensorCore load_analyser)
    as [[b ba']|f] eqn:Hq; [| vm_compute in Hq; discriminate].
  assert (Hb : b = true) by (vm_compute in Hq; congruence). subst b.
  destruct (TensorCoreIRMutator.run Ex2.Simplify Ex2.make_const
              (TensorCoreIRMutator.init load_roles ba') load_kernel)
    as [s'|f] eqn:Hrun.
  2:{ vm_compute in Hq. injection Hq as <-. vm_compute in Hrun. discriminate. }
  pose proof (pointer_argument_collapsed Ex2.Simplify Ex2.make_const load_roles
                load_analyser ba' 16 load_kernel s' Hx Hq Hrun) as Hu.
  vm_compute in Hq. injection Hq as <-. vm_compute in Hrun. injection Hrun as <-.
  do 3 eexists. split; [vm_compute; reflexivity |].
  split; [vm_compute; reflexivity |]. split; [vm_compute; reflexivity |].
  split; [vm_compute; reflexivity |].
  destruct (Hu _ (or_introl eq_refl) eq_refl) as [[]|Hp]. exact Hp.
Defined.

(** Tables in which the store at address 10 fills the fragment [C]. *)
Definition fill_tables : TensorCoreIRMutator.Tables :=
  TensorCoreIRMutator.mkTables
    (<["C" := "accumulator"]> ∅) (<["C" := "col_major"]> ∅) [] ∅ {["C"]} ∅
    (<[10%N := ProducerLoad fresh_addr Ex.C [Var thread_x; IntImm Ex.i32 0]]> ∅)
    ∅ (mkTile 16 16 16) 2.

(** [C[threadIdx.x, 0] = 0.0] under the realize of [C]. *)
Definition fill_kernel : Stmt :=
  ProducerRealize Ex.C Ex.tile (IntImm (DT.UInt 1) 1)
    (ProducerStore 10%N Ex.C (FloatImm Ex.f32 0) [Var thread_x; IntImm Ex.i32 0]).

(** C6 as stated fails: the indices of a fragment access are copied as
    they are into the tuple of the [buffer_bind_scope] attribute and into
    [elem_offset], which is an argument of the intrinsic.  For the fill
    [C[threadIdx.x, 0] = 0.0] both hold the variable [threadIdx.x]. *)
Lemma fragment_index_keeps_thread_x :
  exists buffer tuple_args call_args new_bounds,
    TensorCoreIRMutator.run Ex2.Simplify Ex2.make_const fill_tables fill_kernel
    = Ok (ProducerRealize Ex.C new_bounds (IntImm (DT.UInt 1) 1)
            (AttrStmt (RefBind fresh_addr buffer Ex.C) "buffer_bind_scope"
               (Call fresh_addr DT.Handle builtin.tvm_tuple tuple_args)
               (TensorCoreIRMutator.intrinsic builtin.tvm_fill_fragment call_args)))
    /\ nth_error tuple_args 0 = Some (Var thread_x)
    /\ nth_error call_args 4 = Some (b_elem_offset buffer)
    /\ thread_collapsed 2 (Var thread_x) = false
    /\ thread_collapsed 2 (b_elem_offset buffer) = false.
Proof.
  do 4 eexists. split; [vm_compute; reflexivity |].
  repeat split; vm_compute; reflexivity.
Qed.






(** ** ScheduleAnalyser: the roles *)

Lemma args_find_None name l :
  BodyVisitor.args_find name l = None -> ~ In name (map fst l).
Proof.
  induction l as [|[k' v] l IH]; simpl; [tauto |].
  destruct (String.eqb name k') eqn:E; [discriminate |].
  apply String.eqb_neq in E. intros Hn [H|H]; [congruence | tauto].
Qed.

Definition names_unique (st : BodyVisitor.State) : Prop :=
  NoDup (map fst (BodyVisitor.args_ st)).

Lemma args_insert_unique name v st :
  names_unique st -> names_unique (BodyVisitor.args_insert name v st).
Proof.
  unfold names_unique, BodyVisitor.args_insert. intros Hn.
  destruct (BodyVisitor.args_find name (BodyVisitor.args_ st)) eqn:E; [exact Hn |].
  cbn [BodyVisitor.args_]. rewrite map_app. cbn [map fst].
  apply args_find_None in E.
  apply NoDup_app. split; [exact Hn |]. split.
  - intros y Hy Hy'. apply list_elem_of_In in Hy.
    apply list_elem_of_singleton in Hy'. subst y. tauto.
  - apply NoDup_singleton.
Qed.

(** One name, one recorded index list. *)
Lemma BodyVisitor_names_unique e :
  forall st st',
    names_unique st -> BodyVisitor.VisitExpr e st = Ok st' -> names_unique st'.
Proof.
  induction e using PrimExpr_nested_ind; cbn [BodyVisitor.VisitExpr];
    intros st st' Hn Hv; simplify_eq; try exact Hn; inv_bind; eauto.
  - simplify_eq. apply args_insert_unique.
    revert Ha. apply foldM_invariant; assumption.
  - revert Hv. apply foldM_invariant; assumption.
  - repeat (case_match; simplify_eq); try exact Hn.
    revert Hv. apply foldM_invariant; [| exact Hn].
    eapply Forall_impl; [exact H |].
    intros src IH s s' Hs Hs'. cbv beta in Hs'.
    case_match; simplify_eq; [exact Hs |]. eapply IH; [| exact Hs']. exact Hs.
Qed.

Lemma insert_new_lookup {V} (key key' : string) (v : V) (mp : gmap string V) :
  insert_new key v mp !! key'
  = match mp !! key' with
    | Some v' => Some v'
    | None => if decide (key = key') then Some v else None
    end.
Proof.
  unfold insert_new. destruct (mp !! key) as [v0|] eqn:E.
  - destruct (mp !! key') eqn:E'; [reflexivity |].
    destruct (decide (key = key')) as [->|]; [congruence | reflexivity].
  - rewrite lookup_insert. destruct (decide (key = key')) as [->|Hne].
    + rewrite E. reflexivity.
    + destruct (mp !! key'); reflexivity.
Qed.

Abbreviation roles_of st name :=
  (ScheduleAnalyser.matrix_abc_ st !! name, ScheduleAnalyser.matrix_major_ st !! name).

(** What one recorded index list does to the two tables. *)
Lemma identify_arg_effect r x y name args st :
  exists st',
    ScheduleAnalyser.identify_arg r x y (name, args) st = Ok st'
    /\ (forall key, key <> name -> roles_of st' key = roles_of st key)
    /\ (forall key role, ScheduleAnalyser.matrix_abc_ st !! key = Some role ->
                         ScheduleAnalyser.matrix_abc_ st' !! key = Some role)
    /\ (forall key major, ScheduleAnalyser.matrix_major_ st !! key = Some major ->
                          ScheduleAnalyser.matrix_major_ st' !! key = Some major)
    /\ (forall var0 var1,
          (2 <= length args)%nat ->
          ScheduleAnalyser.from_end args 1 = Ok (Var var0) ->
          ScheduleAnalyser.from_end args 0 = Ok (Var var1) ->
          roles_of st name = (None, None) ->
          roles_of st' name
          = (Some (fst (ScheduleAnalyser.classify (v_addr var0) (v_addr var1) r x y)),
             Some (snd (ScheduleAnalyser.classify (v_addr var0) (v_addr var1) r x y)))).
Proof.
  unfold ScheduleAnalyser.identify_arg.
  destruct (length args <? 2)%nat eqn:Hlen.
  { eexists. split; [reflexivity |]. repeat split; try done.
    intros ? ? Hl. apply Nat.ltb_lt in Hlen. lia. }
  apply Nat.ltb_ge in Hlen.
  unfold ScheduleAnalyser.from_end, at_index.
  destruct (nth_error args (length args - 1 - 1)) as [a0|] eqn:E0;
    [| apply nth_error_None in E0; lia].
  destruct (nth_error args (length args - 1 - 0)) as [a1|] eqn:E1;
    [| apply nth_error_None in E1; lia].
  cbn [bind].
  destruct (as_Var a0) as [var0|] eqn:V0, (as_Var a1) as [var1|] eqn:V1.
  2-4: eexists; split; [reflexivity |]; repeat split; try done;
       intros ? ? _ ? ?; simplify_eq; simpl in *; discriminate.
  destruct (ScheduleAnalyser.classify _ _ _ _ _) as [abc major] eqn:Ec.
  eexists. split; [reflexivity |].
  cbn [ScheduleAnalyser.set_roles ScheduleAnalyser.matrix_abc_
       ScheduleAnalyser.matrix_major_].
  repeat split.
  - intros key Hne. rewrite !insert_new_lookup.
    destruct (decide (name = key)); [congruence |].
    f_equal; case_match; reflexivity.
  - intros key role Hk. rewrite insert_new_lookup, Hk. reflexivity.
  - intros key mj Hk. rewrite insert_new_lookup, Hk. reflexivity.
  - intros v0 v1 _ H0 H1 Hnone.
    injection H0 as ->. injection H1 as ->. cbn [as_Var] in V0, V1.
    injection V0 as <-. injection V1 as <-.
    injection Hnone as Ha Hm. rewrite !insert_new_lookup, Ha, Hm, Ec.
    rewrite !decide_True by reflexivity. reflexivity.
Qed.

(** The loop over the recorded index lists. *)
Lemma identify_args_effect r x y l :
  NoDup (map fst l) ->
  forall st,
  exists st',
    foldM (ScheduleAnalyser.identify_arg r x y) l st = Ok st'
    /\ (forall key, ~ In key (map fst l) -> roles_of st' key = roles_of st key)
    /\ (forall key role, ScheduleAnalyser.matrix_abc_ st !! key = Some role ->
                         ScheduleAnalyser.matrix_abc_ st' !! key = Some role)
    /\ (forall key major, ScheduleAnalyser.matrix_major_ st !! key = Some major ->
                          ScheduleAnalyser.matrix_major_ st' !! key = Some major)
    /\ (forall name args var0 var1,
          In (name, args) l ->
          (2 <= length args)%nat ->
          ScheduleAnalyser.from_end args 1 = Ok (Var var0) ->
          ScheduleAnalyser.from_end args 0 = Ok (Var var1) ->
          roles_of st name = (None, None) ->
          roles_of st' name
          = (Some (fst (ScheduleAnalyser.classify (v_addr var0) (v_addr var1) r x y)),
             Some (snd (ScheduleAnalyser.classify (v_addr var0) (v_addr var1) r x y)))).
Proof.
  induction l as [|[name args] l IH]; intros Hnd st.
  { exists st. split; [reflexivity |]. repeat split; try done; intros ? ? ? ? []. }
  cbn [map fst] in Hnd. apply NoDup_cons in Hnd as [Hnotin Hnd].
  rewrite list_elem_of_In in Hnotin.
  destruct (identify_arg_effect r x y name args st) as (st1 & H1 & Ho1 & Ha1 & Hm1 & Hr1).
  destruct (IH Hnd st1) as (st' & H2 & Ho2 & Ha2 & Hm2 & Hr2).
  exists st'. cbn [foldM]. rewrite H1. cbn [bind]. split; [exact H2 |].
  repeat split.
  - intros key Hk. cbn [map fst] in Hk.
    rewrite Ho2 by (intros Hin; apply Hk; right; exact Hin).
    apply Ho1. intros ->. apply Hk. left. reflexivity.
  - eauto.
  - eauto.
  - intros name' args' v0 v1 [Hin|Hin] Hlen H0 Hv1 Hnone.
    + injection Hin as <- <-. rewrite (Ho2 name Hnotin).
      apply Hr1; assumption.
    + assert (name' <> name).
      { intros ->. apply Hnotin. apply in_map_iff. exists (name, args'). auto. }
      apply (Hr2 name' args' v0 v1 Hin Hlen H0 Hv1).
      rewrite Ho1 by assumption. exact Hnone.
Qed.

Lemma classify_table i j r x y :
  r <> x -> r <> y -> x <> y ->
  (i = r /\ j = y -> ScheduleAnalyser.classify i j r x y = ("matrix_a", "col_major"))
  /\ (i = r /\ j = x -> ScheduleAnalyser.classify i j r x y = ("matrix_b", "row_major"))
  /\ (i = y /\ j = r -> ScheduleAnalyser.classify i j r x y = ("matrix_a", "row_major"))
  /\ (i = x /\ j = r -> ScheduleAnalyser.classify i j r x y = ("matrix_b", "col_major")).
Proof.
  intros Hrx Hry Hxy. unfold ScheduleAnalyser.classify.
  repeat split; intros [-> ->]; rewrite ?N.eqb_refl; cbn [andb];
    repeat match goal with
    | |- context [N.eqb ?a ?b] =>
        let E := fresh in
        destruct (N.eqb a b) eqn:E; [apply N.eqb_eq in E; congruence |]; cbn [andb]
    end; reflexivity.
Qed.

(** C3, amended: one output stage with at least two spatial axes and one
    reduction axis [r], whose body the visitor walks to the end.  When the
    visitor has not set [tensorcore_candidate_], the stage registers nothing,
    not even the accumulator.  When it has, with [x], [y] the last two
    spatial axes and the three axis variables distinct, every recorded index
    list of a name that has no entry yet gets the role and layout of the
    table, by the last two indices [(i, j)], and the name of the stage
    becomes [accumulator] / [col_major] when it has no entry yet and is the
    name of no recorded tensor.  In both cases an entry that exists is never
    overwritten. *)
Theorem roles_follow_table name axis r body x y bv st :
  (2 <= length axis)%nat ->
  ScheduleAnalyser.from_end axis 1 = Ok x ->
  ScheduleAnalyser.from_end axis 0 = Ok y ->
  foldM BodyVisitor.VisitExpr body BodyVisitor.init = Ok bv ->
  let R := v_addr (iv_var r) in
  let X := v_addr (iv_var x) in
  let Y := v_addr (iv_var y) in
  exists st',
    ScheduleAnalyser.identify_output (ComputeOp name axis [r] body) st = Ok st'
    /\ (BodyVisitor.tensorcore_candidate_ bv = false -> st' = st)
    /\ (BodyVisitor.tensorcore_candidate_ bv = true ->
        R <> X -> R <> Y -> X <> Y ->
        (forall tensor indices i j,
           In (tensor, indices) (BodyVisitor.args_ bv) ->
           (2 <= length indices)%nat ->
           ScheduleAnalyser.from_end indices 1 = Ok (Var i) ->
           ScheduleAnalyser.from_end indices 0 = Ok (Var j) ->
           roles_of st tensor = (None, None) ->
           (v_addr i = R /\ v_addr j = Y ->
            roles_of st' tensor = (Some "matrix_a", Some "col_major"))
           /\ (v_addr i = R /\ v_addr j = X ->
               roles_of st' tensor = (Some "matrix_b", Some "row_major"))
           /\ (v_addr i = Y /\ v_addr j = R ->
               roles_of st' tensor = (Some "matrix_a", Some "row_major"))
           /\ (v_addr i = X /\ v_addr j = R ->
               roles_of st' tensor = (Some "matrix_b", Some "col_major")))
        /\ (roles_of st name = (None, None) ->
            (forall indices, ~ In (name, indices) (BodyVisitor.args_ bv)) ->
            roles_of st' name = (Some "accumulator", Some "col_major")))
    /\ (forall key role, ScheduleAnalyser.matrix_abc_ st !! key = Some role ->
                         ScheduleAnalyser.matrix_abc_ st' !! key = Some role)
    /\ (forall key major, ScheduleAnalyser.matrix_major_ st !! key = Some major ->
                          ScheduleAnalyser.matrix_major_ st' !! key = Some major).
Proof.
  intros Hlen Hx Hy Hbv R X Y.
  assert (Hu : names_unique bv).
  { revert Hbv. apply (foldM_invariant _ names_unique).
    - apply Forall_forall. intros e _. apply BodyVisitor_names_unique.
    - constructor. }
  destruct (identify_args_effect R X Y (BodyVisitor.args_ bv) Hu st)
    as (st1 & H1 & Ho & Ha & Hm & Hr).
  cbn [ScheduleAnalyser.identify_output length].
  replace ((length axis <? 2)%nat || negb (1 =? 1)%nat) with false
    by (symmetry; apply orb_false_iff; split; [apply Nat.ltb_ge; lia | reflexivity]).
  rewrite Hx, Hy. cbn [bind at_index]. unfold at_index. cbn [nth_error bind].
  rewrite Hbv. cbn [bind].
  destruct (BodyVisitor.tensorcore_candidate_ bv); cbn [negb].
  2:{ exists st. split; [reflexivity |]. split; [reflexivity |].
      split; [discriminate |]. split; auto. }
  fold R X Y. rewrite H1. cbn [bind].
  eexists. split; [reflexivity |]. split; [discriminate |].
  cbn [ScheduleAnalyser.set_roles ScheduleAnalyser.matrix_abc_
       ScheduleAnalyser.matrix_major_].
  split; [intros _ Hrx Hry Hxy; split |].
  - intros tensor indices i j Hin Hl Hi Hj Hnone.
    pose proof (Hr tensor indices i j Hin Hl Hi Hj Hnone) as Hrole.
    destruct (classify_table (v_addr i) (v_addr j) R X Y Hrx Hry Hxy)
      as (T1 & T2 & T3 & T4).
    repeat split; intros [Ei Ej];
      first [rewrite (T1 (conj Ei Ej)) in Hrole
            | rewrite (T2 (conj Ei Ej)) in Hrole
            | rewrite (T3 (conj Ei Ej)) in Hrole
            | rewrite (T4 (conj Ei Ej)) in Hrole];
      cbn [fst snd] in Hrole; injection Hrole as Hr1 Hr2;
      rewrite !insert_new_lookup, Hr1, Hr2; reflexivity.
  - intros Hnone Hfresh.
    assert (Hnot : ~ In name (map fst (BodyVisitor.args_ bv))).
    { intros Hin. apply in_map_iff in Hin as ([n' a'] & Hn & Hin).
      cbn [fst] in Hn. subst n'. exact (Hfresh a' Hin). }
    pose proof (Ho name Hnot) as Hsame. rewrite Hnone in Hsame.
    injection Hsame as Hs1 Hs2.
    rewrite !insert_new_lookup, Hs1, Hs2, !decide_True by reflexivity. reflexivity.
  - split.
    + intros key role Hk. rewrite insert_new_lookup, (Ha _ _ Hk). reflexivity.
    + intros key major Hk. rewrite insert_new_lookup, (Hm _ _ Hk). reflexivity.
Qed.



(** A second output stage, [D[i, j] = sum_k cast(A[k, j]) * cast(B[k, i])],
    which reads the tensors of [Ex2.matmul] transposed. *)
Definition i2 : VarT := mkVar 111%N "i" Ex.i32.
Definition j2 : VarT := mkVar 112%N "j" Ex.i32.
Definition k2 : VarT := mkVar 113%N "k" Ex.i32.

Definition transposed_body : list PrimExpr :=
  [Reduce Ex.f32 [Add (Var (mkVar 311%N "x" Ex.f32)) (Var (mkVar 312%N "y" Ex.f32))]
          [Mul (Cast Ex.f32 (Ex.load 23%N Ex.A k2 j2))
               (Cast Ex.f32 (Ex.load 24%N Ex.B k2 i2))]
          [(k2, (IntImm Ex.i32 0, IntImm Ex.i32 16))]
          (IntImm (DT.UInt 1) 1)].

Definition transposed : Operation :=
  ComputeOp "D" [Ex2.axis i2 211%N; Ex2.axis j2 212%N] [Ex2.axis k2 213%N]
            transposed_body.

(** C3 as stated fails: in the second stage the index list [A[k, j]] is
    recorded, [k] is the reduction axis and [j] the last spatial axis, so
    the table gives [matrix_a] / [col_major]; the tables keep what the first
    stage registered for [A], [matrix_b] / [col_major]. *)
Lemma second_stage_keeps_first_roles :
  exists bv st,
    foldM BodyVisitor.VisitExpr transposed_body BodyVisitor.init = Ok bv
    /\ BodyVisitor.tensorcore_candidate_ bv = true
    /\ In ("A", [Var k2; Var j2]) (BodyVisitor.args_ bv)
    /\ ScheduleAnalyser.MatrixIdentify (mkSchedule [Ex2.matmul; transposed])
         Ex2.no_roles = Ok (true, st)
    /\ roles_of st "A" = (Some "matrix_b", Some "col_major")
    /\ ScheduleAnalyser.classify (v_addr k2) (v_addr j2) (v_addr k2) (v_addr i2)
         (v_addr j2) = ("matrix_a", "col_major").
Proof.
  do 2 eexists. split; [vm_compute; reflexivity |].
  split; [reflexivity |]. split; [left; reflexivity |].
  split; [vm_compute; reflexivity |].
  split; vm_compute; reflexivity.
Qed.

(** The stage [S[i, j] = sum_k cast(A[i, k])]: a reduction whose source is no
    product. *)
Definition row_sum : Operation :=
  ComputeOp "S" [Ex2.axis Ex.i 201%N; Ex2.axis Ex.j 202%N] [Ex2.axis Ex.kk 203%N]
    [Reduce Ex.f32
       [Add (Var (mkVar 301%N "x" Ex.f32)) (Var (mkVar 302%N "y" Ex.f32))]
       [Cast Ex.f32 (Ex.load 21%N Ex.A Ex.i Ex.kk)]
       [(Ex.kk, (IntImm Ex.i32 0, IntImm Ex.i32 16))]
       (IntImm (DT.UInt 1) 1)].

Lemma roles_follow_table_witness :
  (exists st',
     ScheduleAnalyser.identify_output Ex2.matmul Ex2.no_roles = Ok st'
     /\ roles_of st' "A" = (Some "matrix_b", Some "col_major")
     /\ roles_of st' "B" = (Some "matrix_a", Some "row_major")
     /\ roles_of st' "C" = (Some "accumulator", Some "col_major"))
  /\ ScheduleAnalyser.identify_output row_sum Ex2.no_roles = Ok Ex2.no_roles.
Proof.
  split.
  - set (bv := BodyVisitor.mkState
                 [("A", [Var Ex.i; Var Ex.kk]); ("B", [Var Ex.j; Var Ex.kk])] true).
    destruct (roles_follow_table "C" [Ex2.axis Ex.i 201%N; Ex2.axis Ex.j 202%N]
                (Ex2.axis Ex.kk 203%N)
                [Reduce Ex.f32
                   [Add (Var (mkVar 301%N "x" Ex.f32)) (Var (mkVar 302%N "y" Ex.f32))]
                   [Mul (Cast Ex.f32 (Ex.load 21%N Ex.A Ex.i Ex.kk))
                        (Cast Ex.f32 (Ex.load 22%N Ex.B Ex.j Ex.kk))]
                   [(Ex.kk, (IntImm Ex.i32 0, IntImm Ex.i32 16))]
                   (IntImm (DT.UInt 1) 1)]
                (Ex2.axis Ex.i 201%N) (Ex2.axis Ex.j 202%N) bv Ex2.no_roles
                (le_n 2) eq_refl eq_refl eq_refl)
      as (st' & Hout & _ & Hcand & _).
    destruct Hcand as (Hrows & Hacc); [reflexivity | discriminate..|].
    exists st'. split; [exact Hout |].
    split; [| split].
    + refine (proj2 (proj2 (proj2
        (Hrows "A" [Var Ex.i; Var Ex.kk] Ex.i Ex.kk _ _ eq_refl eq_refl eq_refl))) _).
      * left. reflexivity.
      * cbn [length]. lia.
      * split; reflexivity.
    + refine (proj1 (proj2 (proj2
        (Hrows "B" [Var Ex.j; Var Ex.kk] Ex.j Ex.kk _ _ eq_refl eq_refl eq_refl))) _).
      * right. left. reflexivity.
      * cbn [length]. lia.
      * split; reflexivity.
    + apply Hacc; [reflexivity |].
      intros indices [H|[H|[]]]; discriminate.
  - set (bv := BodyVisitor.mkState [] false).
    destruct (roles_follow_table "S" [Ex2.axis Ex.i 201%N; Ex2.axis Ex.j 202%N]
                (Ex2.axis Ex.kk 203%N)
                [Reduce Ex.f32
                   [Add (Var (mkVar 301%N "x" Ex.f32)) (Var (mkVar 302%N "y" Ex.f32))]
                   [Cast Ex.f32 (Ex.load 21%N Ex.A Ex.i Ex.kk)]
                   [(Ex.kk, (IntImm Ex.i32 0, IntImm Ex.i32 16))]
                   (IntImm (DT.UInt 1) 1)]
                (Ex2.axis Ex.i 201%N) (Ex2.axis Ex.j 202%N) bv Ex2.no_roles
                (le_n 2) eq_refl eq_refl eq_refl)
      as (st' & Hout & Hnot & _).
    rewrite (Hnot eq_refl) in Hout. exact Hout.
Defined.



(** ** Further evaluations *)

(** When the qualification returns [false], the last stage of the driver
    returns its input. *)
Lemma rewrite_qualified_unqualified Simplify make_const op_add op_sub op_mul indexmod
    stmt extern_buffer schedule_analyser mma_matcher ba ba' :
  BufferAnalyser.run Simplify make_const op_add op_sub op_mul indexmod
    extern_buffer schedule_analyser mma_matcher stmt = Ok ba ->
  BufferAnalyser.QualifiedForTensorCore ba = Ok (false, ba') ->
  rewrite_qualified Simplify make_const op_add op_sub op_mul indexmod
    stmt extern_buffer schedule_analyser mma_matcher = Ok stmt.
Proof.
  intros Hrun Hq. unfold rewrite_qualified. rewrite Hrun. cbn [bind].
  rewrite Hq. reflexivity.
Qed.

(** A block of 8 by 3 threads: [3 < 32 / 8]. *)
Lemma rewrite_qualified_unqualified_witness :
  exists ba ba',
    BufferAnalyser.run Ex2.Simplify Ex2.make_const Add Sub Mul Ex2.indexmod
      [] Ex2.no_roles Ex2.no_match (Ex2.threads 8 3 Ex.plain) = Ok ba
    /\ BufferAnalyser.QualifiedForTensorCore ba = Ok (false, ba')
    /\ rewrite_qualified Ex2.Simplify Ex2.make_const Add Sub Mul Ex2.indexmod
         (Ex2.threads 8 3 Ex.plain) [] Ex2.no_roles Ex2.no_match
       = Ok (Ex2.threads 8 3 Ex.plain).
Proof.
  destruct (BufferAnalyser.run Ex2.Simplify Ex2.make_const Add Sub Mul Ex2.indexmod
              [] Ex2.no_roles Ex2.no_match (Ex2.threads 8 3 Ex.plain))
    as [ba|f] eqn:Hrun; [| vm_compute in Hrun; discriminate].
  destruct (BufferAnalyser.QualifiedForTensorCore ba) as [[b ba']|f] eqn:Hq.
  - assert (b = false) as ->.
    { vm_compute in Hrun. injection Hrun as <-. vm_compute in Hq.
      injection Hq as <- _. reflexivity. }
    exists ba, ba'. split; [reflexivity |]. split; [exact Hq |].
    exact (rewrite_qualified_unqualified Ex2.Simplify Ex2.make_const Add Sub Mul
             Ex2.indexmod (Ex2.threads 8 3 Ex.plain) [] Ex2.no_roles Ex2.no_match
             ba ba' Hrun Hq).
  - vm_compute in Hrun. injection Hrun as <-. vm_compute in Hq. discriminate.
Defined.

Lemma get_tile_size_inputs_witness :
  TensorCoreIRMutator.get_tile_size_ Ex2.make_const example_tables "A"
  = Ok (IntImm Ex.i32 8, IntImm Ex.i32 16)
  /\ TensorCoreIRMutator.get_tile_size_ Ex2.make_const example_tables "B"
     = Ok (IntImm Ex.i32 32, IntImm Ex.i32 16).
Proof.
  split.
  - exact (proj1 (proj2 (get_tile_size_inputs Ex2.make_const example_tables
                           "A" "matrix_a" "row_major" eq_refl eq_refl))
                 eq_refl eq_refl).
  - exact (proj1 (proj2 (proj2 (get_tile_size_inputs Ex2.make_const example_tables
                                  "B" "matrix_b" "col_major" eq_refl eq_refl)))
                 eq_refl eq_refl).
Defined.

Lemma realize_rewrite_witness :
  TensorCoreIRMutator.VisitStmt Ex2.Simplify Ex2.make_const example_tables
    (ProducerRealize Ex.A
       ([mkRange (IntImm Ex.i32 0) (IntImm Ex.i32 4)]
        ++ [mkRange (IntImm Ex.i32 0) (IntImm Ex.i32 64);
            mkRange (IntImm Ex.i32 0) (IntImm Ex.i32 64)])
       (IntImm (DT.UInt 1) 1) (Evaluate (IntImm Ex.i32 0))) ∅
  = Ok (ProducerRealize Ex.A
          ([mkRange (IntImm Ex.i32 0) (IntImm Ex.i32 4)]
           ++ [mkRange (IntImm Ex.i32 0) (IntImm Ex.i32 8);
               mkRange (IntImm Ex.i32 0) (IntImm Ex.i32 16)])
          (IntImm (DT.UInt 1) 1) (Evaluate (IntImm Ex.i32 0)),
        <[t_addr Ex.A :=
            [mkRange (IntImm Ex.i32 0) (IntImm Ex.i32 4)]
            ++ [mkRange (IntImm Ex.i32 0) (IntImm Ex.i32 64);
                mkRange (IntImm Ex.i32 0) (IntImm Ex.i32 64)]]> ∅).
Proof.
  apply (realize_rewrite Ex2.Simplify Ex2.make_const example_tables Ex.A
           [mkRange (IntImm Ex.i32 0) (IntImm Ex.i32 4)]
           (mkRange (IntImm Ex.i32 0) (IntImm Ex.i32 64))
           (mkRange (IntImm Ex.i32 0) (IntImm Ex.i32 64))
           (IntImm (DT.UInt 1) 1) (Evaluate (IntImm Ex.i32 0))
           (IntImm Ex.i32 8) (IntImm Ex.i32 16) ∅).
  - apply (bool_decide_unpack _). vm_compute. exact I.
  - vm_compute. reflexivity.
Defined.

Lemma tensor_core_on_stays_witness :
  exists st',
    MMAMatcher.VisitStmt Ex.plain
      (MMAMatcher.set_tensor_core_on (MMAMatcher.init []) true) = Ok st'
    /\ MMAMatcher.tensor_core_on_ st' = true.
Proof.
  destruct (MMAMatcher.VisitStmt Ex.plain
              (MMAMatcher.set_tensor_core_on (MMAMatcher.init []) true))
    as [st'|f] eqn:E; [| vm_compute in E; discriminate].
  exists st'. split; [reflexivity |].
  exact (tensor_core_on_stays Ex.plain
           (MMAMatcher.set_tensor_core_on (MMAMatcher.init []) true) st' eq_refl E).
Defined.

(** X4: Whenever the matcher has matched a store, the role analysis that the
    driver runs next does not return. *)
Lemma role_analysis_fails_after_match extern_buffer stmt schedule mm :
  MMAMatcher.run extern_buffer stmt = Ok mm ->
  MMAMatcher.Matched mm = true ->
  exists f,
    ScheduleAnalyser.MatrixIdentify schedule (ScheduleAnalyser.init mm) = Err f.
Proof.
  intros Hrun Hm.
  exact (MatrixIdentify_after_match schedule mm (matcher_inv_run _ _ _ Hrun) Hm).
Qed.

Lemma role_analysis_fails_after_match_witness :
  exists mm f,
    MMAMatcher.run [] Ex.nested = Ok mm
    /\ MMAMatcher.Matched mm = true
    /\ ScheduleAnalyser.MatrixIdentify Ex2.schedule (ScheduleAnalyser.init mm) = Err f.
Proof.
  destruct (MMAMatcher.run [] Ex.nested) as [mm|f] eqn:E; [| vm_compute in E; discriminate].
  assert (Hm : MMAMatcher.Matched mm = true).
  { vm_compute in E. injection E as <-. reflexivity. }
  destruct (role_analysis_fails_after_match [] Ex.nested Ex2.schedule mm E Hm)
    as [f Hf].
  exists mm, f. auto.
Defined.

(** X5: The dtype tests a match has passed: the first factor's buffer has one
    of the six low-precision types; the second factor's buffer has one of
    the first four, unless the first factor's buffer is of type uint4 or
    int1. *)
Lemma match_factors_dtypes op_addr add_a mul_a mul_b buffer_c st st' :
  MMAMatcher.match_factors op_addr add_a mul_a mul_b buffer_c st = Ok (true, st') ->
  exists load_a_expr load_a buffer_a load_b_expr load_b buffer_b,
    unpack_type_cast mul_a (MMAMatcher.dtype buffer_c) = Some load_a_expr
    /\ as_ProducerLoad load_a_expr = Some load_a
    /\ MMAMatcher.check_local_buffer_ load_a st = Some buffer_a
    /\ unpack_type_cast mul_b (MMAMatcher.dtype buffer_c) = Some load_b_expr
    /\ as_ProducerLoad load_b_expr = Some load_b
    /\ MMAMatcher.check_local_buffer_ load_b st = Some buffer_b
    /\ MMAMatcher.dtype_in (MMAMatcher.dtype buffer_a) low_precision = true
    /\ (MMAMatcher.dtype_in (MMAMatcher.dtype buffer_b)
          [DT.Float 16; DT.Int 8; DT.UInt 8; DT.Int 4] = true
        \/ MMAMatcher.dtype buffer_a = DT.UInt 4
        \/ MMAMatcher.dtype buffer_a = DT.Int 1).
Proof.
  unfold MMAMatcher.match_factors. intros H.
  apply bind_Ok in H as (load_a_expr & Hae & H).
  apply bind_Ok in H as (load_a & Ha & H).
  destruct (MMAMatcher.check_local_buffer_ load_a st) as [buffer_a|] eqn:Hca;
    [| discriminate].
  destruct (negb (MMAMatcher.dtype_ok_a buffer_a)) eqn:Hda; [discriminate |].
  apply bind_Ok in H as (load_b_expr & Hbe & H).
  apply bind_Ok in H as (load_b & Hb & H).
  destruct (MMAMatcher.check_local_buffer_ load_b st) as [buffer_b|] eqn:Hcb;
    [| discriminate].
  destruct (negb (MMAMatcher.dtype_ok_b buffer_a buffer_b)) eqn:Hdb; [discriminate |].
  unfold deref in *. repeat case_match; simplify_eq.
  exists load_a_expr, load_a, buffer_a, load_b_expr, load_b, buffer_b.
  repeat split; try assumption.
  - apply negb_false_iff in Hda. exact Hda.
  - apply negb_false_iff in Hdb. unfold MMAMatcher.dtype_ok_b in Hdb.
    apply orb_true_iff in Hdb as [Hdb|Hdb]; [apply orb_true_iff in Hdb as [Hdb|Hdb] |].
    + left. exact Hdb.
    + right. left. apply bool_decide_eq_true_1 in Hdb. exact Hdb.
    + right. right. apply bool_decide_eq_true_1 in Hdb. exact Hdb.
Qed.

(** The matcher at the store of [Ex.float_B]: the three buffers realized in
    local scope, matching switched on. *)
Definition at_float_B_store : MMAMatcher.State :=
  MMAMatcher.mkState
    (<[3%N := MMAMatcher.mkBufferInfo "B" Ex.f32 false false]>
       (<[2%N := MMAMatcher.mkBufferInfo "A" (DT.Int 1) false false]>
          (<[1%N := MMAMatcher.mkBufferInfo "C" Ex.i32 false false]> ∅)))
    (<[3%N := "local"]> (<[2%N := "local"]> (<[1%N := "local"]> ∅)))
    [] ∅ ∅ false true.

Lemma match_factors_dtypes_witness :
  exists st' buffer_a buffer_b,
    MMAMatcher.match_factors 10%N (Ex.load 11%N Ex.Ci Ex.i Ex.j)
      (Cast Ex.i32 (Ex.load 12%N Ex.A1 Ex.i Ex.kk))
      (Cast Ex.i32 (Ex.load 13%N Ex.Bf Ex.j Ex.kk))
      (MMAMatcher.mkBufferInfo "C" Ex.i32 false false) at_float_B_store
    = Ok (true, st')
    /\ MMAMatcher.dtype buffer_a = DT.Int 1
    /\ MMAMatcher.dtype buffer_b = DT.Float 32
    /\ MMAMatcher.dtype_in (MMAMatcher.dtype buffer_a) low_precision = true.
Proof.
  destruct (MMAMatcher.match_factors 10%N (Ex.load 11%N Ex.Ci Ex.i Ex.j)
              (Cast Ex.i32 (Ex.load 12%N Ex.A1 Ex.i Ex.kk))
              (Cast Ex.i32 (Ex.load 13%N Ex.Bf Ex.j Ex.kk))
              (MMAMatcher.mkBufferInfo "C" Ex.i32 false false) at_float_B_store)
    as [[b st']|f] eqn:E; [| vm_compute in E; discriminate].
  assert (b = true) as -> by (vm_compute in E; congruence).
  destruct (match_factors_dtypes _ _ _ _ _ _ _ E)
    as (ea & la & ba & eb & lb & bb & Hea & Hla & Hba & Heb & Hlb & Hbb & Hda & _).
  exists st', ba, bb. split; [reflexivity |].
  vm_compute in Hea. injection Hea as <-. vm_compute in Hla. injection Hla as <-.
  vm_compute in Hba. injection Hba as <-.
  vm_compute in Heb. injection Heb as <-. vm_compute in Hlb. injection Hlb as <-.
  vm_compute in Hbb. injection Hbb as <-.
  repeat split; reflexivity.
Defined.

(** X6: A statement the pass returns is the statement it was given: in this
    file no rewritten tree leaves the driver. *)
Lemma pass_output_is_input Simplify make_const op_add op_sub op_mul indexmod
    env stmt schedule extern_buffer out :
  SchedulePostProcRewriteForTensorCore Simplify make_const op_add op_sub op_mul
    indexmod env stmt schedule extern_buffer = Ok out ->
  out = stmt.
Proof. apply pass_returns_input. Qed.

Lemma pass_output_is_input_witness :
  SchedulePostProcRewriteForTensorCore Ex2.Simplify Ex2.make_const Add Sub Mul
    Ex2.indexmod Ex2.cuda Ex.sibling Ex2.schedule [] = Err Undefined
  /\ SchedulePostProcRewriteForTensorCore Ex2.Simplify Ex2.make_const Add Sub Mul
       Ex2.indexmod (mkEnv (Some "llvm") true) Ex.sibling Ex2.schedule []
     = Ok Ex.sibling
  /\ Ex.sibling = Ex.sibling.
Proof.
  split; [vm_compute; reflexivity |].
  assert (H : SchedulePostProcRewriteForTensorCore Ex2.Simplify Ex2.make_const Add Sub
                Mul Ex2.indexmod (mkEnv (Some "llvm") true) Ex.sibling Ex2.schedule []
              = Ok Ex.sibling) by (vm_compute; reflexivity).
  split; [exact H |].
  exact (pass_output_is_input Ex2.Simplify Ex2.make_const Add Sub Mul Ex2.indexmod
           _ _ _ _ _ H).
Defined.

(** * Further properties of the stages *)

(** ** Names *)

Fixpoint has_dot (s : string) : bool :=
  match s with
  | EmptyString => false
  | String c rest => Ascii.eqb c "." || has_dot rest
  end.

(** X7: [simplify_name] cuts a name at its first dot: a name without a dot is
    returned as it is, and whatever follows the first dot is dropped, further
    dots included. *)
Lemma simplify_name_cuts_at_first_dot pre post :
  has_dot pre = false ->
  simplify_name pre = pre
  /\ simplify_name (String.append pre (String "." post)) = pre
  /\ simplify_name (simplify_name (String.append pre (String "." post)))
     = simplify_name (String.append pre (String "." post)).
Proof.
  intros Hd.
  assert (H1 : simplify_name pre = pre).
  { induction pre as [|c pre IH]; simpl in *; [reflexivity |].
    apply orb_false_iff in Hd as [Hc Hd]. rewrite Hc, (IH Hd). reflexivity. }
  assert (H2 : simplify_name (String.append pre (String "." post)) = pre).
  { clear H1. induction pre as [|c pre IH]; simpl in *; [reflexivity |].
    apply orb_false_iff in Hd as [Hc Hd]. rewrite Hc, (IH Hd). reflexivity. }
  split; [exact H1 |]. split; [exact H2 |]. rewrite H2. exact H1.
Qed.

Lemma simplify_name_cuts_at_first_dot_witness :
  simplify_name "A" = "A"
  /\ simplify_name "A.shared.local" = "A"
  /\ simplify_name (simplify_name "A.shared.local") = simplify_name "A.shared.local".
Proof.
  exact (simplify_name_cuts_at_first_dot "A" "shared.local" eq_refl).
Defined.

(** ** ThreadIdxMutator: where it changes nothing *)

Definition thread_var (v : VarT) : bool :=
  String.eqb (name_hint v) "threadIdx.x" || String.eqb (name_hint v) "threadIdx.y".

Lemma map_id_Forall {A} (f : A -> A) (l : list A) :
  map f l = l <-> Forall (fun x => f x = x) l.
Proof.
  induction l as [|x l IH]; simpl.
  - split; [constructor | reflexivity].
  - split.
    + intros H. injection H as Hx Hl. constructor; [exact Hx | apply IH, Hl].
    + intros H. apply Forall_cons in H as [Hx Hl]. rewrite Hx. f_equal. apply IH, Hl.
Qed.

Lemma existsb_concat_map {A B} (f : A -> list B) (p : B -> bool) (l : list A) :
  existsb p (concat (map f l)) = existsb (fun x => existsb p (f x)) l.
Proof.
  induction l as [|x l IH]; simpl; [reflexivity |].
  rewrite existsb_app, IH. reflexivity.
Qed.

(** X8: The mutator hands an expression back unchanged exactly when the
    traversal reaches no variable named [threadIdx.x] or [threadIdx.y] in
    it. *)
Lemma ThreadIdxMutator_changes_thread_variables_only warp_y e :
  ThreadIdxMutator warp_y e = e <-> existsb thread_var (expr_vars e) = false.
Proof.
  induction e using PrimExpr_nested_ind; cbn [ThreadIdxMutator expr_vars].
  - cbn [existsb]. unfold thread_var. rewrite orb_false_r.
    destruct (String.eqb (name_hint v) "threadIdx.x"); [split; discriminate |].
    destruct (String.eqb (name_hint v) "threadIdx.y"); [split; discriminate |].
    split; reflexivity.
  - split; reflexivity.
  - split; reflexivity.
  - split; reflexivity.
  - rewrite <- IHe. split; [intros H; injection H as H; exact H | intros ->; reflexivity].
  - rewrite existsb_app, orb_false_iff, <- IHe1, <- IHe2.
    split; [intros H; injection H as H1 H2; auto | intros [-> ->]; reflexivity].
  - rewrite existsb_app, orb_false_iff, <- IHe1, <- IHe2.
    split; [intros H; injection H as H1 H2; auto | intros [-> ->]; reflexivity].
  - rewrite existsb_app, orb_false_iff, <- IHe1, <- IHe2.
    split; [intros H; injection H as H1 H2; auto | intros [-> ->]; reflexivity].
  - rewrite existsb_app, orb_false_iff, <- IHe1, <- IHe2.
    split; [intros H; injection H as H1 H2; auto | intros [-> ->]; reflexivity].
  - rewrite existsb_concat_map.
    assert (Hl : map (ThreadIdxMutator warp_y) indices = indices
                 <-> existsb (fun x => existsb thread_var (expr_vars x)) indices = false).
    { rewrite map_id_Forall. induction H as [|x l Hx _ IH]; simpl.
      - split; [reflexivity | constructor].
      - rewrite orb_false_iff, <- Hx, <- IH. rewrite Forall_cons. reflexivity. }
    rewrite <- Hl.
    split; [intros E; injection E as E; exact E | intros ->; reflexivity].
  - rewrite existsb_concat_map.
    assert (Hl : map (ThreadIdxMutator warp_y) args = args
                 <-> existsb (fun x => existsb thread_var (expr_vars x)) args = false).
    { rewrite map_id_Forall. induction H as [|x l Hx _ IH]; simpl.
      - split; [reflexivity | constructor].
      - rewrite orb_false_iff, <- Hx, <- IH. rewrite Forall_cons. reflexivity. }
    rewrite <- Hl.
    split; [intros E; injection E as E; exact E | intros ->; reflexivity].
  - rewrite !existsb_app, !existsb_concat_map, !orb_false_iff.
    assert (Hs : map (ThreadIdxMutator warp_y) source = source
                 <-> existsb (fun x => existsb thread_var (expr_vars x)) source = false).
    { rewrite map_id_Forall. clear -H. induction H as [|x l Hx _ IH]; simpl.
      - split; [reflexivity | constructor].
      - rewrite orb_false_iff, <- Hx, <- IH. rewrite Forall_cons. reflexivity. }
    assert (Ha : map (fun ax : VarT * (PrimExpr * PrimExpr) =>
                        let '(v, (mn, ex)) := ax in
                        (v, (ThreadIdxMutator warp_y mn, ThreadIdxMutator warp_y ex)))
                     axis = axis
                 <-> existsb (fun ax : VarT * (PrimExpr * PrimExpr) =>
                                existsb thread_var
                                  (let '(_, (mn, ex)) := ax in expr_vars mn ++ expr_vars ex))
                             axis = false).
    { rewrite map_id_Forall. clear -H0.
      induction H0 as [|[v [mn ex]] l [Hmn Hex] _ IH]; simpl in *.
      - split; [reflexivity | constructor].
      - rewrite orb_false_iff, existsb_app, orb_false_iff, <- Hmn, <- Hex, <- IH.
        rewrite Forall_cons.
        split.
        + intros [E Hl]. injection E as E1 E2. auto.
        + intros [[-> ->] Hl]. auto. }
    rewrite <- Hs, <- Ha, <- IHe.
    split.
    + intros E. injection E as E1 E2 E3. auto.
    + intros (-> & -> & ->). reflexivity.
Qed.

(** ** Tables filled by [insert] *)

Lemma insert_new_mono {K V} `{Countable K} (key key' : K) (v v' : V) (mp : gmap K V) :
  mp !! key' = Some v' -> insert_new key v mp !! key' = Some v'.
Proof.
  unfold insert_new. intros Hk. destruct (mp !! key) as [v0|] eqn:E; [exact Hk |].
  rewrite lookup_insert_ne; [exact Hk |]. intros ->. congruence.
Qed.

Lemma insert_new_is_Some {K V} `{Countable K} (key : K) (v : V) (mp : gmap K V) :
  is_Some (insert_new key v mp !! key).
Proof.
  unfold insert_new. destruct (mp !! key) as [v0|] eqn:E.
  - rewrite E. eauto.
  - rewrite lookup_insert_eq. eauto.
Qed.

Lemma insert_new_inv {K V} `{Countable K} (key key' : K) (v v' : V) (mp : gmap K V) :
  insert_new key v mp !! key' = Some v' ->
  mp !! key' = Some v' \/ (key' = key /\ v' = v).
Proof.
  unfold insert_new. destruct (mp !! key) as [v0|] eqn:E; [auto |].
  destruct (decide (key = key')) as [<-|Hne].
  - rewrite lookup_insert_eq. intros [= <-]. auto.
  - rewrite lookup_insert_ne by exact Hne. auto.
Qed.

Lemma alist_find_None {V} (key : addr) (l : list (addr * V)) :
  MMAMatcher.alist_find key l = None -> ~ In key (map fst l).
Proof.
  induction l as [|[k' v] l IH]; simpl; [tauto |].
  destruct (N.eqb key k') eqn:E; [discriminate |].
  apply N.eqb_neq in E. intros Hn [Hk|Hk]; [congruence | tauto].
Qed.

(** ** MMAMatcher: the tables after the walk *)

(** A record holds three producer loads, and the nodes of the first two are
    keys of [buf_name_]. *)
Definition record_ok (st : MMAMatcher.State) (r : addr * list PrimExpr) : Prop :=
  exists a1 t1 i1 a2 t2 i2 a3 t3 i3,
    snd r = [ProducerLoad a1 t1 i1; ProducerLoad a2 t2 i2; ProducerLoad a3 t3 i3]
    /\ is_Some (MMAMatcher.buf_name_ st !! a1)
    /\ is_Some (MMAMatcher.buf_name_ st !! a2).

Definition tables_ok (st : MMAMatcher.State) : Prop :=
  Forall (record_ok st) (MMAMatcher.mma_sync_ st)
  /\ List.NoDup (map fst (MMAMatcher.mma_sync_ st))
  /\ (forall a name, MMAMatcher.buf_name_ st !! a = Some name ->
                     name ∈ MMAMatcher.frag_reg_ st).

Definition matcher_consistent (st : MMAMatcher.State) : Prop :=
  (MMAMatcher.Matched st = true <-> MMAMatcher.mma_sync_ st <> [])
  /\ tables_ok st.

(** What a successful [mma_sync_match_] has seen and done. *)
Lemma mma_sync_match_record op_addr value bi st st' :
  MMAMatcher.mma_sync_match_ op_addr value bi st = Ok (true, st') ->
  exists a1 t1 i1 a2 t2 i2 a3 t3 i3 buffer_a buffer_b buffer_c,
    st' = MMAMatcher.record_match op_addr
            (ProducerLoad a1 t1 i1) (ProducerLoad a2 t2 i2) (ProducerLoad a3 t3 i3)
            a1 a2 buffer_a buffer_b buffer_c st.
Proof.
  unfold MMAMatcher.mma_sync_match_. intros H.
  destruct (as_Add value) as [[add_a add_b]|]; [| discriminate].
  apply bind_Ok in H as ([[a3 t3] i3] & Hc & H).
  destruct add_a; try discriminate. cbn [as_ProducerLoad deref] in Hc.
  injection Hc as -> -> ->.
  destruct (MMAMatcher.check_local_buffer_ _ st) as [buffer_c|]; [| discriminate].
  destruct (_ || _); [discriminate |].
  destruct (unpack_type_cast add_b _ ≫= as_Mul) as [[mul_a mul_b]|]; [| discriminate].
  unfold MMAMatcher.match_factors in H.
  apply bind_Ok in H as (load_a_expr & Hae & H).
  apply bind_Ok in H as ([[a1 t1] i1] & Ha & H).
  destruct load_a_expr; try discriminate. cbn [as_ProducerLoad deref] in Ha.
  injection Ha as -> -> ->.
  destruct (MMAMatcher.check_local_buffer_ _ st) as [buffer_a|]; [| discriminate].
  destruct (negb (MMAMatcher.dtype_ok_a buffer_a)); [discriminate |].
  apply bind_Ok in H as (load_b_expr & Hbe & H).
  apply bind_Ok in H as ([[a2 t2] i2] & Hb & H).
  destruct load_b_expr; try discriminate. cbn [as_ProducerLoad deref] in Hb.
  injection Hb as -> -> ->.
  destruct (MMAMatcher.check_local_buffer_ _ st) as [buffer_b|]; [| discriminate].
  destruct (negb (MMAMatcher.dtype_ok_b buffer_a buffer_b)); [discriminate |].
  injection H as <-. cbn [fst]. eauto 15.
Qed.

Lemma record_ok_mono st st' r :
  (forall a name, MMAMatcher.buf_name_ st !! a = Some name ->
                  MMAMatcher.buf_name_ st' !! a = Some name) ->
  record_ok st r -> record_ok st' r.
Proof.
  intros Hm (a1 & t1 & i1 & a2 & t2 & i2 & a3 & t3 & i3 & E & [n1 H1] & [n2 H2]).
  exists a1, t1, i1, a2, t2, i2, a3, t3, i3. split; [exact E |].
  split; eexists; apply Hm; eassumption.
Qed.

Lemma tables_ok_record_match op_addr a1 t1 i1 a2 t2 i2 a3 t3 i3
    buffer_a buffer_b buffer_c st :
  tables_ok st ->
  tables_ok (MMAMatcher.record_match op_addr
               (ProducerLoad a1 t1 i1) (ProducerLoad a2 t2 i2) (ProducerLoad a3 t3 i3)
               a1 a2 buffer_a buffer_b buffer_c st).
Proof.
  intros (Hrec & Hnd & Hnames).
  set (st' := MMAMatcher.record_match _ _ _ _ _ _ _ _ _ st).
  assert (Hmono : forall a name, MMAMatcher.buf_name_ st !! a = Some name ->
                                 MMAMatcher.buf_name_ st' !! a = Some name).
  { intros a name Hk. cbn. apply insert_new_mono, insert_new_mono, Hk. }
  split; [| split].
  - cbn [st' MMAMatcher.record_match MMAMatcher.mma_sync_].
    unfold MMAMatcher.alist_insert_new.
    destruct (MMAMatcher.alist_find op_addr (MMAMatcher.mma_sync_ st)).
    + eapply Forall_impl; [exact Hrec |]. intros r. apply record_ok_mono, Hmono.
    + apply Forall_app. split.
      * eapply Forall_impl; [exact Hrec |]. intros r. apply record_ok_mono, Hmono.
      * constructor; [| constructor].
        exists a1, t1, i1, a2, t2, i2, a3, t3, i3. split; [reflexivity |].
        cbn. split.
        -- destruct (insert_new_is_Some a1 (MMAMatcher.name buffer_a)
                       (MMAMatcher.buf_name_ st)) as [n1 H1].
           exists n1. apply insert_new_mono, H1.
        -- apply insert_new_is_Some.
  - cbn [st' MMAMatcher.record_match MMAMatcher.mma_sync_].
    unfold MMAMatcher.alist_insert_new.
    destruct (MMAMatcher.alist_find op_addr (MMAMatcher.mma_sync_ st)) eqn:E;
      [exact Hnd |].
    rewrite map_app. cbn [map fst]. apply List.NoDup_app.
    + exact Hnd.
    + constructor; [intros [] | constructor].
    + intros x Hx [<-|[]]. exact (alist_find_None _ _ E Hx).
  - intros a name Hk. cbn in Hk |- *.
    apply insert_new_inv in Hk as [Hk|[-> ->]];
      [apply insert_new_inv in Hk as [Hk|[-> ->]] |].
    + specialize (Hnames a name Hk). set_solver.
    + set_solver.
    + set_solver.
Qed.

Lemma matcher_consistent_VisitStmt s :
  forall st st',
    matcher_consistent st -> MMAMatcher.VisitStmt s st = Ok st' -> matcher_consistent st'.
Proof.
  induction s using Stmt_nested_ind; cbn [MMAMatcher.VisitStmt]; intros st st' Hinv Hv.
  - repeat case_match; simplify_eq; (eapply IHs; [| eassumption]); exact Hinv.
  - destruct (MMAMatcher.buf_map_ st !! t_addr producer) as [bi|];
      [| injection Hv as <-; exact Hinv].
    destruct (MMAMatcher.released bi); [injection Hv as <-; exact Hinv |].
    destruct (MMAMatcher.tensor_core_on_ st); [| injection Hv as <-; exact Hinv].
    apply bind_Ok in Hv as ([r st1] & Hm & Hv). injection Hv as <-.
    destruct r.
    + apply mma_sync_match_record in Hm
        as (a1 & t1 & i1 & a2 & t2 & i2 & a3 & t3 & i3 & ba & bb & bc & ->).
      destruct Hinv as [_ Hok].
      pose proof (tables_ok_record_match a a1 t1 i1 a2 t2 i2 a3 t3 i3 ba bb bc st Hok)
        as Hok'.
      split; [| exact Hok'].
      split; [intros _ | reflexivity].
      cbn. apply alist_insert_new_nonempty.
    + apply mma_sync_match_effect in Hm as (_ & _ & _ & Hsame & _).
      rewrite (Hsame eq_refl). exact Hinv.
  - destruct (MMAMatcher.buf_map_ st !! t_addr producer) as [bi|].
    + destruct (negb (MMAMatcher.external bi)); [injection Hv as <-; exact Hinv |].
      eapply IHs; eassumption.
    + apply bind_Ok in Hv as (st1 & Hb & Hv).
      assert (H1 : matcher_consistent st1) by (eapply IHs; [| exact Hb]; exact Hinv).
      destruct (MMAMatcher.buf_map_ st1 !! t_addr producer); injection Hv as <-; exact H1.
  - eapply IHs; eassumption.
  - revert st st' Hinv Hv. apply foldM_invariant. exact H.
  - apply bind_Ok in Hv as (st1 & Ht & Hv).
    destruct else_case; simplify_eq; eauto.
  - injection Hv as <-. exact Hinv.
Qed.

(** X9: After the walk, [Matched()] is true exactly when a record exists; every
    record holds three producer loads, the nodes of the two factors are keys
    of [buf_name_], no store has two records, and every name in
    [buf_name_] is in the fragment set. *)
Lemma matcher_tables_consistent extern_buffer s st :
  MMAMatcher.run extern_buffer s = Ok st -> matcher_consistent st.
Proof.
  apply matcher_consistent_VisitStmt.
  split; [split; [discriminate | intros H; exfalso; apply H; reflexivity] |].
  split; [constructor | split; [constructor |]].
  intros a name Hk. cbn in Hk. rewrite lookup_empty in Hk. discriminate.
Qed.

Lemma matcher_tables_consistent_witness :
  exists st,
    MMAMatcher.run [] Ex.nested = Ok st
    /\ matcher_consistent st
    /\ MMAMatcher.Matched st = true.
Proof.
  destruct (MMAMatcher.run [] Ex.nested) as [st|f] eqn:E; [| vm_compute in E; discriminate].
  exists st. split; [reflexivity |].
  split; [exact (matcher_tables_consistent [] Ex.nested st E) |].
  vm_compute in E. injection E as <-. reflexivity.
Defined.

(** ** MMAMatcher: the storage scope *)

(** Some [realize_scope] attribute of [s] has the value ["local"]. *)
Fixpoint declares_local (s : Stmt) : bool :=
  match s with
  | AttrStmt _ attr_key value body =>
      (String.eqb attr_key attr.realize_scope
       && match as_StringImm value with
          | Some scope => String.eqb scope "local"
          | None => false
          end)
      || declares_local body
  | ProducerStore _ _ _ _ | Evaluate _ => false
  | ProducerRealize _ _ _ body | For _ _ _ _ body _ _ => declares_local body
  | SeqStmt seq => existsb declares_local seq
  | IfThenElse _ then_case else_case =>
      declares_local then_case
      || match else_case with Some e => declares_local e | None => false end
  end.

Definition no_local_scope (st : MMAMatcher.State) : Prop :=
  forall a scope, MMAMatcher.storage_scope_ st !! a = Some scope -> scope <> "local".

Definition nothing_recorded (st st' : MMAMatcher.State) : Prop :=
  no_local_scope st'
  /\ MMAMatcher.matched_ st' = MMAMatcher.matched_ st
  /\ MMAMatcher.frag_reg_ st' = MMAMatcher.frag_reg_ st
  /\ MMAMatcher.buf_name_ st' = MMAMatcher.buf_name_ st
  /\ MMAMatcher.mma_sync_ st' = MMAMatcher.mma_sync_ st.

Lemma nothing_recorded_refl st : no_local_scope st -> nothing_recorded st st.
Proof. intros H. repeat split; [exact H | ..]; reflexivity. Qed.

Lemma nothing_recorded_trans st1 st2 st3 :
  nothing_recorded st1 st2 -> nothing_recorded st2 st3 -> nothing_recorded st1 st3.
Proof.
  intros (_ & E1 & E2 & E3 & E4) (H & F1 & F2 & F3 & F4).
  repeat split; [exact H | congruence ..].
Qed.

Lemma check_local_buffer_no_local op st :
  no_local_scope st -> MMAMatcher.check_local_buffer_ op st = None.
Proof.
  intros Hn. unfold MMAMatcher.check_local_buffer_. destruct op as [[a tensor] idx].
  destruct (MMAMatcher.storage_scope_ st !! t_addr tensor) as [scope|] eqn:E;
    [| reflexivity].
  destruct (String.eqb scope "local") eqn:El; [| reflexivity].
  apply String.eqb_eq in El. exfalso. exact (Hn _ _ E El).
Qed.

Lemma mma_sync_match_no_local op_addr value bi st r st' :
  no_local_scope st ->
  MMAMatcher.mma_sync_match_ op_addr value bi st = Ok (r, st') ->
  r = false /\ st' = st.
Proof.
  intros Hn. unfold MMAMatcher.mma_sync_match_.
  destruct (as_Add value) as [[add_a add_b]|]; [| intros [= <- <-]; auto].
  intros H. apply bind_Ok in H as (load_c & Hc & H).
  rewrite (check_local_buffer_no_local _ _ Hn) in H. injection H as <- <-. auto.
Qed.

Lemma no_local_scope_walk s :
  forall st st',
    declares_local s = false ->
    no_local_scope st ->
    MMAMatcher.VisitStmt s st = Ok st' ->
    nothing_recorded st st'.
Proof.
  induction s using Stmt_nested_ind; cbn [MMAMatcher.VisitStmt declares_local];
    intros st st' Hd Hn Hv.
  - apply orb_false_iff in Hd as [Hk Hd].
    destruct (String.eqb attr_key attr.pragma_tensor_core).
    { apply (IHs _ _ Hd) in Hv; [exact Hv | exact Hn]. }
    destruct (String.eqb attr_key attr.realize_scope).
    + destruct (as_StringImm value) as [scope|]; [| discriminate].
      cbn [andb] in Hk.
      apply (IHs _ _ Hd) in Hv; [exact Hv |].
      intros a sc. cbn. intros Hl.
      destruct (decide (ref_addr node = a)) as [<-|Hne].
      * rewrite lookup_insert_eq in Hl. injection Hl as <-.
        apply String.eqb_neq. exact Hk.
      * rewrite lookup_insert_ne in Hl by exact Hne. exact (Hn _ _ Hl).
    + apply (IHs _ _ Hd) in Hv; [exact Hv | exact Hn].
  - destruct (MMAMatcher.buf_map_ st !! t_addr producer) as [bi|];
      [| injection Hv as <-; apply nothing_recorded_refl, Hn].
    destruct (MMAMatcher.released bi);
      [injection Hv as <-; apply nothing_recorded_refl, Hn |].
    destruct (MMAMatcher.tensor_core_on_ st);
      [| injection Hv as <-; apply nothing_recorded_refl, Hn].
    apply bind_Ok in Hv as ([r st1] & Hm & Hv).
    apply (mma_sync_match_no_local _ _ _ _ _ _ Hn) in Hm as [-> ->].
    injection Hv as <-. apply nothing_recorded_refl, Hn.
  - destruct (MMAMatcher.buf_map_ st !! t_addr producer) as [bi|].
    + destruct (negb (MMAMatcher.external bi));
        [injection Hv as <-; apply nothing_recorded_refl, Hn |].
      eapply IHs; eassumption.
    + apply bind_Ok in Hv as (st1 & Hb & Hv).
      apply (IHs _ _ Hd) in Hb; [| exact Hn].
      destruct (MMAMatcher.buf_map_ st1 !! t_addr producer); injection Hv as <-;
        exact Hb.
  - eapply IHs; eassumption.
  - revert st st' Hn Hv.
    induction H as [|x l Hx _ IH]; cbn [foldM existsb] in *; intros st st' Hn Hv.
    + injection Hv as <-. apply nothing_recorded_refl, Hn.
    + apply orb_false_iff in Hd as [Hdx Hdl].
      apply bind_Ok in Hv as (st1 & H1 & Hv).
      pose proof (Hx _ _ Hdx Hn H1) as R1.
      eapply nothing_recorded_trans; [exact R1 |].
      apply (IH Hdl); [exact (proj1 R1) | exact Hv].
  - apply orb_false_iff in Hd as [Hdt Hde].
    apply bind_Ok in Hv as (st1 & Ht & Hv).
    pose proof (IHs _ _ Hdt Hn Ht) as R1.
    destruct else_case as [e|]; [| injection Hv as <-; exact R1].
    eapply nothing_recorded_trans; [exact R1 |].
    apply (H _ _ Hde (proj1 R1) Hv).
  - injection Hv as <-. apply nothing_recorded_refl, Hn.
Qed.

(** X10: A statement none of whose [realize_scope] attributes has the value
    ["local"] is never matched, pragma or not: the first test of
    [mma_sync_match_] asks for the accumulator's buffer in local scope. *)
Lemma no_match_without_local_scope extern_buffer s st :
  declares_local s = false ->
  MMAMatcher.run extern_buffer s = Ok st ->
  MMAMatcher.Matched st = false
  /\ MMAMatcher.mma_sync_ st = []
  /\ MMAMatcher.buf_name_ st = ∅
  /\ MMAMatcher.frag_reg_ st = ∅.
Proof.
  intros Hd Hrun.
  assert (Hn : no_local_scope (MMAMatcher.init extern_buffer)).
  { intros a scope Hl. cbn in Hl. rewrite lookup_empty in Hl. discriminate. }
  destruct (no_local_scope_walk s _ _ Hd Hn Hrun) as (_ & E1 & E2 & E3 & E4).
  unfold MMAMatcher.Matched. rewrite E1, E2, E3, E4. repeat split; reflexivity.
Qed.

(** The kernel of [Ex.nested] with its three buffers in shared memory. *)
Definition shared_realize (t : Tensor) (body : Stmt) : Stmt :=
  AttrStmt (RefTensor t) attr.realize_scope (StringImm "shared")
           (ProducerRealize t Ex.tile (IntImm (DT.UInt 1) 1) body).

Definition shared_kernel : Stmt :=
  Ex.pragma (shared_realize Ex.C (shared_realize Ex.A (shared_realize Ex.B
               (Ex.mma_store Ex.C Ex.A Ex.B)))).

Lemma no_match_without_local_scope_witness :
  exists st,
    MMAMatcher.run [] shared_kernel = Ok st
    /\ has_pragma shared_kernel = true
    /\ MMAMatcher.Matched st = false
    /\ MMAMatcher.mma_sync_ st = [].
Proof.
  destruct (MMAMatcher.run [] shared_kernel) as [st|f] eqn:E;
    [| vm_compute in E; discriminate].
  exists st. split; [reflexivity |]. split; [reflexivity |].
  destruct (no_match_without_local_scope [] shared_kernel st eq_refl E)
    as (Hm & Hs & _).
  split; [exact Hm | exact Hs].
Defined.

(** ** MMAMatcher: operands that are no producer loads *)

Lemma matcher_init_live extern_buffer a bi :
  MMAMatcher.buf_map_ (MMAMatcher.init extern_buffer) !! a = Some bi ->
  MMAMatcher.external bi = true /\ MMAMatcher.released bi = false.
Proof.
  cbn [MMAMatcher.init MMAMatcher.buf_map_].
  assert (Hgen : forall (l : list (Tensor * Buffer)) (mp : gmap addr MMAMatcher.BufferInfo),
            (forall a bi, mp !! a = Some bi ->
                          MMAMatcher.external bi = true /\ MMAMatcher.released bi = false) ->
            forall a bi,
              fold_left (fun m kv =>
                           <[t_addr (fst kv) :=
                               MMAMatcher.mkBufferInfo (b_name (snd kv)) (b_dtype (snd kv))
                                                       true false]> m) l mp !! a = Some bi ->
              MMAMatcher.external bi = true /\ MMAMatcher.released bi = false).
  { induction l as [|kv l IH]; cbn [fold_left]; intros mp Hmp a0 bi0; [apply Hmp |].
    apply IH. intros a1 bi1 Hl.
    destruct (decide (t_addr (fst kv) = a1)) as [<-|Hne].
    - rewrite lookup_insert_eq in Hl. injection Hl as <-. auto.
    - rewrite lookup_insert_ne in Hl by exact Hne. eapply Hmp, Hl. }
  apply Hgen. intros a0 bi0 Hl. rewrite lookup_empty in Hl. discriminate.
Qed.

(** The stages run: no target is defined or the target is [cuda], and a CUDA
    device API is registered. *)
Definition runs_stages (env : Env) : bool :=
  cuda_api env
  && match target_kind env with
     | Some kind_name => String.eqb kind_name "cuda"
     | None => true
     end.

Lemma pass_runs_stages Simplify make_const op_add op_sub op_mul indexmod
    env stmt schedule extern_buffer :
  SchedulePostProcRewriteForTensorCore Simplify make_const op_add op_sub op_mul
    indexmod env stmt schedule extern_buffer
  = if runs_stages env
    then rewrite_matched Simplify make_const op_add op_sub op_mul indexmod
           stmt schedule extern_buffer
    else Ok stmt.
Proof.
  unfold SchedulePostProcRewriteForTensorCore, runs_stages.
  destruct (target_kind env) as [kind_name|], (cuda_api env); cbn [andb negb];
    try reflexivity; destruct (String.eqb kind_name "cuda"); reflexivity.
Qed.

(** X11: Under the pragma, a store into its realized buffer whose value is a sum
    with a first operand that is no producer load (a constant, a variable, a
    product) stops the matcher on a null pointer, whatever the external
    buffers are, and the pass with it: [add->a] is cast to a producer load
    and the cast is not tested before [check_local_buffer_] reads
    [op->producer]. *)
Lemma sum_without_load_stops_the_pass Simplify make_const op_add op_sub op_mul indexmod
    env schedule extern_buffer node value producer bounds condition a x y indices :
  as_ProducerLoad x = None ->
  runs_stages env = true ->
  let stmt :=
    AttrStmt node attr.pragma_tensor_core value
      (ProducerRealize producer bounds condition
         (ProducerStore a producer (Add x y) indices)) in
  MMAMatcher.run extern_buffer stmt = Err Undefined
  /\ SchedulePostProcRewriteForTensorCore Simplify make_const op_add op_sub op_mul
       indexmod env stmt schedule extern_buffer = Err Undefined.
Proof.
  intros Hx Henv stmt.
  assert (Hrun : MMAMatcher.run extern_buffer stmt = Err Undefined).
  { unfold MMAMatcher.run, stmt.
    cbn [MMAMatcher.VisitStmt]. rewrite String.eqb_refl.
    cbn [MMAMatcher.set_tensor_core_on MMAMatcher.buf_map_].
    destruct (MMAMatcher.buf_map_ (MMAMatcher.init extern_buffer) !! t_addr producer)
      as [bi|] eqn:Hb.
    - destruct (matcher_init_live _ _ _ Hb) as [He Hr]. rewrite He. cbn [negb].
      rewrite Hr. cbn [MMAMatcher.tensor_core_on_].
      unfold MMAMatcher.mma_sync_match_. cbn [as_Add]. rewrite Hx. reflexivity.
    - cbn [MMAMatcher.set_buf_map MMAMatcher.buf_map_ MMAMatcher.tensor_core_on_].
      rewrite lookup_insert_eq. cbn [MMAMatcher.released].
      unfold MMAMatcher.mma_sync_match_. cbn [as_Add]. rewrite Hx. reflexivity. }
  split; [exact Hrun |].
  rewrite pass_runs_stages, Henv. unfold rewrite_matched. rewrite Hrun. reflexivity.
Qed.

(** [D[i] = 1.0 + D[i]] under the pragma. *)
Definition increment : Stmt :=
  Ex.pragma
    (ProducerRealize (Ex.tensor 6%N "D" Ex.f32) [mkRange (IntImm Ex.i32 0) (IntImm Ex.i32 16)]
       (IntImm (DT.UInt 1) 1)
       (ProducerStore 60%N (Ex.tensor 6%N "D" Ex.f32)
          (Add (FloatImm Ex.f32 1)
               (ProducerLoad 61%N (Ex.tensor 6%N "D" Ex.f32) [Var Ex.i]))
          [Var Ex.i])).

Lemma sum_without_load_stops_the_pass_witness :
  MMAMatcher.run [] increment = Err Undefined
  /\ SchedulePostProcRewriteForTensorCore Ex2.Simplify Ex2.make_const Add Sub Mul
       Ex2.indexmod Ex2.cuda increment Ex2.schedule [] = Err Undefined.
Proof.
  exact (sum_without_load_stops_the_pass Ex2.Simplify Ex2.make_const Add Sub Mul
           Ex2.indexmod Ex2.cuda Ex2.schedule [] (RefOther 50%N) (IntImm Ex.i32 1)
           (Ex.tensor 6%N "D" Ex.f32) [mkRange (IntImm Ex.i32 0) (IntImm Ex.i32 16)]
           (IntImm (DT.UInt 1) 1) 60%N (FloatImm Ex.f32 1)
           (ProducerLoad 61%N (Ex.tensor 6%N "D" Ex.f32) [Var Ex.i]) [Var Ex.i]
           eq_refl eq_refl).
Defined.

(** ** The pass on a statement without the pragma *)

(** Every [realize_scope] attribute of [s] has a string for its value. *)
Fixpoint scopes_are_strings (s : Stmt) : bool :=
  match s with
  | AttrStmt _ attr_key value body =>
      (negb (String.eqb attr_key attr.realize_scope)
       || match as_StringImm value with Some _ => true | None => false end)
      && scopes_are_strings body
  | ProducerStore _ _ _ _ | Evaluate _ => true
  | ProducerRealize _ _ _ body | For _ _ _ _ body _ _ => scopes_are_strings body
  | SeqStmt seq => forallb scopes_are_strings seq
  | IfThenElse _ then_case else_case =>
      scopes_are_strings then_case
      && match else_case with Some e => scopes_are_strings e | None => true end
  end.

Lemma matcher_off_returns s :
  forall st,
    has_pragma s = false ->
    scopes_are_strings s = true ->
    MMAMatcher.tensor_core_on_ st = false ->
    exists st',
      MMAMatcher.VisitStmt s st = Ok st'
      /\ MMAMatcher.tensor_core_on_ st' = false
      /\ MMAMatcher.matched_ st' = MMAMatcher.matched_ st.
Proof.
  induction s using Stmt_nested_ind;
    cbn [MMAMatcher.VisitStmt has_pragma scopes_are_strings]; intros st Hp Hs Hoff.
  - apply orb_false_iff in Hp as [Hk Hp]. apply andb_true_iff in Hs as [Hv Hs].
    rewrite Hk.
    destruct (String.eqb attr_key attr.realize_scope).
    + cbn [negb orb] in Hv. destruct (as_StringImm value) as [scope|]; [| discriminate].
      destruct (IHs (MMAMatcher.set_storage_scope st
                       (<[ref_addr node := scope]> (MMAMatcher.storage_scope_ st)))
                    Hp Hs Hoff) as (st' & H1 & H2 & H3).
      exists st'. auto.
    + apply IHs; assumption.
  - rewrite Hoff. exists st.
    destruct (MMAMatcher.buf_map_ st !! t_addr producer) as [bi|]; [| auto].
    destruct (MMAMatcher.released bi); auto.
  - destruct (MMAMatcher.buf_map_ st !! t_addr producer) as [bi|].
    + destruct (negb (MMAMatcher.external bi)); [exists st; auto |].
      apply IHs; assumption.
    + destruct (IHs (MMAMatcher.set_buf_map st
                       (<[t_addr producer :=
                            MMAMatcher.mkBufferInfo (t_name_hint producer)
                              (t_dtype producer) false false]> (MMAMatcher.buf_map_ st)))
                    Hp Hs Hoff) as (st1 & H1 & Hon & Hm).
      rewrite H1. cbn [bind].
      destruct (MMAMatcher.buf_map_ st1 !! t_addr producer); eexists;
        (split; [reflexivity |]); cbn; auto.
  - apply IHs; assumption.
  - revert st Hoff.
    induction H as [|x l Hx _ IH]; cbn [foldM existsb forallb] in *; intros st Hoff.
    + exists st. auto.
    + apply orb_false_iff in Hp as [Hpx Hpl]. apply andb_true_iff in Hs as [Hsx Hsl].
      destruct (Hx st Hpx Hsx Hoff) as (st1 & H1 & Hon1 & Hm1).
      destruct (IH Hpl Hsl st1 Hon1) as (st2 & H2 & Hon2 & Hm2).
      exists st2. rewrite H1. cbn [bind]. split; [exact H2 |]. split; congruence.
  - apply orb_false_iff in Hp as [Hpt Hpe]. apply andb_true_iff in Hs as [Hst Hse].
    destruct (IHs st Hpt Hst Hoff) as (st1 & H1 & Hon1 & Hm1).
    rewrite H1. cbn [bind].
    destruct else_case as [e|]; [| exists st1; auto].
    destruct (H st1 Hpe Hse Hon1) as (st2 & H2 & Hon2 & Hm2).
    exists st2. split; [exact H2 |]. split; congruence.
  - exists st. auto.
Qed.

(** X12: A statement that holds no [pragma_tensor_core] attribute and whose
    [realize_scope] attributes all carry a string comes back from the pass
    as it went in, for every schedule, set of external buffers and
    environment: the matcher walks it to the end and matches nothing. *)
Lemma pass_without_pragma_returns_input Simplify make_const op_add op_sub op_mul indexmod
    env stmt schedule extern_buffer :
  has_pragma stmt = false ->
  scopes_are_strings stmt = true ->
  SchedulePostProcRewriteForTensorCore Simplify make_const op_add op_sub op_mul
    indexmod env stmt schedule extern_buffer = Ok stmt.
Proof.
  intros Hp Hs. rewrite pass_runs_stages.
  destruct (runs_stages env); [| reflexivity].
  unfold rewrite_matched, MMAMatcher.run.
  destruct (matcher_off_returns stmt (MMAMatcher.init extern_buffer) Hp Hs eq_refl)
    as (st' & Hv & _ & Hm).
  rewrite Hv. cbn [bind]. unfold MMAMatcher.Matched. rewrite Hm. reflexivity.
Qed.

Lemma pass_without_pragma_returns_input_witness :
  SchedulePostProcRewriteForTensorCore Ex2.Simplify Ex2.make_const Add Sub Mul
    Ex2.indexmod Ex2.cuda Ex.plain Ex2.schedule [] = Ok Ex.plain.
Proof.
  exact (pass_without_pragma_returns_input Ex2.Simplify Ex2.make_const Add Sub Mul
           Ex2.indexmod Ex2.cuda Ex.plain Ex2.schedule [] eq_refl eq_refl).
Defined.

(** ** MMAMatcher: the pattern *)

(** X13: [mma_sync_match_] answers [true] on exactly one shape of store: the
    value is a sum whose first operand loads a live local buffer that equals
    the buffer stored to and has type float32 or int32, and whose second
    operand is, under an optional cast to that type, a product of two loads of
    live local buffers, each under an optional cast to that type, that pass
    the two dtype tests.  The three tables then get the entries of
    [record_match]. *)
Lemma matched_store_pattern op_addr value store_buffer st st' :
  MMAMatcher.mma_sync_match_ op_addr value store_buffer st = Ok (true, st') <->
  exists a3 t3 i3 add_b mul_a mul_b a1 t1 i1 a2 t2 i2 buffer_c buffer_a buffer_b,
    value = Add (ProducerLoad a3 t3 i3) add_b
    /\ MMAMatcher.check_local_buffer_ (a3, t3, i3) st = Some buffer_c
    /\ MMAMatcher.same_as buffer_c store_buffer = true
    /\ (MMAMatcher.dtype buffer_c = DT.Float 32 \/ MMAMatcher.dtype buffer_c = DT.Int 32)
    /\ unpack_type_cast add_b (MMAMatcher.dtype buffer_c) = Some (Mul mul_a mul_b)
    /\ unpack_type_cast mul_a (MMAMatcher.dtype buffer_c) = Some (ProducerLoad a1 t1 i1)
    /\ MMAMatcher.check_local_buffer_ (a1, t1, i1) st = Some buffer_a
    /\ MMAMatcher.dtype_ok_a buffer_a = true
    /\ unpack_type_cast mul_b (MMAMatcher.dtype buffer_c) = Some (ProducerLoad a2 t2 i2)
    /\ MMAMatcher.check_local_buffer_ (a2, t2, i2) st = Some buffer_b
    /\ MMAMatcher.dtype_ok_b buffer_a buffer_b = true
    /\ st' = MMAMatcher.record_match op_addr
               (ProducerLoad a1 t1 i1) (ProducerLoad a2 t2 i2) (ProducerLoad a3 t3 i3)
               a1 a2 buffer_a buffer_b buffer_c st.
Proof.
  split.
  - unfold MMAMatcher.mma_sync_match_. intros H.
    destruct value; try discriminate. cbn [as_Add] in H.
    apply bind_Ok in H as ([[a3 t3] i3] & Hc & H).
    destruct value1; try discriminate. cbn [as_ProducerLoad deref] in Hc.
    injection Hc as -> -> ->.
    destruct (MMAMatcher.check_local_buffer_ _ st) as [buffer_c|] eqn:Hcc;
      [| discriminate].
    destruct (negb (MMAMatcher.same_as buffer_c store_buffer)) eqn:Hsame;
      [discriminate |].
    apply negb_false_iff in Hsame. cbn [orb] in H.
    destruct (negb _) eqn:Hdt; [discriminate |]. apply negb_false_iff in Hdt.
    destruct (unpack_type_cast value2 (MMAMatcher.dtype buffer_c)) as [m|] eqn:Hu;
      [| discriminate].
    cbn [mbind option_bind] in H.
    destruct m; try discriminate. cbn [as_Mul] in H.
    unfold MMAMatcher.match_factors in H.
    apply bind_Ok in H as (load_a_expr & Hae & H).
    apply bind_Ok in H as ([[a1 t1] i1] & Ha & H).
    destruct (unpack_type_cast m1 _) as [ea|] eqn:Hua; [| discriminate].
    cbn [deref] in Hae. injection Hae as ->.
    destruct load_a_expr; try discriminate. cbn [as_ProducerLoad deref] in Ha.
    injection Ha as -> -> ->.
    destruct (MMAMatcher.check_local_buffer_ (a1, t1, i1) st) as [buffer_a|] eqn:Hca;
      [| discriminate].
    destruct (negb (MMAMatcher.dtype_ok_a buffer_a)) eqn:Hda; [discriminate |].
    apply negb_false_iff in Hda.
    apply bind_Ok in H as (load_b_expr & Hbe & H).
    apply bind_Ok in H as ([[a2 t2] i2] & Hb & H).
    destruct (unpack_type_cast m2 _) as [eb|] eqn:Hub; [| discriminate].
    cbn [deref] in Hbe. injection Hbe as ->.
    destruct load_b_expr; try discriminate. cbn [as_ProducerLoad deref] in Hb.
    injection Hb as -> -> ->.
    destruct (MMAMatcher.check_local_buffer_ (a2, t2, i2) st) as [buffer_b|] eqn:Hcb;
      [| discriminate].
    destruct (negb (MMAMatcher.dtype_ok_b buffer_a buffer_b)) eqn:Hdb; [discriminate |].
    apply negb_false_iff in Hdb.
    injection H as <-. cbn [fst].
    exists a3, t3, i3, value2, m1, m2, a1, t1, i1, a2, t2, i2, buffer_c, buffer_a, buffer_b.
    repeat split; try assumption.
    apply orb_true_iff in Hdt as [Hdt|Hdt]; apply bool_decide_eq_true_1 in Hdt; auto.
  - intros (a3 & t3 & i3 & add_b & mul_a & mul_b & a1 & t1 & i1 & a2 & t2 & i2
            & buffer_c & buffer_a & buffer_b
            & -> & Hcc & Hsame & Hdt & Hu & Hua & Hca & Hda & Hub & Hcb & Hdb & ->).
    unfold MMAMatcher.mma_sync_match_. cbn [as_Add as_ProducerLoad deref bind].
    rewrite Hcc, Hsame. cbn [negb orb].
    replace (DT.eqb (MMAMatcher.dtype buffer_c) (DT.Float 32)
             || DT.eqb (MMAMatcher.dtype buffer_c) (DT.Int 32)) with true.
    2:{ symmetry. apply orb_true_iff.
        destruct Hdt as [Hdt|Hdt]; [left | right]; apply bool_decide_eq_true_2, Hdt. }
    cbn [negb]. rewrite Hu. cbn [mbind option_bind as_Mul].
    unfold MMAMatcher.match_factors.
    rewrite Hua. cbn [deref bind as_ProducerLoad]. rewrite Hca, Hda. cbn [negb].
    rewrite Hub. cbn [deref bind as_ProducerLoad]. rewrite Hcb, Hdb. reflexivity.
Qed.

(** ** BodyVisitor: what it records *)

Fixpoint has_reduce (e : PrimExpr) : bool :=
  match e with
  | Var _ | IntImm _ _ | FloatImm _ _ | StringImm _ => false
  | Cast _ value => has_reduce value
  | Add a b | Sub a b | Mul a b | Div a b => has_reduce a || has_reduce b
  | ProducerLoad _ _ indices => existsb has_reduce indices
  | Call _ _ _ args => existsb has_reduce args
  | Reduce _ _ _ _ _ => true
  end.

Lemma args_insert_candidate name v st :
  BodyVisitor.tensorcore_candidate_ (BodyVisitor.args_insert name v st)
  = BodyVisitor.tensorcore_candidate_ st.
Proof.
  unfold BodyVisitor.args_insert.
  destruct (BodyVisitor.args_find name (BodyVisitor.args_ st)); reflexivity.
Qed.

Lemma foldM_returns {A S} (f : A -> S -> Res S) (Inv : S -> S -> Prop) (l : list A) :
  (forall s, Inv s s) ->
  (forall s1 s2 s3, Inv s1 s2 -> Inv s2 s3 -> Inv s1 s3) ->
  Forall (fun x => forall s, exists s', f x s = Ok s' /\ Inv s s') l ->
  forall s, exists s', foldM f l s = Ok s' /\ Inv s s'.
Proof.
  intros Hrefl Htrans. induction 1 as [|x l Hx _ IH]; cbn [foldM]; intros s.
  - exists s. auto.
  - destruct (Hx s) as (s1 & H1 & I1). destruct (IH s1) as (s2 & H2 & I2).
    exists s2. rewrite H1. cbn [bind]. eauto.
Qed.

Lemma BodyVisitor_without_reduce e :
  has_reduce e = false ->
  forall st, exists st',
    BodyVisitor.VisitExpr e st = Ok st'
    /\ BodyVisitor.tensorcore_candidate_ st' = BodyVisitor.tensorcore_candidate_ st.
Proof.
  induction e using PrimExpr_nested_ind; cbn [has_reduce BodyVisitor.VisitExpr];
    intros Hr st; try (exists st; split; reflexivity); try discriminate.
  - apply IHe, Hr.
  - apply orb_false_iff in Hr as [Ha Hb].
    destruct (IHe1 Ha st) as (s1 & H1 & C1). destruct (IHe2 Hb s1) as (s2 & H2 & C2).
    exists s2. rewrite H1. cbn [bind]. split; [exact H2 | congruence].
  - apply orb_false_iff in Hr as [Ha Hb].
    destruct (IHe1 Ha st) as (s1 & H1 & C1). destruct (IHe2 Hb s1) as (s2 & H2 & C2).
    exists s2. rewrite H1. cbn [bind]. split; [exact H2 | congruence].
  - apply orb_false_iff in Hr as [Ha Hb].
    destruct (IHe1 Ha st) as (s1 & H1 & C1). destruct (IHe2 Hb s1) as (s2 & H2 & C2).
    exists s2. rewrite H1. cbn [bind]. split; [exact H2 | congruence].
  - apply orb_false_iff in Hr as [Ha Hb].
    destruct (IHe1 Ha st) as (s1 & H1 & C1). destruct (IHe2 Hb s1) as (s2 & H2 & C2).
    exists s2. rewrite H1. cbn [bind]. split; [exact H2 | congruence].
  - destruct (foldM_returns BodyVisitor.VisitExpr
                (fun s s' => BodyVisitor.tensorcore_candidate_ s'
                             = BodyVisitor.tensorcore_candidate_ s) indices) with (s := st)
      as (s1 & H1 & C1); [reflexivity | congruence | |].
    + clear -H Hr. induction H as [|x l Hx _ IH]; cbn [existsb] in Hr; constructor.
      * apply orb_false_iff in Hr as [Hrx _]. exact (Hx Hrx).
      * apply orb_false_iff in Hr as [_ Hrl]. exact (IH Hrl).
    + eexists. rewrite H1. cbn [bind]. split; [reflexivity |].
      rewrite args_insert_candidate. exact C1.
  - apply (foldM_returns BodyVisitor.VisitExpr
             (fun s s' => BodyVisitor.tensorcore_candidate_ s'
                          = BodyVisitor.tensorcore_candidate_ s) args);
      [reflexivity | congruence |].
    clear -H Hr. induction H as [|x l Hx _ IH]; cbn [existsb] in Hr; constructor.
    + apply orb_false_iff in Hr as [Hrx _]. exact (Hx Hrx).
    + apply orb_false_iff in Hr as [_ Hrl]. exact (IH Hrl).
Qed.

Lemma at_index_lt {A} (l : list A) (i : nat) :
  (i < length l)%nat -> exists x, at_index l i = Ok x.
Proof.
  intros Hi. unfold at_index. destruct (nth_error l i) as [x|] eqn:E; [eauto |].
  apply nth_error_None in E. lia.
Qed.

(** X14: An output stage whose body holds no reduction is analysed to the end
    and registers no role, however many axes it has. *)
Lemma stage_without_reduction_adds_no_role name axis reduce_axis body st :
  existsb has_reduce body = false ->
  ScheduleAnalyser.identify_output (ComputeOp name axis reduce_axis body) st = Ok st.
Proof.
  intros Hb. cbn [ScheduleAnalyser.identify_output].
  destruct (length axis <? 2)%nat eqn:Ha; [reflexivity |].
  destruct (length reduce_axis =? 1)%nat eqn:Hr; [| reflexivity]. cbn [negb orb].
  apply Nat.ltb_ge in Ha. apply Nat.eqb_eq in Hr.
  unfold ScheduleAnalyser.from_end.
  destruct (at_index_lt axis (length axis - 1 - 1)) as [x ->]; [lia |].
  destruct (at_index_lt axis (length axis - 1 - 0)) as [y ->]; [lia |].
  destruct (at_index_lt reduce_axis 0) as [r ->]; [lia |].
  cbn [bind].
  destruct (foldM_returns BodyVisitor.VisitExpr
              (fun s s' => BodyVisitor.tensorcore_candidate_ s'
                           = BodyVisitor.tensorcore_candidate_ s) body)
    with (s := BodyVisitor.init) as (bv & Hbv & Hc); [reflexivity | congruence | |].
  - clear -Hb. induction body as [|e body IH]; cbn [existsb] in Hb; constructor.
    + apply orb_false_iff in Hb as [He _]. apply BodyVisitor_without_reduce, He.
    + apply orb_false_iff in Hb as [_ Hl]. exact (IH Hl).
  - rewrite Hbv. cbn [bind]. rewrite Hc. reflexivity.
Qed.

(** A stage with the axes of [Ex2.matmul] and the elementwise body
    [A[i, j] + B[i, j]]. *)
Definition elementwise : Operation :=
  ComputeOp "C" [Ex2.axis Ex.i 201%N; Ex2.axis Ex.j 202%N] [Ex2.axis Ex.kk 203%N]
    [Add (Ex.load 21%N Ex.A Ex.i Ex.j) (Ex.load 22%N Ex.B Ex.i Ex.j)].

Lemma stage_without_reduction_adds_no_role_witness :
  ScheduleAnalyser.identify_output elementwise Ex2.no_roles = Ok Ex2.no_roles.
Proof.
  exact (stage_without_reduction_adds_no_role "C"
           [Ex2.axis Ex.i 201%N; Ex2.axis Ex.j 202%N] [Ex2.axis Ex.kk 203%N]
           [Add (Ex.load 21%N Ex.A Ex.i Ex.j) (Ex.load 22%N Ex.B Ex.i Ex.j)]
           Ex2.no_roles eq_refl).
Defined.

Lemma args_find_app name l k v w :
  BodyVisitor.args_find name l = Some w ->
  BodyVisitor.args_find name (l ++ [(k, v)]) = Some w.
Proof.
  induction l as [|[k' v'] l IH]; cbn [BodyVisitor.args_find app]; [discriminate |].
  destruct (String.eqb name k'); [auto | exact IH].
Qed.

Lemma args_insert_keeps name w k v st :
  BodyVisitor.args_find name (BodyVisitor.args_ st) = Some w ->
  BodyVisitor.args_find name (BodyVisitor.args_ (BodyVisitor.args_insert k v st)) = Some w.
Proof.
  intros Hf. unfold BodyVisitor.args_insert.
  destruct (BodyVisitor.args_find k (BodyVisitor.args_ st)); [exact Hf |].
  cbn [BodyVisitor.args_]. apply args_find_app, Hf.
Qed.

Lemma BodyVisitor_keeps e name w :
  forall st st',
    BodyVisitor.args_find name (BodyVisitor.args_ st) = Some w ->
    BodyVisitor.VisitExpr e st = Ok st' ->
    BodyVisitor.args_find name (BodyVisitor.args_ st') = Some w.
Proof.
  set (Inv := fun s => BodyVisitor.args_find name (BodyVisitor.args_ s) = Some w).
  induction e using PrimExpr_nested_ind; cbn [BodyVisitor.VisitExpr];
    intros st st' Hn Hv; simplify_eq; try exact Hn; inv_bind; eauto.
  - simplify_eq. apply args_insert_keeps.
    exact (foldM_invariant _ Inv indices H st a0 Hn Ha).
  - exact (foldM_invariant _ Inv args H st st' Hn Hv).
  - repeat (case_match; simplify_eq); try exact Hn.
    revert Hv. apply (foldM_invariant _ Inv); [| exact Hn].
    eapply Forall_impl; [exact H |].
    intros src IH s s' Hs Hs'. cbv beta in Hs'.
    case_match; simplify_eq; [exact Hs |]. eapply IH; [| exact Hs']. exact Hs.
Qed.

(** X15: One index list per tensor name, the first one visited: a name keeps the
    indices recorded for it, and no name is recorded twice. *)
Lemma BodyVisitor_keeps_first_indices e st st' :
  names_unique st ->
  BodyVisitor.VisitExpr e st = Ok st' ->
  names_unique st'
  /\ forall name indices,
       BodyVisitor.args_find name (BodyVisitor.args_ st) = Some indices ->
       BodyVisitor.args_find name (BodyVisitor.args_ st') = Some indices.
Proof.
  intros Hu Hv. split; [exact (BodyVisitor_names_unique e st st' Hu Hv) |].
  intros name indices Hf. exact (BodyVisitor_keeps e name indices st st' Hf Hv).
Qed.

(** [A[i, k]] is recorded; the load [A[k, j]] is visited next. *)
Lemma BodyVisitor_keeps_first_indices_witness :
  exists st',
    BodyVisitor.VisitExpr (Ex.load 72%N Ex.A Ex.kk Ex.j)
      (BodyVisitor.mkState [("A", [Var Ex.i; Var Ex.kk])] false) = Ok st'
    /\ names_unique st'
    /\ BodyVisitor.args_find "A" (BodyVisitor.args_ st') = Some [Var Ex.i; Var Ex.kk].
Proof.
  destruct (BodyVisitor.VisitExpr (Ex.load 72%N Ex.A Ex.kk Ex.j)
              (BodyVisitor.mkState [("A", [Var Ex.i; Var Ex.kk])] false))
    as [st'|f] eqn:E; [| vm_compute in E; discriminate].
  assert (Hu : names_unique (BodyVisitor.mkState [("A", [Var Ex.i; Var Ex.kk])] false)).
  { unfold names_unique. cbn. apply NoDup_singleton. }
  destruct (BodyVisitor_keeps_first_indices _ _ _ Hu E) as [Hu' Hk].
  exists st'. split; [reflexivity |]. split; [exact Hu' |].
  apply Hk. reflexivity.
Defined.

(** ** ScheduleAnalyser: the two role tables *)

(** The rows [MatrixIdentify] can write: the four of the comparison chain,
    the empty pair of a tensor whose last two indices are variables the chain
    does not know, and the pair of an output stage. *)
Definition role_rows : list (string * string) :=
  [("matrix_a", "col_major"); ("matrix_b", "row_major"); ("matrix_a", "row_major");
   ("matrix_b", "col_major"); ("", ""); ("accumulator", "col_major")].

(** The two tables have the same keys, and every key has one of the rows. *)
Definition roles_in_rows (abc major : gmap string string) : Prop :=
  forall name,
    match abc !! name, major !! name with
    | Some role, Some layout => In (role, layout) role_rows
    | None, None => True
    | _, _ => False
    end.

Lemma classify_in_rows var0 var1 r x y :
  In (ScheduleAnalyser.classify var0 var1 r x y) role_rows.
Proof.
  unfold ScheduleAnalyser.classify, role_rows.
  repeat (destruct (_ && _); [cbn [In]; tauto |]). cbn [In]. tauto.
Qed.

Lemma roles_in_rows_insert name role layout abc major :
  In (role, layout) role_rows ->
  roles_in_rows abc major ->
  roles_in_rows (insert_new name role abc) (insert_new name layout major).
Proof.
  intros Hin Hw key. specialize (Hw key). rewrite !insert_new_lookup.
  destruct (abc !! key), (major !! key); try exact Hw; try contradiction.
  destruct (decide (name = key)); [exact Hin | exact I].
Qed.

Definition roles_kept (st st' : ScheduleAnalyser.State) : Prop :=
  (forall key role, ScheduleAnalyser.matrix_abc_ st !! key = Some role ->
                    ScheduleAnalyser.matrix_abc_ st' !! key = Some role)
  /\ (forall key layout, ScheduleAnalyser.matrix_major_ st !! key = Some layout ->
                         ScheduleAnalyser.matrix_major_ st' !! key = Some layout).

Definition roles_step (st st' : ScheduleAnalyser.State) : Prop :=
  roles_kept st st'
  /\ (roles_in_rows (ScheduleAnalyser.matrix_abc_ st) (ScheduleAnalyser.matrix_major_ st) ->
      roles_in_rows (ScheduleAnalyser.matrix_abc_ st') (ScheduleAnalyser.matrix_major_ st')).

Lemma roles_step_refl st : roles_step st st.
Proof. split; [split |]; auto. Qed.

Lemma roles_step_trans st1 st2 st3 :
  roles_step st1 st2 -> roles_step st2 st3 -> roles_step st1 st3.
Proof. intros [[A1 M1] W1] [[A2 M2] W2]. split; [split |]; eauto. Qed.

Lemma roles_step_insert name role layout st :
  In (role, layout) role_rows ->
  roles_step st
    (ScheduleAnalyser.set_roles st
       (insert_new name role (ScheduleAnalyser.matrix_abc_ st))
       (insert_new name layout (ScheduleAnalyser.matrix_major_ st))).
Proof.
  intros Hin. split; [split |]; cbn.
  - intros key r Hk. apply insert_new_mono, Hk.
  - intros key l Hk. apply insert_new_mono, Hk.
  - apply roles_in_rows_insert, Hin.
Qed.

Lemma foldM_step {A S} (f : A -> S -> Res S) (R : S -> S -> Prop) (l : list A) :
  (forall s, R s s) ->
  (forall s1 s2 s3, R s1 s2 -> R s2 s3 -> R s1 s3) ->
  (forall x s s', f x s = Ok s' -> R s s') ->
  forall s s', foldM f l s = Ok s' -> R s s'.
Proof.
  intros Hrefl Htrans Hf. induction l as [|x l IH]; cbn [foldM]; intros s s' H.
  - injection H as <-. apply Hrefl.
  - apply bind_Ok in H as (s1 & H1 & H2). eauto.
Qed.

Lemma identify_arg_step r x y iter st st' :
  ScheduleAnalyser.identify_arg r x y iter st = Ok st' -> roles_step st st'.
Proof.
  unfold ScheduleAnalyser.identify_arg. destruct iter as [name args].
  destruct (length args <? 2)%nat; [intros [= <-]; apply roles_step_refl |].
  intros H. apply bind_Ok in H as (a0 & _ & H). apply bind_Ok in H as (a1 & _ & H).
  destruct (as_Var a0) as [var0|]; [| injection H as <-; apply roles_step_refl].
  destruct (as_Var a1) as [var1|]; [| injection H as <-; apply roles_step_refl].
  pose proof (classify_in_rows (v_addr var0) (v_addr var1) r x y) as Hin.
  destruct (ScheduleAnalyser.classify _ _ _ _ _) as [abc layout].
  injection H as <-. apply roles_step_insert, Hin.
Qed.

Lemma identify_output_step output st st' :
  ScheduleAnalyser.identify_output output st = Ok st' -> roles_step st st'.
Proof.
  unfold ScheduleAnalyser.identify_output.
  destruct output as [name axis reduce_axis body|name];
    [| intros [= <-]; apply roles_step_refl].
  destruct (_ || _); [intros [= <-]; apply roles_step_refl |].
  intros H. apply bind_Ok in H as (x & _ & H). apply bind_Ok in H as (y & _ & H).
  apply bind_Ok in H as (r & _ & H). apply bind_Ok in H as (bv & _ & H).
  destruct (negb _); [injection H as <-; apply roles_step_refl |].
  apply bind_Ok in H as (st1 & H1 & H). injection H as <-.
  apply (roles_step_trans st st1).
  - exact (foldM_step _ roles_step _ roles_step_refl roles_step_trans
             (identify_arg_step _ _ _) _ _ H1).
  - apply roles_step_insert. cbn. tauto.
Qed.

Lemma check_records_roles todo :
  forall done st b st',
    ScheduleAnalyser.check_records todo done st = Ok (b, st') ->
    ScheduleAnalyser.matrix_abc_ st' = ScheduleAnalyser.matrix_abc_ st
    /\ ScheduleAnalyser.matrix_major_ st' = ScheduleAnalyser.matrix_major_ st.
Proof.
  induction todo as [|[key operands] todo IH]; cbn [ScheduleAnalyser.check_records];
    intros done st b st' H.
  - injection H as <- <-. auto.
  - apply bind_Ok in H as (o0 & _ & H). apply bind_Ok in H as (o1 & _ & H).
    apply bind_Ok in H as (n0 & _ & H). apply bind_Ok in H as (n1 & _ & H).
    repeat case_match; simplify_eq; auto.
    apply bind_Ok in H as (o2 & _ & H). exact (IH _ _ _ _ H).
Qed.

Lemma MatrixIdentify_step schedule st b st' :
  ScheduleAnalyser.MatrixIdentify schedule st = Ok (b, st') -> roles_step st st'.
Proof.
  unfold ScheduleAnalyser.MatrixIdentify. intros H.
  apply bind_Ok in H as (st1 & H1 & H).
  apply check_records_roles in H as [Ea Em].
  assert (R1 : roles_step st st1).
  { exact (foldM_step _ roles_step _ roles_step_refl roles_step_trans
             identify_output_step _ _ H1). }
  destruct R1 as [[K1 K2] W]. unfold roles_step, roles_kept. rewrite Ea, Em. auto.
Qed.

(** X16: [MatrixIdentify] never overwrites: a role or a layout a name has when it
    starts is the one it has when it returns, whatever the schedule says
    about that name. *)
Lemma MatrixIdentify_keeps_roles schedule st b st' :
  ScheduleAnalyser.MatrixIdentify schedule st = Ok (b, st') ->
  roles_kept st st'.
Proof. intros H. exact (proj1 (MatrixIdentify_step schedule st b st' H)). Qed.

(** The analyser of [Ex2.no_roles] in which [A] is [matrix_a] / [row_major]
    already. *)
Definition with_A_row_major : ScheduleAnalyser.State :=
  ScheduleAnalyser.set_roles Ex2.no_roles (<["A" := "matrix_a"]> ∅)
                             (<["A" := "row_major"]> ∅).

Lemma MatrixIdentify_keeps_roles_witness :
  exists st',
    ScheduleAnalyser.MatrixIdentify Ex2.schedule with_A_row_major = Ok (true, st')
    /\ roles_of st' "A" = (Some "matrix_a", Some "row_major")
    /\ roles_of Ex2.no_roles "A" = (None, None).
Proof.
  destruct (ScheduleAnalyser.MatrixIdentify Ex2.schedule with_A_row_major)
    as [[b st']|f] eqn:E; [| vm_compute in E; discriminate].
  assert (b = true) as -> by (vm_compute in E; congruence).
  exists st'. split; [reflexivity |].
  destruct (MatrixIdentify_keeps_roles _ _ _ _ E) as [Ka Km].
  rewrite (Ka "A" "matrix_a" eq_refl), (Km "A" "row_major" eq_refl).
  split; reflexivity.
Defined.

(** X17: The two tables [MatrixIdentify] leaves have the same keys, and a key
    has one of six pairs: no other role reaches the later stages, the role
    [matrix_c] in particular, and a layout may be the empty string. *)
Lemma MatrixIdentify_roles_in_rows schedule mma_matcher b st' :
  ScheduleAnalyser.MatrixIdentify schedule (ScheduleAnalyser.init mma_matcher)
  = Ok (b, st') ->
  roles_in_rows (ScheduleAnalyser.matrix_abc_ st') (ScheduleAnalyser.matrix_major_ st').
Proof.
  intros H. apply (proj2 (MatrixIdentify_step _ _ _ _ H)).
  intros name. cbn. rewrite !lookup_empty. exact I.
Qed.

Lemma MatrixIdentify_roles_in_rows_witness :
  exists st',
    ScheduleAnalyser.MatrixIdentify Ex2.schedule (ScheduleAnalyser.init Ex2.no_match)
    = Ok (true, st')
    /\ roles_in_rows (ScheduleAnalyser.matrix_abc_ st')
                     (ScheduleAnalyser.matrix_major_ st')
    /\ roles_of st' "C" = (Some "accumulator", Some "col_major").
Proof.
  destruct (ScheduleAnalyser.MatrixIdentify Ex2.schedule
              (ScheduleAnalyser.init Ex2.no_match))
    as [[b st']|f] eqn:E; [| vm_compute in E; discriminate].
  assert (b = true) as -> by (vm_compute in E; congruence).
  exists st'. split; [reflexivity |].
  split; [exact (MatrixIdentify_roles_in_rows _ _ _ _ E) |].
  vm_compute in E. injection E as <-. vm_compute. reflexivity.
Defined.

(** ** BufferAnalyser: what a walk can change *)

Lemma foldM_fault {A S} (f : A -> S -> Res S) (l : list A) :
  Forall (fun x => forall s e, f x s = Err e -> e = CheckFailed) l ->
  forall s e, foldM f l s = Err e -> e = CheckFailed.
Proof.
  induction 1 as [|x l Hx _ IH]; cbn [foldM]; intros s e He; [discriminate |].
  destruct (f x s) as [s1|e1] eqn:E1; cbn [bind] in He.
  - eapply IH, He.
  - injection He as <-. eapply Hx, E1.
Qed.

(** A relation between the analyser before and after a step that holds
    across every write the walk makes holds across the walk. *)
Section AnalyserWalk.

Variable Simplify : PrimExpr -> PrimExpr.
Variable make_const : DataType -> Z -> PrimExpr.
Variables op_add op_sub op_mul indexmod : PrimExpr -> PrimExpr -> PrimExpr.

Variable R : BufferAnalyser.State -> BufferAnalyser.State -> Prop.

Hypothesis R_refl : forall st, R st st.
Hypothesis R_trans : forall st1 st2 st3, R st1 st2 -> R st2 st3 -> R st1 st3.
Hypothesis R_invalid : forall st, R st (BufferAnalyser.with_invalid_ st true).
Hypothesis R_strides : forall st key v,
  R st (BufferAnalyser.with_strides_ st (insert_new key v (BufferAnalyser.strides_ st))).
Hypothesis R_loop_scaling : forall st key v,
  R st (BufferAnalyser.with_loop_scaling_ st
          (insert_new key v (BufferAnalyser.loop_scaling_ st))).
Hypothesis R_frag_load : forall st key v,
  R st (BufferAnalyser.with_frag_load_ st (insert_new key v (BufferAnalyser.frag_load_ st))).
Hypothesis R_frag_store : forall st key v,
  R st (BufferAnalyser.with_frag_store_ st
          (insert_new key v (BufferAnalyser.frag_store_ st))).
Hypothesis R_thread_tile : forall st role major t0 t1,
  R st (BufferAnalyser.with_thread_tile_ st
          (snd (BufferAnalyser.assign_tile role major t0 t1
                  (BufferAnalyser.thread_tile_ st)))).
Hypothesis R_thread_extent : forall st key v,
  R st (BufferAnalyser.with_thread_extent_ st
          (insert_new key v (BufferAnalyser.thread_extent_ st))).
Hypothesis R_buf_map : forall st x, R st (BufferAnalyser.with_buf_map_ st x).
Hypothesis R_dim_align : forall st x, R st (BufferAnalyser.with_dim_align_ st x).
Hypothesis R_storage_scope : forall st x, R st (BufferAnalyser.with_storage_scope_ st x).

Lemma index_visitor_walk scaling_factor e st :
  R st (BufferAnalyser.index_visitor scaling_factor e st).
Proof.
  unfold BufferAnalyser.index_visitor. generalize (expr_vars e) as l.
  intros l. revert st. induction l as [|v l IH]; intros st; cbn [fold_left].
  - destruct st. apply R_refl.
  - eapply R_trans; [apply (R_loop_scaling st (v_addr v) scaling_factor) |].
    exact (IH (BufferAnalyser.with_loop_scaling_ st
                 (insert_new (v_addr v) scaling_factor (BufferAnalyser.loop_scaling_ st)))).
Qed.

Lemma scale_load_index_walk bi rel_index i st st' :
  BufferAnalyser.scale_load_index Simplify bi rel_index i st = Ok st' -> R st st'.
Proof.
  unfold BufferAnalyser.scale_load_index. intros H.
  apply bind_Ok in H as (sh & _ & H). apply bind_Ok in H as (index & _ & H).
  injection H as <-. apply index_visitor_walk.
Qed.

Lemma visit_load_walk tensor indices st st' :
  BufferAnalyser.visit_load Simplify make_const op_sub tensor indices st = Ok st' ->
  R st st'.
Proof.
  unfold BufferAnalyser.visit_load. intros H.
  apply bind_Ok in H as (bi & _ & H).
  destruct (_ && _); [injection H as <-; apply R_invalid |].
  set (st1 := BufferAnalyser.with_strides_ st _) in H.
  assert (R1 : R st st1) by apply R_strides.
  destruct (negb _); [injection H as <-; exact R1 |].
  apply bind_Ok in H as (rel_index & _ & H).
  destruct (length indices <? 2)%nat.
  { injection H as <-. eapply R_trans; [exact R1 | apply R_invalid]. }
  apply bind_Ok in H as (st2 & H2 & H).
  apply scale_load_index_walk in H2. apply scale_load_index_walk in H. eauto.
Qed.

Lemma foldM_walk {A} (f : A -> BufferAnalyser.State -> Res BufferAnalyser.State)
    (l : list A) :
  Forall (fun x => forall s s', f x s = Ok s' -> R s s') l ->
  forall s s', foldM f l s = Ok s' -> R s s'.
Proof.
  induction 1 as [|x l Hx _ IH]; cbn [foldM]; intros s s' H.
  - injection H as <-. apply R_refl.
  - apply bind_Ok in H as (s1 & H1 & H2). eauto.
Qed.

Lemma VisitExpr_walk e :
  forall st st',
    BufferAnalyser.VisitExpr Simplify make_const op_sub e st = Ok st' -> R st st'.
Proof.
  induction e using PrimExpr_nested_ind; cbn [BufferAnalyser.VisitExpr];
    intros st st' Hv; try (injection Hv as <-; apply R_refl).
  - eauto.
  - apply bind_Ok in Hv as (s1 & H1 & H2). eauto.
  - apply bind_Ok in Hv as (s1 & H1 & H2). eauto.
  - apply bind_Ok in Hv as (s1 & H1 & H2). eauto.
  - apply bind_Ok in Hv as (s1 & H1 & H2). eauto.
  - apply bind_Ok in Hv as (s1 & H1 & H2).
    apply (foldM_walk _ _ H) in H1. apply visit_load_walk in H2. eauto.
  - exact (foldM_walk _ _ H _ _ Hv).
  - apply bind_Ok in Hv as (s1 & H1 & Hv). apply bind_Ok in Hv as (s2 & H2 & H3).
    apply (foldM_walk _ _ H) in H2.
    assert (R1 : R st s1).
    { revert H1. apply foldM_walk.
      eapply Forall_impl; [exact H0 |].
      intros [v [mn ex]] [Hmn Hex] s s' Hs. cbn [fst snd] in Hmn, Hex.
      apply bind_Ok in Hs as (s0 & Ha & Hb). eauto. }
    eauto.
Qed.

Lemma scale_store_index_walk bi rel_index i st v st' :
  BufferAnalyser.scale_store_index Simplify bi rel_index i st = Ok (Some (v, st')) ->
  R st st'.
Proof.
  unfold BufferAnalyser.scale_store_index. intros H.
  apply bind_Ok in H as (sh & _ & H).
  destruct (as_IntImm sh); [| discriminate].
  apply bind_Ok in H as (index & _ & H). injection H as _ <-. apply index_visitor_walk.
Qed.

Lemma visit_fragment_store_walk a producer indices bi st b st' :
  BufferAnalyser.visit_fragment_store Simplify op_sub a producer indices bi st
  = Ok (b, st') ->
  R st st'.
Proof.
  unfold BufferAnalyser.visit_fragment_store. intros H.
  set (st1 := BufferAnalyser.with_frag_load_ st _) in H.
  assert (R1 : R st st1) by apply R_frag_load.
  apply bind_Ok in H as (rel_index & _ & H).
  destruct (length indices <? 2)%nat.
  { injection H as _ <-. eapply R_trans; [exact R1 | apply R_invalid]. }
  apply bind_Ok in H as (r1 & H1 & H).
  destruct r1 as [[tile_size0 st2]|];
    [| injection H as _ <-; eapply R_trans; [exact R1 | apply R_invalid]].
  apply scale_store_index_walk in H1.
  apply bind_Ok in H as (r2 & H2 & H).
  destruct r2 as [[tile_size1 st3]|];
    [| injection H as _ <-; eapply R_trans; [| apply R_invalid]; eauto].
  apply scale_store_index_walk in H2.
  assert (R3 : R st st3) by eauto.
  destruct (BufferAnalyser.matrix_abc_ st3 !! _) as [role|];
    [| injection H as _ <-; exact R3].
  destruct (BufferAnalyser.matrix_major_ st3 !! _) as [major|];
    [| injection H as _ <-; exact R3].
  pose proof (R_thread_tile st3 role major tile_size0 tile_size1) as R4.
  destruct (BufferAnalyser.assign_tile _ _ _ _ _) as [ret tile]. cbn [snd] in R4.
  destruct (negb ret); injection H as _ <-; [| eauto].
  eapply R_trans; [| apply R_invalid]. eauto.
Qed.

Lemma visit_store_walk a producer value indices st st' :
  BufferAnalyser.visit_store Simplify make_const op_sub a producer value indices st
  = Ok st' ->
  R st st'.
Proof.
  unfold BufferAnalyser.visit_store. intros H.
  apply bind_Ok in H as (bi & _ & H).
  destruct (_ && _); [injection H as <-; apply R_invalid |].
  set (st1 := BufferAnalyser.with_strides_ st _) in H.
  assert (R1 : R st st1) by apply R_strides.
  apply bind_Ok in H as ([go_on st2] & H2 & H).
  assert (R2 : R st st2).
  { destruct (bool_decide _).
    - apply visit_fragment_store_walk in H2. eauto.
    - injection H2 as _ <-. exact R1. }
  destruct (negb go_on); [injection H as <-; exact R2 |].
  destruct (as_ProducerLoad value) as [[[la value_producer] li]|];
    [| injection H as <-; exact R2].
  destruct (bool_decide (t_name_hint value_producer ∈ BufferAnalyser.frag_reg_ st2));
    injection H as <-; [| exact R2].
  eapply R_trans; [exact R2 | apply R_frag_store].
Qed.

Lemma record_thread_extent_walk node value st st' :
  BufferAnalyser.record_thread_extent node value st = Ok st' -> R st st'.
Proof.
  unfold BufferAnalyser.record_thread_extent. intros H.
  destruct (as_IntImm value); [| injection H as <-; apply R_refl].
  destruct node; try discriminate. injection H as <-. apply R_thread_extent.
Qed.

Lemma record_dim_align_walk node value st st' :
  BufferAnalyser.record_dim_align node value st = Ok st' -> R st st'.
Proof.
  unfold BufferAnalyser.record_dim_align. intros H.
  destruct node; try discriminate. destruct value; try discriminate.
  destruct (negb _); [discriminate |].
  apply bind_Ok in H as (a0 & _ & H). apply bind_Ok in H as (dim & _ & H).
  destruct (dim <? 0); [discriminate |].
  apply bind_Ok in H as (a1 & _ & H). apply bind_Ok in H as (factor & _ & H).
  apply bind_Ok in H as (a2 & _ & H). apply bind_Ok in H as (offset & _ & H).
  injection H as <-. apply R_dim_align.
Qed.

Lemma VisitStmt_walk s :
  forall st st',
    BufferAnalyser.VisitStmt Simplify make_const op_add op_sub op_mul indexmod s st
    = Ok st' ->
    R st st'.
Proof.
  induction s using Stmt_nested_ind; cbn [BufferAnalyser.VisitStmt]; intros st st' Hv.
  - destruct (String.eqb attr_key attr.thread_extent).
    { apply bind_Ok in Hv as (s1 & H1 & Hv). apply bind_Ok in Hv as (s2 & H2 & H3).
      apply record_thread_extent_walk in H1. apply VisitExpr_walk in H2. eauto. }
    destruct (String.eqb attr_key attr.realize_scope).
    { apply bind_Ok in Hv as (scope & _ & Hv).
      eapply R_trans; [apply R_storage_scope | eauto]. }
    destruct (String.eqb attr_key attr.buffer_dim_align).
    { apply bind_Ok in Hv as (s1 & H1 & Hv). apply record_dim_align_walk in H1. eauto. }
    apply bind_Ok in Hv as (s1 & H1 & Hv). apply VisitExpr_walk in H1. eauto.
  - apply bind_Ok in Hv as (s1 & H1 & Hv). apply bind_Ok in Hv as (s2 & H2 & H3).
    apply (foldM_walk _ indices) in H1;
      [| apply Forall_forall; intros e _; apply VisitExpr_walk].
    apply VisitExpr_walk in H2. apply visit_store_walk in H3. eauto.
  - destruct (BufferAnalyser.buf_map_ st !! t_addr producer) as [bi|].
    + destruct (negb _); [discriminate | eauto].
    + apply bind_Ok in Hv as (s1 & H1 & Hv). injection Hv as <-.
      eapply R_trans; [apply R_buf_map |].
      eapply R_trans; [eapply IHs, H1 |]. apply R_buf_map.
  - apply bind_Ok in Hv as (s1 & H1 & Hv). apply bind_Ok in Hv as (s2 & H2 & H3).
    apply VisitExpr_walk in H1. apply VisitExpr_walk in H2. eauto.
  - exact (foldM_walk _ _ H _ _ Hv).
  - apply bind_Ok in Hv as (s1 & H1 & Hv). apply bind_Ok in Hv as (s2 & H2 & H3).
    apply VisitExpr_walk in H1. apply IHs in H2.
    destruct else_case as [e|]; [| injection H3 as <-; eauto].
    apply H in H3. eauto.
  - apply VisitExpr_walk in Hv. exact Hv.
Qed.

End AnalyserWalk.

(** ** BufferAnalyser: the invalid flag *)

(** X18: Once the analyser has found the kernel unfit, it stays so: no statement
    clears [invalid_], and the qualification that follows answers [false]
    without reading the thread extents. *)
Lemma invalid_is_final Simplify make_const op_add op_sub op_mul indexmod s st st' :
  BufferAnalyser.invalid_ st = true ->
  BufferAnalyser.VisitStmt Simplify make_const op_add op_sub op_mul indexmod s st
  = Ok st' ->
  BufferAnalyser.invalid_ st' = true
  /\ BufferAnalyser.QualifiedForTensorCore st' = Ok (false, st').
Proof.
  intros Hi Hv.
  assert (Hi' : BufferAnalyser.invalid_ st' = true).
  { refine (VisitStmt_walk Simplify make_const op_add op_sub op_mul indexmod
              (fun s1 s2 => BufferAnalyser.invalid_ s1 = true ->
                            BufferAnalyser.invalid_ s2 = true)
              _ _ _ _ _ _ _ _ _ _ _ _ s st st' Hv Hi); cbn; intros; auto. }
  split; [exact Hi' |]. unfold BufferAnalyser.QualifiedForTensorCore. rewrite Hi'.
  reflexivity.
Qed.

(** The analyser the driver would build for the kernel of [Ex.nested]: the
    roles of [Ex2.matmul], the three fragments, nothing visited yet. *)
Definition matmul_roles : ScheduleAnalyser.State :=
  ScheduleAnalyser.mkState
    (<["C" := "accumulator"]> (<["B" := "matrix_a"]> (<["A" := "matrix_b"]> ∅)))
    (<["C" := "col_major"]> (<["B" := "row_major"]> (<["A" := "col_major"]> ∅)))
    [] ∅.

Definition three_fragments : MMAMatcher.State :=
  MMAMatcher.mkState ∅ ∅ [] ∅ ({["C"]} ∪ ({["B"]} ∪ {["A"]})) true true.

Definition fresh_analyser : BufferAnalyser.State :=
  BufferAnalyser.init [] matmul_roles three_fragments.

Abbreviation analyse :=
  (BufferAnalyser.VisitStmt Ex2.Simplify Ex2.make_const Add Sub Mul Ex2.indexmod).

Lemma invalid_is_final_witness :
  exists st',
    analyse Ex.plain (BufferAnalyser.with_invalid_ fresh_analyser true) = Ok st'
    /\ BufferAnalyser.invalid_ st' = true
    /\ BufferAnalyser.QualifiedForTensorCore st' = Ok (false, st').
Proof.
  destruct (analyse Ex.plain (BufferAnalyser.with_invalid_ fresh_analyser true))
    as [st'|f] eqn:E; [| vm_compute in E; discriminate].
  exists st'. split; [reflexivity |].
  exact (invalid_is_final Ex2.Simplify Ex2.make_const Add Sub Mul Ex2.indexmod
           Ex.plain (BufferAnalyser.with_invalid_ fresh_analyser true) st' eq_refl E).
Defined.

(** ** BufferAnalyser: the thread tile *)

(** A dimension that is set (positive) has the same value afterwards. *)
Definition tile_kept (t t' : Tile) : Prop :=
  (0 < m t -> m t' = m t) /\ (0 < n t -> n t' = n t) /\ (0 < k t -> k t' = k t).

Lemma tile_kept_refl t : tile_kept t t.
Proof. repeat split. Qed.

Lemma tile_kept_trans t1 t2 t3 : tile_kept t1 t2 -> tile_kept t2 t3 -> tile_kept t1 t3.
Proof.
  intros (A1 & A2 & A3) (B1 & B2 & B3).
  repeat split; intros H.
  - rewrite <- (A1 H). apply B1. rewrite (A1 H). exact H.
  - rewrite <- (A2 H). apply B2. rewrite (A2 H). exact H.
  - rewrite <- (A3 H). apply B3. rewrite (A3 H). exact H.
Qed.

Lemma assign_or_check_kept dst src :
  0 < dst -> snd (BufferAnalyser.assign_or_check_ dst src) = dst.
Proof.
  intros H. unfold BufferAnalyser.assign_or_check_.
  destruct (dst <=? 0) eqn:E; [apply Z.leb_le in E; lia |].
  destruct (dst =? src); reflexivity.
Qed.

Lemma assign_m_kept src acc : tile_kept (snd acc) (snd (BufferAnalyser.assign_m src acc)).
Proof.
  destruct acc as [ret t]. unfold BufferAnalyser.assign_m.
  pose proof (assign_or_check_kept (m t) src) as H.
  destruct (BufferAnalyser.assign_or_check_ (m t) src) as [r v]. cbn in *.
  repeat split; auto.
Qed.

Lemma assign_n_kept src acc : tile_kept (snd acc) (snd (BufferAnalyser.assign_n src acc)).
Proof.
  destruct acc as [ret t]. unfold BufferAnalyser.assign_n.
  pose proof (assign_or_check_kept (n t) src) as H.
  destruct (BufferAnalyser.assign_or_check_ (n t) src) as [r v]. cbn in *.
  repeat split; auto.
Qed.

Lemma assign_k_kept src acc : tile_kept (snd acc) (snd (BufferAnalyser.assign_k src acc)).
Proof.
  destruct acc as [ret t]. unfold BufferAnalyser.assign_k.
  pose proof (assign_or_check_kept (k t) src) as H.
  destruct (BufferAnalyser.assign_or_check_ (k t) src) as [r v]. cbn in *.
  repeat split; auto.
Qed.

Ltac tile_steps :=
  repeat first
    [ apply tile_kept_refl
    | eapply tile_kept_trans; [| apply assign_m_kept]
    | eapply tile_kept_trans; [| apply assign_n_kept]
    | eapply tile_kept_trans; [| apply assign_k_kept] ].

Lemma assign_tile_kept role major tile_size0 tile_size1 t :
  tile_kept t (snd (BufferAnalyser.assign_tile role major tile_size0 tile_size1 t)).
Proof.
  unfold BufferAnalyser.assign_tile.
  destruct (String.eqb role "matrix_a"), (String.eqb role "matrix_b"),
    (String.eqb major "col_major"), (String.eqb major "row_major"),
    (String.eqb role "accumulator"); cbn [andb]; tile_steps.
Qed.

(** X19: A dimension of the thread tile is assigned once: every later store
    either agrees with it or marks the analysis invalid, and the value
    stays. *)
Lemma thread_tile_is_assigned_once Simplify make_const op_add op_sub op_mul indexmod
    s st st' :
  BufferAnalyser.VisitStmt Simplify make_const op_add op_sub op_mul indexmod s st
  = Ok st' ->
  tile_kept (BufferAnalyser.thread_tile_ st) (BufferAnalyser.thread_tile_ st').
Proof.
  intros Hv.
  refine (VisitStmt_walk Simplify make_const op_add op_sub op_mul indexmod
            (fun s1 s2 => tile_kept (BufferAnalyser.thread_tile_ s1)
                                    (BufferAnalyser.thread_tile_ s2))
            _ _ _ _ _ _ _ _ _ _ _ _ s st st' Hv); cbn; intros;
    try apply tile_kept_refl.
  - eapply tile_kept_trans; eassumption.
  - apply assign_tile_kept.
Qed.

Lemma thread_tile_is_assigned_once_witness :
  exists st',
    analyse Ex.plain (BufferAnalyser.with_thread_tile_ fresh_analyser (mkTile 16 8 4))
    = Ok st'
    /\ BufferAnalyser.thread_tile_ st' = mkTile 16 8 4
    /\ BufferAnalyser.invalid_ st' = true.
Proof.
  destruct (analyse Ex.plain
              (BufferAnalyser.with_thread_tile_ fresh_analyser (mkTile 16 8 4)))
    as [st'|f] eqn:E; [| vm_compute in E; discriminate].
  exists st'. split; [reflexivity |].
  destruct (thread_tile_is_assigned_once Ex2.Simplify Ex2.make_const Add Sub Mul
              Ex2.indexmod Ex.plain _ st' E) as (Hm & Hn & Hk).
  cbn in Hm, Hn, Hk.
  split.
  - destruct (BufferAnalyser.thread_tile_ st') as [m' n' k']. cbn in Hm, Hn, Hk.
    rewrite Hm, Hn, Hk by lia. reflexivity.
  - vm_compute in E. injection E as <-. reflexivity.
Defined.

(** ** BufferAnalyser: the tables *)

Definition grows {K V} `{Countable K} (mp mp' : gmap K V) : Prop :=
  forall key v, mp !! key = Some v -> mp' !! key = Some v.

(** The role tables, the fragment set, the warp tile and [warp_threads_y_]
    are as before; the five tables filled by [insert] hold what they held. *)
Definition tables_grow (st st' : BufferAnalyser.State) : Prop :=
  BufferAnalyser.matrix_abc_ st' = BufferAnalyser.matrix_abc_ st
  /\ BufferAnalyser.matrix_major_ st' = BufferAnalyser.matrix_major_ st
  /\ BufferAnalyser.frag_reg_ st' = BufferAnalyser.frag_reg_ st
  /\ BufferAnalyser.warp_tile_ st' = BufferAnalyser.warp_tile_ st
  /\ BufferAnalyser.warp_threads_y_ st' = BufferAnalyser.warp_threads_y_ st
  /\ grows (BufferAnalyser.strides_ st) (BufferAnalyser.strides_ st')
  /\ grows (BufferAnalyser.frag_load_ st) (BufferAnalyser.frag_load_ st')
  /\ grows (BufferAnalyser.frag_store_ st) (BufferAnalyser.frag_store_ st')
  /\ grows (BufferAnalyser.thread_extent_ st) (BufferAnalyser.thread_extent_ st')
  /\ grows (BufferAnalyser.loop_scaling_ st) (BufferAnalyser.loop_scaling_ st').

Lemma grows_refl {K V} `{Countable K} (mp : gmap K V) : grows mp mp.
Proof. intros key v Hk. exact Hk. Qed.

Lemma grows_insert_new {K V} `{Countable K} (key : K) (v : V) (mp : gmap K V) :
  grows mp (insert_new key v mp).
Proof. intros key' v' Hk. apply insert_new_mono, Hk. Qed.

Lemma tables_grow_refl st : tables_grow st st.
Proof. repeat split; apply grows_refl. Qed.

Lemma tables_grow_trans st1 st2 st3 :
  tables_grow st1 st2 -> tables_grow st2 st3 -> tables_grow st1 st3.
Proof.
  intros (A1 & A2 & A3 & A4 & A5 & A6 & A7 & A8 & A9 & A10)
         (B1 & B2 & B3 & B4 & B5 & B6 & B7 & B8 & B9 & B10).
  repeat split; try congruence; intros key v Hk; auto.
Qed.

(** X20: The walk reads the role tables and the fragment set and leaves them as
    they are; in the strides, the two store tables, the thread extents and
    the loop scaling it only adds keys, so the first value a key got is the
    one the rewriter sees. *)
Lemma analyser_tables_only_grow Simplify make_const op_add op_sub op_mul indexmod
    s st st' :
  BufferAnalyser.VisitStmt Simplify make_const op_add op_sub op_mul indexmod s st
  = Ok st' ->
  tables_grow st st'.
Proof.
  intros Hv.
  refine (VisitStmt_walk Simplify make_const op_add op_sub op_mul indexmod tables_grow
            _ _ _ _ _ _ _ _ _ _ _ _ s st st' Hv);
    try (intros; repeat split; cbn; first [reflexivity | apply grows_refl
                                           | apply grows_insert_new]).
  apply tables_grow_trans.
Qed.

(** Two nested extents for [threadIdx.x]: 16 outside, 32 inside. *)
Definition rebound : Stmt :=
  AttrStmt (Ex2.thread_axis "threadIdx.x" 401%N) attr.thread_extent (IntImm Ex.i32 32)
           (Evaluate (IntImm Ex.i32 0)).

Lemma analyser_tables_only_grow_witness :
  exists st',
    analyse rebound
      (BufferAnalyser.with_thread_extent_ fresh_analyser (<["threadIdx.x" := 16]> ∅))
    = Ok st'
    /\ BufferAnalyser.thread_extent_ st' !! "threadIdx.x" = Some 16
    /\ BufferAnalyser.matrix_abc_ st' = ScheduleAnalyser.matrix_abc_ matmul_roles.
Proof.
  destruct (analyse rebound
              (BufferAnalyser.with_thread_extent_ fresh_analyser
                 (<["threadIdx.x" := 16]> ∅)))
    as [st'|f] eqn:E; [| vm_compute in E; discriminate].
  exists st'. split; [reflexivity |].
  destruct (analyser_tables_only_grow Ex2.Simplify Ex2.make_const Add Sub Mul
              Ex2.indexmod rebound _ st' E)
    as (Habc & _ & _ & _ & _ & _ & _ & _ & Hext & _).
  split; [apply Hext; reflexivity | exact Habc].
Defined.

(** ** BufferAnalyser: the qualification outside its range *)

(** X21: [QualifiedForTensorCore] never stops on a failed check.  It runs into
    undefined behaviour exactly when the analysis is valid, [threadIdx.x] has
    an extent [t_x], and one of four things happens: the product
    [t_x * thread_tile_.m] overflows; [t_x] is zero, so [32 / t_x] divides
    by zero; [t_x] is above 32 in absolute value while [threadIdx.y] has a
    non-negative extent, so [32 / t_x] is zero and [t_y % 0] is computed; or
    the two tests on [t_y] pass and the product
    [warp_threads_y * thread_tile_.n] overflows. *)
Lemma QualifiedForTensorCore_fails_iff st :
  (BufferAnalyser.QualifiedForTensorCore st = Err Undefined <->
   BufferAnalyser.invalid_ st = false
   /\ exists t_x,
        BufferAnalyser.thread_extent_ st !! "threadIdx.x" = Some t_x
        /\ (~ in_int_range (t_x * m (BufferAnalyser.thread_tile_ st))
            \/ t_x = 0
            \/ exists t_y,
                 BufferAnalyser.thread_extent_ st !! "threadIdx.y" = Some t_y
                 /\ ((32 < Z.abs t_x /\ 0 <= t_y)
                     \/ (Z.quot 32 t_x <= t_y
                         /\ Z.rem t_y (Z.quot 32 t_x) = 0
                         /\ ~ in_int_range
                              (Z.quot 32 t_x * n (BufferAnalyser.thread_tile_ st))))))
  /\ BufferAnalyser.QualifiedForTensorCore st <> Err CheckFailed.
Proof.
  unfold BufferAnalyser.QualifiedForTensorCore.
  destruct (BufferAnalyser.invalid_ st).
  { split; [split; [discriminate | intros [? _]; discriminate] | discriminate]. }
  destruct (BufferAnalyser.thread_extent_ st !! "threadIdx.x") as [t_x|].
  2:{ split; [split; [discriminate | intros (_ & t & ? & _); discriminate]
             | discriminate]. }
  unfold int_mul.
  destruct (in_int (t_x * m (BufferAnalyser.thread_tile_ st))) eqn:HM; cbn [bind].
  2:{ split; [split; [intros _ | reflexivity] | discriminate].
      split; [reflexivity |]. exists t_x. split; [reflexivity |]. left.
      rewrite <- in_int_iff, HM. discriminate. }
  apply in_int_iff in HM.
  unfold int_div. change (32 =? - 2 ^ 31) with false. cbn [andb]. rewrite orb_false_r.
  destruct (t_x =? 0) eqn:Hx0.
  { apply Z.eqb_eq in Hx0. subst t_x. cbn [bind].
    split; [split; [intros _ | reflexivity] | discriminate].
    split; [reflexivity |]. exists 0. auto. }
  apply Z.eqb_neq in Hx0. cbn [bind].
  cbn [BufferAnalyser.thread_extent_ BufferAnalyser.with_warp_threads_y_
       BufferAnalyser.with_warp_tile_ BufferAnalyser.thread_tile_].
  assert (Hwy : Z.quot 32 t_x = 0 <-> 32 < Z.abs t_x).
  { rewrite Z.quot_small_iff by exact Hx0. reflexivity. }
  destruct (BufferAnalyser.thread_extent_ st !! "threadIdx.y") as [t_y|].
  2:{ split; [split; [discriminate |] | discriminate].
      intros (_ & t & [= <-] & [? | [? | (ty & ? & _)]]);
        [contradiction | contradiction | discriminate]. }
  destruct (t_y <? Z.quot 32 t_x) eqn:Hlt.
  { apply Z.ltb_lt in Hlt.
    split; [split; [discriminate |] | discriminate].
    intros (_ & t & [= <-] & [? | [? | (ty & [= <-] & [(Habs & Hty) | (Hle & _)])]]);
      [contradiction | contradiction | | lia].
    apply Hwy in Habs. lia. }
  apply Z.ltb_ge in Hlt. unfold int_rem.
  destruct (Z.quot 32 t_x =? 0) eqn:Hz.
  { apply Z.eqb_eq in Hz. cbn [orb bind].
    split; [split; [intros _ | reflexivity] | discriminate].
    split; [reflexivity |]. exists t_x. split; [reflexivity |]. right. right.
    exists t_y. split; [reflexivity |]. left.
    split; [apply Hwy, Hz | lia]. }
  apply Z.eqb_neq in Hz. cbn [orb].
  replace ((t_y =? - 2 ^ 31) && (Z.quot 32 t_x =? -1)) with false.
  2:{ symmetry. apply andb_false_iff.
      destruct (Z.quot 32 t_x =? -1) eqn:E1; [left | right; reflexivity].
      apply Z.eqb_eq in E1. apply Z.eqb_neq. lia. }
  cbn [bind].
  destruct (Z.rem t_y (Z.quot 32 t_x) =? 0) eqn:Hrem; cbn [negb].
  2:{ apply Z.eqb_neq in Hrem.
      split; [split; [discriminate |] | discriminate].
      intros (_ & t & [= <-] & [? | [? | (ty & [= <-] & [(Habs & _) | (_ & Hr & _)])]]);
        [contradiction | contradiction | | contradiction].
      apply Hwy in Habs. contradiction. }
  apply Z.eqb_eq in Hrem.
  destruct (in_int (Z.quot 32 t_x * n (BufferAnalyser.thread_tile_ st))) eqn:HN;
    cbn [bind].
  - apply in_int_iff in HN.
    split; [split; [discriminate |] | discriminate].
    intros (_ & t & [= <-] & [? | [? | (ty & [= <-] & [(Habs & _) | (_ & _ & Hn)])]]);
      [contradiction | contradiction | | contradiction].
    apply Hwy in Habs. contradiction.
  - split; [split; [intros _ | reflexivity] | discriminate].
    split; [reflexivity |]. exists t_x. split; [reflexivity |]. right. right.
    exists t_y. split; [reflexivity |]. right.
    split; [exact Hlt |]. split; [exact Hrem |].
    rewrite <- in_int_iff, HN. discriminate.
Qed.

(** ** BufferAnalyser: buffers out of scope *)

Lemma bind_Err {A B} (m : Res A) (k : A -> Res B) (f : Fault) :
  bind m k = Err f -> m = Err f \/ exists a, m = Ok a /\ k a = Err f.
Proof. destruct m as [a|f0]; cbn [bind]; intros H; [eauto | left; congruence]. Qed.

Lemma at_index_fault {A} (l : list A) (i : nat) f :
  at_index l i = Err f -> f = CheckFailed.
Proof. unfold at_index. destruct (nth_error l i); congruence. Qed.

Lemma find_buffer_fault tensor st f :
  BufferAnalyser.find_buffer tensor st = Err f -> f = CheckFailed.
Proof.
  unfold BufferAnalyser.find_buffer.
  destruct (BufferAnalyser.buf_map_ st !! t_addr tensor) as [bi|]; [| congruence].
  destruct (BufferAnalyser.released bi); congruence.
Qed.

Lemma RelIndex_fault op_sub bi args f :
  BufferAnalyser.RelIndex op_sub bi args = Err f -> f = CheckFailed.
Proof.
  unfold BufferAnalyser.RelIndex.
  destruct (_ =? 0)%nat; [discriminate |]. destruct (negb _); congruence.
Qed.

Lemma scale_load_index_fault Simplify bi rel_index i st f :
  BufferAnalyser.scale_load_index Simplify bi rel_index i st = Err f -> f = CheckFailed.
Proof.
  unfold BufferAnalyser.scale_load_index. intros H.
  apply bind_Err in H as [H|(sh & _ & H)]; [exact (at_index_fault _ _ _ H) |].
  apply bind_Err in H as [H|(index & _ & H)]; [exact (at_index_fault _ _ _ H) |].
  discriminate.
Qed.

Lemma visit_load_fault Simplify make_const op_sub tensor indices st f :
  BufferAnalyser.visit_load Simplify make_const op_sub tensor indices st = Err f ->
  f = CheckFailed.
Proof.
  unfold BufferAnalyser.visit_load. intros H.
  apply bind_Err in H as [H|(bi & _ & H)]; [exact (find_buffer_fault _ _ _ H) |].
  destruct (_ && _); [discriminate |].
  destruct (negb _); [discriminate |].
  apply bind_Err in H as [H|(rel_index & _ & H)]; [exact (RelIndex_fault _ _ _ _ H) |].
  destruct (length indices <? 2)%nat; [discriminate |].
  apply bind_Err in H as [H|(st2 & _ & H)];
    exact (scale_load_index_fault _ _ _ _ _ _ H).
Qed.

(** The expression walk stops on failed checks only. *)
Lemma VisitExpr_fault Simplify make_const op_sub e :
  forall st f,
    BufferAnalyser.VisitExpr Simplify make_const op_sub e st = Err f -> f = CheckFailed.
Proof.
  induction e using PrimExpr_nested_ind; cbn [BufferAnalyser.VisitExpr];
    intros st f Hv; try discriminate.
  - eauto.
  - apply bind_Err in Hv as [Hv|(s1 & _ & Hv)]; eauto.
  - apply bind_Err in Hv as [Hv|(s1 & _ & Hv)]; eauto.
  - apply bind_Err in Hv as [Hv|(s1 & _ & Hv)]; eauto.
  - apply bind_Err in Hv as [Hv|(s1 & _ & Hv)]; eauto.
  - apply bind_Err in Hv as [Hv|(s1 & _ & Hv)].
    + exact (foldM_fault _ _ H _ _ Hv).
    + exact (visit_load_fault _ _ _ _ _ _ _ Hv).
  - exact (foldM_fault _ _ H _ _ Hv).
  - apply bind_Err in Hv as [Hv|(s1 & _ & Hv)].
    + revert Hv. apply foldM_fault.
      eapply Forall_impl; [exact H0 |].
      intros [v [mn ex]] [Hmn Hex] s f0 Hs. cbn [fst snd] in Hmn, Hex.
      apply bind_Err in Hs as [Hs|(s0 & _ & Hs)]; eauto.
    + apply bind_Err in Hv as [Hv|(s2 & _ & Hv)]; [| eauto].
      exact (foldM_fault _ _ H _ _ Hv).
Qed.

Lemma VisitExpr_buf_map Simplify make_const op_sub e st st' :
  BufferAnalyser.VisitExpr Simplify make_const op_sub e st = Ok st' ->
  BufferAnalyser.buf_map_ st' = BufferAnalyser.buf_map_ st.
Proof.
  intros Hv.
  refine (VisitExpr_walk Simplify make_const op_sub
            (fun s1 s2 => BufferAnalyser.buf_map_ s2 = BufferAnalyser.buf_map_ s1)
            _ _ _ _ _ e st st' Hv); cbn; intros; congruence.
Qed.

(** X22: A store into a tensor after the realize of that tensor has closed fails
    the check "a buffer that is already out of scope": the realize marks the
    entry released, and nothing the store visits before the check touches
    it. *)
Lemma store_after_realize_is_rejected Simplify make_const op_add op_sub op_mul indexmod
    producer bounds condition body a value indices st st1 :
  BufferAnalyser.buf_map_ st !! t_addr producer = None ->
  BufferAnalyser.VisitStmt Simplify make_const op_add op_sub op_mul indexmod
    (ProducerRealize producer bounds condition body) st = Ok st1 ->
  BufferAnalyser.VisitStmt Simplify make_const op_add op_sub op_mul indexmod
    (ProducerStore a producer value indices) st1 = Err CheckFailed.
Proof.
  intros Hnone Hr. cbn [BufferAnalyser.VisitStmt] in Hr. rewrite Hnone in Hr.
  apply bind_Ok in Hr as (st0 & _ & Hr). injection Hr as <-.
  assert (Hrel : exists bi,
            BufferAnalyser.buf_map_ (BufferAnalyser.release producer st0)
              !! t_addr producer = Some bi
            /\ BufferAnalyser.released bi = true).
  { unfold BufferAnalyser.release. cbn [BufferAnalyser.with_buf_map_ BufferAnalyser.buf_map_].
    rewrite lookup_insert_eq. eexists. split; reflexivity. }
  destruct Hrel as (bi & Hb & Hbr).
  set (st1 := BufferAnalyser.release producer st0) in *.
  cbn [BufferAnalyser.VisitStmt].
  destruct (foldM _ indices st1) as [s1|f1] eqn:E1; cbn [bind].
  2:{ f_equal. revert E1. apply foldM_fault.
      apply Forall_forall. intros e _. apply VisitExpr_fault. }
  assert (B1 : BufferAnalyser.buf_map_ s1 = BufferAnalyser.buf_map_ st1).
  { revert E1.
    apply (foldM_invariant _ (fun s => BufferAnalyser.buf_map_ s
                                       = BufferAnalyser.buf_map_ st1)); [| reflexivity].
    apply Forall_forall. intros e _ s s' Hs Hv.
    rewrite (VisitExpr_buf_map _ _ _ _ _ _ Hv). exact Hs. }
  destruct (BufferAnalyser.VisitExpr _ _ _ value s1) as [s2|f2] eqn:E2; cbn [bind].
  2:{ f_equal. exact (VisitExpr_fault _ _ _ _ _ _ E2). }
  apply VisitExpr_buf_map in E2.
  unfold BufferAnalyser.visit_store, BufferAnalyser.find_buffer.
  rewrite E2, B1, Hb, Hbr. reflexivity.
Qed.

(** [C] is realized around nothing and written afterwards. *)
Definition late_store : Stmt :=
  ProducerStore 10%N Ex.C (FloatImm Ex.f32 0) [Var Ex.i; Var Ex.j].

Lemma store_after_realize_is_rejected_witness :
  exists st1,
    analyse (ProducerRealize Ex.C Ex.tile (IntImm (DT.UInt 1) 1)
               (Evaluate (IntImm Ex.i32 0))) fresh_analyser = Ok st1
    /\ analyse late_store st1 = Err CheckFailed.
Proof.
  destruct (analyse (ProducerRealize Ex.C Ex.tile (IntImm (DT.UInt 1) 1)
                       (Evaluate (IntImm Ex.i32 0))) fresh_analyser)
    as [st1|f] eqn:E; [| vm_compute in E; discriminate].
  exists st1. split; [reflexivity |].
  exact (store_after_realize_is_rejected Ex2.Simplify Ex2.make_const Add Sub Mul
           Ex2.indexmod Ex.C Ex.tile (IntImm (DT.UInt 1) 1) (Evaluate (IntImm Ex.i32 0))
           10%N (FloatImm Ex.f32 0) [Var Ex.i; Var Ex.j] fresh_analyser st1 eq_refl E).
Defined.

(** ** BufferAnalyser: strides for the rewriter *)

Definition stays_valid (st st' : BufferAnalyser.State) : Prop :=
  (BufferAnalyser.invalid_ st' = false -> BufferAnalyser.invalid_ st = false)
  /\ grows (BufferAnalyser.strides_ st) (BufferAnalyser.strides_ st').

Lemma stays_valid_trans st1 st2 st3 :
  stays_valid st1 st2 -> stays_valid st2 st3 -> stays_valid st1 st3.
Proof. intros [A1 A2] [B1 B2]. split; [auto | intros key v Hk; auto]. Qed.

Lemma visit_store_stays_valid Simplify make_const op_sub a producer value indices st st' :
  BufferAnalyser.visit_store Simplify make_const op_sub a producer value indices st
  = Ok st' ->
  stays_valid st st'.
Proof.
  intros Hv.
  refine (visit_store_walk Simplify make_const op_sub stays_valid
            _ _ _ _ _ _ _ _ a producer value indices st st' Hv);
    try (intros; split; cbn; first [tauto | discriminate | apply grows_refl
                                    | apply grows_insert_new]).
  apply stays_valid_trans.
Qed.

Lemma visit_load_strides Simplify make_const op_sub tensor indices st st' :
  BufferAnalyser.visit_load Simplify make_const op_sub tensor indices st = Ok st' ->
  BufferAnalyser.invalid_ st' = false ->
  is_Some (BufferAnalyser.strides_ st' !! t_name_hint tensor).
Proof.
  unfold BufferAnalyser.visit_load. intros H Hvalid.
  apply bind_Ok in H as (bi & _ & H).
  destruct (_ && _); [injection H as <-; discriminate |].
  set (st1 := BufferAnalyser.with_strides_ st _) in H.
  assert (H1 : is_Some (BufferAnalyser.strides_ st1 !! t_name_hint tensor))
    by apply insert_new_is_Some.
  destruct (negb _); [injection H as <-; exact H1 |].
  apply bind_Ok in H as (rel_index & _ & H).
  destruct (length indices <? 2)%nat; [injection H as <-; exact H1 |].
  apply bind_Ok in H as (st2 & H2 & H).
  destruct H1 as [v H1].
  unfold BufferAnalyser.scale_load_index in H2, H.
  apply bind_Ok in H2 as (sh2 & _ & H2). apply bind_Ok in H2 as (i2 & _ & H2).
  apply bind_Ok in H as (sh3 & _ & H). apply bind_Ok in H as (i3 & _ & H).
  injection H2 as <-. injection H as <-. exists v. exact H1.
Qed.

(** X23: After a store the analysis is still valid for, the strides table holds
    the name of the tensor written and, when the value stored is a producer
    load, the name of the tensor read: the two names the rewriter looks up
    under "Cannot find stride". *)
Lemma valid_store_has_strides Simplify make_const op_add op_sub op_mul indexmod
    a producer value indices st st' :
  BufferAnalyser.VisitStmt Simplify make_const op_add op_sub op_mul indexmod
    (ProducerStore a producer value indices) st = Ok st' ->
  BufferAnalyser.invalid_ st' = false ->
  is_Some (BufferAnalyser.strides_ st' !! t_name_hint producer)
  /\ forall load_addr value_producer value_indices,
       value = ProducerLoad load_addr value_producer value_indices ->
       is_Some (BufferAnalyser.strides_ st' !! t_name_hint value_producer).
Proof.
  cbn [BufferAnalyser.VisitStmt]. intros H Hvalid.
  apply bind_Ok in H as (s1 & H1 & H). apply bind_Ok in H as (s2 & H2 & H3).
  pose proof (visit_store_stays_valid _ _ _ _ _ _ _ _ _ H3) as [V3 G3].
  split.
  - unfold BufferAnalyser.visit_store in H3.
    apply bind_Ok in H3 as (bi & _ & H3).
    destruct (_ && _); [injection H3 as <-; discriminate |].
    set (st1 := BufferAnalyser.with_strides_ s2 _) in H3.
    destruct (insert_new_is_Some (t_name_hint producer)
                (BufferAnalyser.strides_of make_const bi) (BufferAnalyser.strides_ s2))
      as [v Hv].
    assert (G : grows (BufferAnalyser.strides_ st1) (BufferAnalyser.strides_ st')).
    { apply bind_Ok in H3 as ([go_on st2] & Hf & H3).
      assert (G2 : grows (BufferAnalyser.strides_ st1) (BufferAnalyser.strides_ st2)).
      { destruct (bool_decide _).
        - refine (visit_fragment_store_walk Simplify op_sub
                    (fun x y => grows (BufferAnalyser.strides_ x) (BufferAnalyser.strides_ y))
                    _ _ _ _ _ _ a producer indices bi st1 go_on st2 Hf);
            try (intros; cbn; apply grows_refl).
          intros x y z Gxy Gyz key w Hk. auto.
        - injection Hf as _ <-. apply grows_refl. }
      destruct (negb go_on); [injection H3 as <-; exact G2 |].
      destruct (as_ProducerLoad value) as [[[la vp] li]|];
        [| injection H3 as <-; exact G2].
      destruct (bool_decide (t_name_hint vp ∈ BufferAnalyser.frag_reg_ st2));
        injection H3 as <-; exact G2. }
    exists v. apply G. exact Hv.
  - intros la vp li ->. cbn [BufferAnalyser.VisitExpr] in H2.
    apply bind_Ok in H2 as (s0 & _ & H2).
    destruct (visit_load_strides _ _ _ _ _ _ _ H2 (V3 Hvalid)) as [v Hv].
    exists v. apply G3, Hv.
Qed.

(** The analyser inside the three realizes of [Ex.kernel]. *)
Definition live (t : Tensor) : BufferAnalyser.BufferInfo :=
  BufferAnalyser.mkBufferInfo (t_name_hint t) (t_dtype t) []
    [IntImm Ex.i32 16; IntImm Ex.i32 16] Ex.tile false false.

Definition in_kernel : BufferAnalyser.State :=
  BufferAnalyser.with_buf_map_ fresh_analyser
    (<[t_addr Ex.B := live Ex.B]>
       (<[t_addr Ex.A := live Ex.A]> (<[t_addr Ex.C := live Ex.C]> ∅))).

Lemma valid_store_has_strides_witness :
  exists st',
    analyse (Ex.mma_store Ex.C Ex.A Ex.B) in_kernel = Ok st'
    /\ BufferAnalyser.invalid_ st' = false
    /\ is_Some (BufferAnalyser.strides_ st' !! "C").
Proof.
  destruct (analyse (Ex.mma_store Ex.C Ex.A Ex.B) in_kernel) as [st'|f] eqn:E;
    [| vm_compute in E; discriminate].
  assert (Hvalid : BufferAnalyser.invalid_ st' = false).
  { vm_compute in E. injection E as <-. reflexivity. }
  exists st'. split; [reflexivity |]. split; [exact Hvalid |].
  exact (proj1 (valid_store_has_strides Ex2.Simplify Ex2.make_const Add Sub Mul
                  Ex2.indexmod _ _ _ _ in_kernel st' E Hvalid)).
Defined.

(** ** BufferAnalyser: alignment requests *)



(** ** IndexVisitor: the scaling table *)

Lemma fold_insert_new_lookup (f : Z) (l : list VarT) (mp : gmap addr Z) (a : addr) :
  fold_left (fun t v => insert_new (v_addr v) f t) l mp !! a
  = match mp !! a with
    | Some f0 => Some f0
    | None => if existsb (fun v => N.eqb (v_addr v) a) l then Some f else None
    end.
Proof.
  revert mp. induction l as [|v l IH]; intros mp; cbn [fold_left existsb].
  - destruct (mp !! a); reflexivity.
  - rewrite IH. unfold insert_new.
    destruct (mp !! v_addr v) as [f1|] eqn:Ev.
    + destruct (mp !! a) as [f0|] eqn:Ea; [reflexivity |].
      destruct (N.eqb (v_addr v) a) eqn:E; [| reflexivity].
      apply N.eqb_eq in E. congruence.
    + destruct (N.eqb (v_addr v) a) eqn:E.
      * apply N.eqb_eq in E. subst a. rewrite lookup_insert_eq, Ev. reflexivity.
      * apply N.eqb_neq in E. rewrite lookup_insert_ne by exact E.
        destruct (mp !! a); reflexivity.
Qed.

(** X25: One visit of an index with the scaling factor [f]: a variable that has
    a factor keeps it, a variable of the index that has none gets [f], and
    no other variable gets one. *)
Lemma index_visitor_lookup f e st a :
  BufferAnalyser.loop_scaling_ (BufferAnalyser.index_visitor f e st) !! a
  = match BufferAnalyser.loop_scaling_ st !! a with
    | Some f0 => Some f0
    | None => if existsb (fun v => N.eqb (v_addr v) a) (expr_vars e) then Some f else None
    end.
Proof.
  unfold BufferAnalyser.index_visitor.
  cbn [BufferAnalyser.with_loop_scaling_ BufferAnalyser.loop_scaling_].
  apply fold_insert_new_lookup.
Qed.

(** ** TensorCoreIRMutator: what it rewrites *)

Definition present {A} (o : option A) : bool :=
  match o with Some _ => true | None => false end.

(** Some node of [s] is one the tables name: the realize or the
    [realize_scope] attribute of a fragment, a store with a record or an
    entry in one of the two store tables, a loop over a scaled variable. *)
Fixpoint rewrites (tbl : TensorCoreIRMutator.Tables) (s : Stmt) : bool :=
  match s with
  | AttrStmt node attr_key _ body =>
      (String.eqb attr_key attr.realize_scope
       && match node with
          | RefOperation _ name => bool_decide (name ∈ TensorCoreIRMutator.frag_reg_ tbl)
          | _ => false
          end)
      || rewrites tbl body
  | ProducerStore a _ _ _ =>
      present (MMAMatcher.alist_find a (TensorCoreIRMutator.mma_sync_ tbl))
      || present (TensorCoreIRMutator.frag_load_ tbl !! a)
      || present (TensorCoreIRMutator.frag_store_ tbl !! a)
  | ProducerRealize key _ _ body =>
      bool_decide (t_name_hint key ∈ TensorCoreIRMutator.frag_reg_ tbl)
      || rewrites tbl body
  | For loop_var _ _ _ body _ _ =>
      present (TensorCoreIRMutator.loop_scaling_ tbl !! v_addr loop_var)
      || rewrites tbl body
  | SeqStmt seq => existsb (rewrites tbl) seq
  | IfThenElse _ then_case else_case =>
      rewrites tbl then_case
      || match else_case with Some e => rewrites tbl e | None => false end
  | Evaluate _ => false
  end.

Lemma mutator_returns_untouched Simplify make_const tbl s :
  rewrites tbl s = false ->
  forall bounds_, exists bounds_',
    TensorCoreIRMutator.VisitStmt Simplify make_const tbl s bounds_ = Ok (s, bounds_').
Proof.
  induction s using Stmt_nested_ind;
    cbn [rewrites TensorCoreIRMutator.VisitStmt]; intros Hr bounds_.
  - apply orb_false_iff in Hr as [Hn Hb].
    destruct (IHs Hb bounds_) as (b1 & ->). cbn [bind].
    destruct (String.eqb attr_key attr.realize_scope); [| eauto].
    destruct node; eauto. cbn [andb] in Hn. rewrite Hn. cbn [negb]. eauto.
  - apply orb_false_iff in Hr as [Hr H3]. apply orb_false_iff in Hr as [H1 H2].
    unfold TensorCoreIRMutator.rewrite_store.
    destruct (MMAMatcher.alist_find a _); [discriminate |].
    destruct (TensorCoreIRMutator.frag_load_ tbl !! a); [discriminate |].
    destruct (TensorCoreIRMutator.frag_store_ tbl !! a); [discriminate |].
    cbn [bind]. eauto.
  - apply orb_false_iff in Hr as [Hf Hb].
    destruct (IHs Hb (<[t_addr producer := bounds]> bounds_)) as (b1 & ->). cbn [bind].
    rewrite Hf. cbn [negb]. eauto.
  - apply orb_false_iff in Hr as [Hl Hb].
    destruct (IHs Hb bounds_) as (b1 & ->). cbn [bind].
    destruct (TensorCoreIRMutator.loop_scaling_ tbl !! v_addr loop_var); [discriminate |].
    eauto.
  - assert (Hgo : forall b, exists b',
              (fix go (l : list Stmt) (b : gmap addr Region)
                 : Res (list Stmt * gmap addr Region) :=
                 match l with
                 | [] => Ok ([], b)
                 | x :: l' =>
                     '(x1, b1) <- TensorCoreIRMutator.VisitStmt Simplify make_const tbl x b ;
                     '(l1, b2) <- go l' b1 ;
                     Ok (x1 :: l1, b2)
                 end) seq b = Ok (seq, b')).
    { induction H as [|x l Hx _ IH]; intros b; [eauto |].
      cbn [existsb] in Hr. apply orb_false_iff in Hr as [Hrx Hrl].
      destruct (Hx Hrx b) as (b1 & ->). cbn [bind].
      destruct (IH Hrl b1) as (b2 & ->). cbn [bind]. eauto. }
    destruct (Hgo bounds_) as (b' & ->). cbn [bind]. eauto.
  - apply orb_false_iff in Hr as [Ht He].
    destruct (IHs Ht bounds_) as (b1 & ->). cbn [bind].
    destruct else_case as [e|]; [| eauto].
    destruct (H He b1) as (b2 & ->). cbn [bind]. eauto.
  - eauto.
Qed.

(** X26: The rewriter changes four kinds of nodes and nothing else: a statement
    that holds none of them comes back as it is, and the rewriter does not
    fail on it. *)
Lemma mutator_changes_named_nodes_only Simplify make_const tbl s :
  rewrites tbl s = false ->
  TensorCoreIRMutator.run Simplify make_const tbl s = Ok s.
Proof.
  intros Hr. unfold TensorCoreIRMutator.run.
  destruct (mutator_returns_untouched Simplify make_const tbl s Hr ∅) as (b' & ->).
  reflexivity.
Qed.

Lemma mutator_changes_named_nodes_only_witness :
  TensorCoreIRMutator.run Ex2.Simplify Ex2.make_const example_tables
    (example_loop (IntImm Ex.i32 64)) <> Ok (example_loop (IntImm Ex.i32 64))
  /\ TensorCoreIRMutator.run Ex2.Simplify Ex2.make_const example_tables
       (For Ex.j (IntImm Ex.i32 0) (IntImm Ex.i32 64) kSerial
            (Evaluate (IntImm Ex.i32 0)) None [])
     = Ok (For Ex.j (IntImm Ex.i32 0) (IntImm Ex.i32 64) kSerial
               (Evaluate (IntImm Ex.i32 0)) None []).
Proof.
  split; [vm_compute; discriminate |].
  exact (mutator_changes_named_nodes_only Ex2.Simplify Ex2.make_const example_tables
           (For Ex.j (IntImm Ex.i32 0) (IntImm Ex.i32 64) kSerial
                (Evaluate (IntImm Ex.i32 0)) None []) eq_refl).
Defined.

(** ** TensorCoreIRMutator: the scope of a fragment *)

(** X27: The [realize_scope] attribute of an operation whose name is in the
    fragment set gets the scope ["wmma."] followed by the role of the
    simplified name.  Its body is rewritten twice, the second time with the
    bounds the first walk has collected, and the first result is dropped. *)
Lemma fragment_scope_rewrite Simplify make_const tbl a name value body role bounds_ :
  name ∈ TensorCoreIRMutator.frag_reg_ tbl ->
  TensorCoreIRMutator.matrix_abc_ tbl !! simplify_name name = Some role ->
  TensorCoreIRMutator.VisitStmt Simplify make_const tbl
    (AttrStmt (RefOperation a name) attr.realize_scope value body) bounds_
  = ('(body1, b1) <- TensorCoreIRMutator.VisitStmt Simplify make_const tbl body bounds_ ;
     '(body2, b2) <- TensorCoreIRMutator.VisitStmt Simplify make_const tbl body b1 ;
     Ok (AttrStmt (RefOperation a name) attr.realize_scope
                  (StringImm (String.append "wmma." role)) body2, b2)).
Proof.
  intros Hf Hr. cbn [TensorCoreIRMutator.VisitStmt].
  destruct (TensorCoreIRMutator.VisitStmt _ _ _ body bounds_) as [[body1 b1]|f];
    [| reflexivity].
  cbn [bind]. rewrite String.eqb_refl, bool_decide_eq_true_2 by exact Hf.
  cbn [negb]. rewrite Hr. reflexivity.
Qed.

Lemma fragment_scope_rewrite_witness :
  TensorCoreIRMutator.VisitStmt Ex2.Simplify Ex2.make_const example_tables
    (AttrStmt (RefOperation 90%N "C") attr.realize_scope (StringImm "local")
              (Evaluate (IntImm Ex.i32 0))) ∅
  = Ok (AttrStmt (RefOperation 90%N "C") attr.realize_scope
                 (StringImm "wmma.accumulator") (Evaluate (IntImm Ex.i32 0)), ∅).
Proof.
  apply (fragment_scope_rewrite Ex2.Simplify Ex2.make_const example_tables 90%N "C"
           (StringImm "local") (Evaluate (IntImm Ex.i32 0)) "accumulator" ∅).
  - apply (bool_decide_unpack _). vm_compute. exact I.
  - reflexivity.
Defined.

(** ** TensorCoreIRMutator: the buffer descriptor *)

Lemma compact_strides_length one shape :
  length (compact_strides one shape) = Nat.max 1 (length shape).
Proof.
  unfold compact_strides. rewrite length_app, length_map, length_seq. cbn [length]. lia.
Qed.

Lemma zip_pairs_length (l1 l2 : list PrimExpr) :
  length l1 = length l2 ->
  length (concat (zip_with (fun i sh => [i; sh]) l1 l2)) = (2 * length l1)%nat.
Proof.
  revert l2. induction l1 as [|x l1 IH]; intros [|y l2] Hl; cbn in *; try lia.
  rewrite (IH l2) by lia. lia.
Qed.

(** What [add_buffer_bind_scope_] has checked and built when it returns. *)
Lemma add_buffer_bind_scope_built Simplify make_const tbl bounds_ pload call_back s :
  TensorCoreIRMutator.add_buffer_bind_scope_ Simplify make_const tbl bounds_ pload
    call_back = Ok s ->
  exists a tensor indices region role buffer tuple_args body,
    pload = Some (a, tensor, indices)
    /\ bounds_ !! t_addr tensor = Some region
    /\ TensorCoreIRMutator.matrix_abc_ tbl !! simplify_name (t_op_name tensor) = Some role
    /\ call_back buffer = Ok body
    /\ s = AttrStmt (RefBind fresh_addr buffer tensor) "buffer_bind_scope"
             (Call fresh_addr DT.Handle builtin.tvm_tuple tuple_args) body
    /\ b_name buffer = t_op_name tensor
    /\ b_scope buffer = String.append "wmma." role
    /\ b_dtype buffer = t_dtype tensor
    /\ (2 <= length indices)%nat
    /\ length region = length indices
    /\ length (b_shape buffer) = length indices
    /\ length (b_strides buffer) = length indices
    /\ length tuple_args = (2 * length indices)%nat
    /\ take (length indices - 2) (b_shape buffer)
       = map r_extent (take (length indices - 2) region).
Proof.
  unfold TensorCoreIRMutator.add_buffer_bind_scope_. intros H.
  apply bind_Ok in H as ([[a tensor] indices] & Hd & H).
  destruct pload as [p|]; [| discriminate]. cbn [deref] in Hd. injection Hd as ->.
  destruct (bounds_ !! t_addr tensor) as [region|] eqn:Hb; [| discriminate].
  destruct (length region <? 2)%nat eqn:Hlen; [discriminate |].
  apply Nat.ltb_ge in Hlen.
  apply bind_Ok in H as ([e0 e1] & Ht & H).
  destruct (negb _) eqn:Hli; [discriminate |].
  apply negb_false_iff, Nat.eqb_eq in Hli. rewrite length_map in Hli.
  destruct (TensorCoreIRMutator.matrix_abc_ tbl !! _) as [role|] eqn:Hr; [| discriminate].
  apply bind_Ok in H as (body & Hc & H). injection H as <-.
  cbn [fst snd] in *.
  assert (Hshape : length (map r_extent (take (length region - 2) region) ++ [e0; e1])
                   = length indices).
  { rewrite length_app, length_map, length_take. cbn [length]. lia. }
  do 8 eexists. split; [reflexivity |]. split; [exact Hb |].
  split; [exact Hr |]. split; [exact Hc |]. split; [reflexivity |].
  cbn [b_name b_scope b_dtype b_shape b_strides].
  repeat split.
  - lia.
  - lia.
  - exact Hshape.
  - rewrite compact_strides_length, Hshape. lia.
  - apply zip_pairs_length. symmetry. exact Hshape.
  - rewrite Hli. rewrite take_app_le by (rewrite length_map, length_take; lia).
    rewrite take_ge; [reflexivity |]. rewrite length_map, length_take. lia.
Qed.

(** X28: The descriptor bound to a fragment access: the buffer is named after the
    tensor's operation, its scope is ["wmma."] followed by the role, and its
    shape, its strides and the index list have one length, at least two, so
    that the tuple of the attribute pairs every index with a dimension and
    no stride is left out of [elem_offset]. *)
Lemma bind_scope_descriptor Simplify make_const tbl bounds_ a tensor indices
    call_back s :
  TensorCoreIRMutator.add_buffer_bind_scope_ Simplify make_const tbl bounds_
    (Some (a, tensor, indices)) call_back = Ok s ->
  exists role buffer tuple_args body,
    TensorCoreIRMutator.matrix_abc_ tbl !! simplify_name (t_op_name tensor) = Some role
    /\ s = AttrStmt (RefBind fresh_addr buffer tensor) "buffer_bind_scope"
             (Call fresh_addr DT.Handle builtin.tvm_tuple tuple_args) body
    /\ call_back buffer = Ok body
    /\ b_name buffer = t_op_name tensor
    /\ b_scope buffer = String.append "wmma." role
    /\ b_dtype buffer = t_dtype tensor
    /\ (2 <= length indices)%nat
    /\ length (b_shape buffer) = length indices
    /\ length (b_strides buffer) = length indices
    /\ length tuple_args = (2 * length indices)%nat.
Proof.
  intros H.
  apply add_buffer_bind_scope_built in H
    as (a' & tensor' & indices' & region & role & buffer & tuple_args & body
        & Hp & _ & Hr & Hc & -> & Hn & Hs & Hd & H2 & _ & Hsh & Hst & Htu & _).
  injection Hp as <- <- <-.
  exists role, buffer, tuple_args, body. repeat split; assumption.
Qed.

Lemma bind_scope_descriptor_witness :
  exists buffer tuple_args,
    TensorCoreIRMutator.add_buffer_bind_scope_ Ex2.Simplify Ex2.make_const fill_tables
      (<[t_addr Ex.C := Ex.tile]> ∅)
      (Some (fresh_addr, Ex.C, [Var thread_x; IntImm Ex.i32 0]))
      (fun _ => Ok (Evaluate (IntImm Ex.i32 0)))
    = Ok (AttrStmt (RefBind fresh_addr buffer Ex.C) "buffer_bind_scope"
            (Call fresh_addr DT.Handle builtin.tvm_tuple tuple_args)
            (Evaluate (IntImm Ex.i32 0)))
    /\ b_scope buffer = "wmma.accumulator"
    /\ length (b_strides buffer) = 2%nat
    /\ length tuple_args = 4%nat.
Proof.
  destruct (TensorCoreIRMutator.add_buffer_bind_scope_ Ex2.Simplify Ex2.make_const
              fill_tables (<[t_addr Ex.C := Ex.tile]> ∅)
              (Some (fresh_addr, Ex.C, [Var thread_x; IntImm Ex.i32 0]))
              (fun _ => Ok (Evaluate (IntImm Ex.i32 0)))) as [s|f] eqn:E;
    [| vm_compute in E; discriminate].
  destruct (bind_scope_descriptor _ _ _ _ _ _ _ _ _ E)
    as (role & buffer & tuple_args & body & Hr & -> & Hc & _ & Hs & _ & _ & _ & Hst & Htu).
  injection Hc as <-. vm_compute in Hr. injection Hr as <-.
  exists buffer, tuple_args. auto.
Defined.

(** ** TensorCoreIRMutator: the intrinsic a store becomes *)

(** The intrinsic under the [buffer_bind_scope] attributes of a rewritten
    store. *)
Fixpoint core_intrinsic (s : Stmt) : option string :=
  match s with
  | AttrStmt _ attr_key _ body =>
      if String.eqb attr_key "buffer_bind_scope" then core_intrinsic body else None
  | Evaluate (Call _ _ op _) => Some op
  | _ => None
  end.

Lemma add_buffer_bind_scope_core Simplify make_const tbl bounds_ pload call_back s :
  TensorCoreIRMutator.add_buffer_bind_scope_ Simplify make_const tbl bounds_ pload
    call_back = Ok s ->
  exists a tensor indices buffer body,
    pload = Some (a, tensor, indices)
    /\ call_back buffer = Ok body
    /\ core_intrinsic s = core_intrinsic body.
Proof.
  intros H.
  apply add_buffer_bind_scope_built in H
    as (a & tensor & indices & region & role & buffer & tuple_args & body
        & Hp & _ & _ & Hc & -> & _).
  exists a, tensor, indices, buffer, body. auto.
Qed.

Lemma rewrite_mma_core Simplify make_const tbl bounds_ operands s :
  TensorCoreIRMutator.rewrite_mma Simplify make_const tbl bounds_ operands = Ok s ->
  exists a1 t1 i1 a2 t2 i2,
    nth_error operands 0 = Some (ProducerLoad a1 t1 i1)
    /\ nth_error operands 1 = Some (ProducerLoad a2 t2 i2)
    /\ core_intrinsic s
       = Some (if DT.eqb (t_dtype t1) (DT.Int 1) && DT.eqb (t_dtype t2) (DT.Int 1)
               then builtin.tvm_bmma_sync else builtin.tvm_mma_sync).
Proof.
  unfold TensorCoreIRMutator.rewrite_mma. intros H.
  apply bind_Ok in H as (ea & Ha & H). apply bind_Ok in H as (eb & Hb & H).
  apply bind_Ok in H as (ec & Hc & H).
  unfold at_index in Ha, Hb.
  destruct (nth_error operands 0) as [ea'|]; [injection Ha as -> | discriminate].
  destruct (nth_error operands 1) as [eb'|]; [injection Hb as -> | discriminate].
  apply add_buffer_bind_scope_core in H as (a1 & t1 & i1 & buffer_a & s1 & Hpa & H & ->).
  apply add_buffer_bind_scope_core in H as (a2 & t2 & i2 & buffer_b & s2 & Hpb & H & ->).
  apply add_buffer_bind_scope_core in H as (a3 & t3 & i3 & buffer_c & s3 & Hpc & H & ->).
  destruct ea; try discriminate. destruct eb; try discriminate.
  cbn [as_ProducerLoad] in Hpa, Hpb. injection Hpa as <- <- <-. injection Hpb as <- <- <-.
  cbn [TensorCoreIRMutator.load_dtype as_ProducerLoad deref bind] in H.
  exists a, producer, indices, a0, producer0, indices0.
  split; [reflexivity |]. split; [reflexivity |].
  destruct (_ && _); injection H as <-; reflexivity.
Qed.

(** X29: A store is looked up in the three tables in a fixed order, the first
    hit decides: a recorded store becomes [tvm_bmma_sync] when both factor
    loads are of type int1 and [tvm_mma_sync] otherwise; a store in
    [frag_load_] becomes [tvm_fill_fragment] when it stores a constant and
    [tvm_load_matrix_sync] when it stores a producer load, and nothing else
    can be stored; a store in [frag_store_] becomes [tvm_store_matrix_sync];
    any other store is kept. *)
Lemma store_rewrite_by_table Simplify make_const tbl bounds_ a producer value indices s :
  TensorCoreIRMutator.rewrite_store Simplify make_const tbl bounds_ a producer value
    indices = Ok s ->
  match MMAMatcher.alist_find a (TensorCoreIRMutator.mma_sync_ tbl),
        TensorCoreIRMutator.frag_load_ tbl !! a,
        TensorCoreIRMutator.frag_store_ tbl !! a with
  | Some operands, _, _ =>
      exists a1 t1 i1 a2 t2 i2,
        nth_error operands 0 = Some (ProducerLoad a1 t1 i1)
        /\ nth_error operands 1 = Some (ProducerLoad a2 t2 i2)
        /\ core_intrinsic s
           = Some (if DT.eqb (t_dtype t1) (DT.Int 1) && DT.eqb (t_dtype t2) (DT.Int 1)
                   then builtin.tvm_bmma_sync else builtin.tvm_mma_sync)
  | None, Some _, _ =>
      match value with
      | IntImm _ _ | FloatImm _ _ => core_intrinsic s = Some builtin.tvm_fill_fragment
      | ProducerLoad _ _ _ => core_intrinsic s = Some builtin.tvm_load_matrix_sync
      | _ => False
      end
  | None, None, Some _ => core_intrinsic s = Some builtin.tvm_store_matrix_sync
  | None, None, None => s = ProducerStore a producer value indices
  end.
Proof.
  unfold TensorCoreIRMutator.rewrite_store. intros H.
  destruct (MMAMatcher.alist_find a _) as [operands|].
  { exact (rewrite_mma_core _ _ _ _ _ _ H). }
  destruct (TensorCoreIRMutator.frag_load_ tbl !! a) as [dst|].
  { destruct value; try discriminate.
    - unfold TensorCoreIRMutator.rewrite_frag_load in H.
      apply add_buffer_bind_scope_core in H as (? & ? & ? & ? & body & _ & H & ->).
      injection H as <-. reflexivity.
    - unfold TensorCoreIRMutator.rewrite_frag_load in H.
      apply add_buffer_bind_scope_core in H as (? & ? & ? & ? & body & _ & H & ->).
      injection H as <-. reflexivity.
    - apply rewrite_frag_load_shape in H
        as (node & tuple & buffer & stride & major & ->). reflexivity. }
  destruct (TensorCoreIRMutator.frag_store_ tbl !! a) as [dst|].
  { apply rewrite_frag_store_shape in H as (node & tuple & buffer & stride & ->).
    reflexivity. }
  injection H as <-. reflexivity.
Qed.

Lemma store_rewrite_by_table_witness :
  exists s,
    TensorCoreIRMutator.rewrite_store Ex2.Simplify Ex2.make_const fill_tables
      (<[t_addr Ex.C := Ex.tile]> ∅) 10%N Ex.C (FloatImm Ex.f32 0)
      [Var thread_x; IntImm Ex.i32 0] = Ok s
    /\ core_intrinsic s = Some builtin.tvm_fill_fragment.
Proof.
  destruct (TensorCoreIRMutator.rewrite_store Ex2.Simplify Ex2.make_const fill_tables
              (<[t_addr Ex.C := Ex.tile]> ∅) 10%N Ex.C (FloatImm Ex.f32 0)
              [Var thread_x; IntImm Ex.i32 0]) as [s|f] eqn:E;
    [| vm_compute in E; discriminate].
  exists s. split; [reflexivity |].
  exact (store_rewrite_by_table _ _ _ _ _ _ _ _ _ E).
Defined.

(** ** TensorCoreIRMutator: tile sizes of the names the schedule analysis knows *)

(** The sizes of a row of [role_rows], for the warp tile [w]. *)
Definition tile_of_row (make_const : DataType -> Z -> PrimExpr) (w : Tile)
    (role layout : string) : PrimExpr * PrimExpr :=
  let c := make_const (DT.Int 32) in
  if String.eqb role "matrix_a" then
    if String.eqb layout "col_major" then (c (k w), c (m w)) else (c (m w), c (k w))
  else if String.eqb role "matrix_b" then
    if String.eqb layout "col_major" then (c (n w), c (k w)) else (c (k w), c (n w))
  else (c 16, c 16).

(** X30: With the role tables as [MatrixIdentify] leaves them, [get_tile_size_]
    does not fail on a name that has a role: the name has a layout too, and
    the sizes are (K, M), (M, K), (N, K) or (K, N) for the four input rows
    and (16, 16) for an accumulator and for a name with the empty role.  The
    pair (N, M) of the test for [matrix_c] is never returned. *)
Lemma tile_size_of_known_name make_const tbl name role :
  roles_in_rows (TensorCoreIRMutator.matrix_abc_ tbl)
                (TensorCoreIRMutator.matrix_major_ tbl) ->
  TensorCoreIRMutator.matrix_abc_ tbl !! name = Some role ->
  exists layout,
    TensorCoreIRMutator.matrix_major_ tbl !! name = Some layout
    /\ In (role, layout) role_rows
    /\ TensorCoreIRMutator.get_tile_size_ make_const tbl name
       = Ok (tile_of_row make_const (TensorCoreIRMutator.warp_tile_ tbl) role layout).
Proof.
  intros Hw Hr. specialize (Hw name). rewrite Hr in Hw.
  destruct (TensorCoreIRMutator.matrix_major_ tbl !! name) as [layout|] eqn:Hl;
    [| contradiction].
  exists layout. split; [reflexivity |]. split; [exact Hw |].
  unfold TensorCoreIRMutator.get_tile_size_. rewrite Hr, Hl.
  cbn [In role_rows] in Hw.
  destruct Hw as [E|[E|[E|[E|[E|[E|[]]]]]]]; injection E as <- <-; reflexivity.
Qed.

Lemma tile_size_of_known_name_witness :
  TensorCoreIRMutator.get_tile_size_ Ex2.make_const example_tables "B"
  = Ok (IntImm Ex.i32 32, IntImm Ex.i32 16)
  /\ TensorCoreIRMutator.get_tile_size_ Ex2.make_const example_tables "C"
     = Ok (IntImm Ex.i32 16, IntImm Ex.i32 16).
Proof.
  assert (Hw : roles_in_rows (TensorCoreIRMutator.matrix_abc_ example_tables)
                             (TensorCoreIRMutator.matrix_major_ example_tables)).
  { intros name. cbn [example_tables TensorCoreIRMutator.matrix_abc_
                      TensorCoreIRMutator.matrix_major_].
    destruct (decide (name = "C")) as [->|HC]; [vm_compute; tauto |].
    destruct (decide (name = "B")) as [->|HB]; [vm_compute; tauto |].
    destruct (decide (name = "A")) as [->|HA]; [vm_compute; tauto |].
    rewrite !lookup_insert_ne, !lookup_empty by congruence. exact I. }
  split.
  - destruct (tile_size_of_known_name Ex2.make_const example_tables "B" "matrix_b"
                Hw eq_refl) as (layout & Hl & _ & Ht).
    vm_compute in Hl. injection Hl as <-. exact Ht.
  - destruct (tile_size_of_known_name Ex2.make_const example_tables "C" "accumulator"
                Hw eq_refl) as (layout & Hl & _ & Ht).
    vm_compute in Hl. injection Hl as <-. exact Ht.
Defined.
